(** * Observability: in-memory span store and traces query codec

    A shallow embedding of

    - [ObservabilityInMemory] (the in-memory implementation of the
      observability storage contract): [createSpan], [batchCreateSpans],
      [updateSpan], [batchUpdateSpans], [batchDeleteTraces], [getTrace],
      [getTracesPaginated] and its private filters;
    - [getSpanStatus] of the storage types;
    - the traces query codec of [storage/schemas/observability.ts]:
      [serializeTracesParams] and [parseTracesQueryParams], and
      [transformQueryParams] of the earlier revision of the file;
    - [Observability.getTraces] of the JavaScript client, as far as the
      path it requests.

    JavaScript values are modelled as follows: strings are [string]
    (the UTF-8 bytes of the JavaScript string), integral numbers are [Z],
    a [Date] is its time value in milliseconds ([Z]), [T | null] and
    optional properties are [option T]. *)

From Stdlib Require Import ZArith List String Ascii Bool Lia Arith.
From Stdlib Require Import DecimalString DecimalPos DecimalN.
From Stdlib Require Import Permutation Sorted.
Import ListNotations.
Set Warnings "-register-all".
Local Open Scope string_scope.
Local Open Scope Z_scope.

(** A [Date] is represented by its time value (milliseconds since the epoch). *)
Definition Date := Z.

(* ===================================================================== *)
(** * The in-memory store *)
(* ===================================================================== *)

Module Store.

(** ** Values of type [any] / [unknown]

    The store never looks inside an object; it only tests truthiness and
    strict equality, so an object (or array) is represented by its identity. *)
Inductive Any : Type :=
| AUndefined
| ANull
| ABool (b : bool)
| ANum (n : Z)
| AStr (s : string)
| AObj (ref : nat).

(** JavaScript [ToBoolean]. *)
Definition truthy (v : Any) : bool :=
  match v with
  | AUndefined | ANull => false
  | ABool b => b
  | ANum n => negb (n =? 0)
  | AStr s => negb (s =? "")%string
  | AObj _ => true
  end.

(** JavaScript [===]. *)
Definition strict_eq (a b : Any) : bool :=
  match a, b with
  | AUndefined, AUndefined => true
  | ANull, ANull => true
  | ABool x, ABool y => Bool.eqb x y
  | ANum x, ANum y => x =? y
  | AStr x, AStr y => (x =? y)%string
  | AObj x, AObj y => Nat.eqb x y
  | _, _ => false
  end.

(** Truthiness of an optional string property ([undefined] or a string). *)
Definition truthy_str (o : option string) : bool :=
  match o with
  | Some s => negb (s =? "")%string
  | None => false
  end.

(** [Record<string, any>]: own enumerable properties in enumeration order. *)
Definition JsMap := list (string * Any).

(** Property read [m[key]]: [undefined] when the key is absent. *)
Fixpoint map_get (m : JsMap) (key : string) : Any :=
  match m with
  | [] => AUndefined
  | (k, v) :: rest => if (k =? key)%string then v else map_get rest key
  end.

Fixpoint has_key (m : JsMap) (key : string) : bool :=
  match m with
  | [] => false
  | (k, _) :: rest => (k =? key)%string || has_key rest key
  end.

(** Optional chaining [m?.[key]] on a nullable map. *)
Definition opt_get (m : option JsMap) (key : string) : Any :=
  match m with
  | Some m' => map_get m' key
  | None => AUndefined
  end.

Inductive SpanEntityType := agent | workflow | tool | network | step.

Inductive SpanStatus := success | error | running.

Definition SpanEntityType_eqb (a b : SpanEntityType) : bool :=
  match a, b with
  | agent, agent | workflow, workflow | tool, tool
  | network, network | step, step => true
  | _, _ => false
  end.

Definition SpanStatus_eqb (a b : SpanStatus) : bool :=
  match a, b with
  | success, success | error, error | running, running => true
  | _, _ => false
  end.

(** [SpanType] is an enum of string values declared outside these sources;
    the store only compares it for equality. *)
Definition SpanType := string.

(** ** Records *)

(** [UpdateSpanRecord = Omit<CreateSpanRecord, 'spanId' | 'traceId'>]. *)
Record UpdateSpanRecord := {
  parentSpanId : option string;
  name : string;
  scope : option JsMap;
  spanType : SpanType;
  entityType : option SpanEntityType;
  entityId : option string;
  entityName : option string;
  userId : option string;
  organizationId : option string;
  resourceId : option string;
  runId : option string;
  sessionId : option string;
  threadId : option string;
  requestId : option string;
  environment : option string;
  source : option string;
  serviceName : option string;
  deploymentId : option string;
  versionInfo : option JsMap;
  attributes : option JsMap;
  metadata : option JsMap;
  tags : option (list string);
  links : Any;
  input : Any;
  output : Any;
  error_ : Any;
  startedAt : Date;
  endedAt : option Date;
  isEvent : bool
}.

(** [CreateSpanRecord = Omit<SpanRecord, 'createdAt' | 'updatedAt'>].  The
    two identifiers are declared [string]; [validateCreateSpan] exists
    because a caller may still leave them out, so they are optional here. *)
Record CreateSpanRecord := {
  c_traceId : option string;
  c_spanId : option string;
  c_data : UpdateSpanRecord
}.

Record SpanRecord := {
  traceId : string;
  spanId : string;
  data : UpdateSpanRecord;
  createdAt : Date;
  updatedAt : option Date
}.

(** [Partial<UpdateSpanRecord>]: every property may be absent. *)
Record PartialUpdate := {
  u_parentSpanId : option (option string);
  u_name : option string;
  u_scope : option (option JsMap);
  u_spanType : option SpanType;
  u_entityType : option (option SpanEntityType);
  u_entityId : option (option string);
  u_entityName : option (option string);
  u_userId : option (option string);
  u_organizationId : option (option string);
  u_resourceId : option (option string);
  u_runId : option (option string);
  u_sessionId : option (option string);
  u_threadId : option (option string);
  u_requestId : option (option string);
  u_environment : option (option string);
  u_source : option (option string);
  u_serviceName : option (option string);
  u_deploymentId : option (option string);
  u_versionInfo : option (option JsMap);
  u_attributes : option (option JsMap);
  u_metadata : option (option JsMap);
  u_tags : option (option (list string));
  u_links : option Any;
  u_input : option Any;
  u_output : option Any;
  u_error : option Any;
  u_startedAt : option Date;
  u_endedAt : option (option Date);
  u_isEvent : option bool
}.

(** The filters of [TracesPaginatedArg] as the store reads them. *)
Record TracesFilter := {
  f_spanType : option SpanType;
  f_entityType : option SpanEntityType;
  f_entityId : option string;
  f_entityName : option string;
  f_status : option SpanStatus;
  f_tags : option (list string);
  f_userId : option string;
  f_organizationId : option string;
  f_resourceId : option string;
  f_runId : option string;
  f_sessionId : option string;
  f_threadId : option string;
  f_requestId : option string;
  f_environment : option string;
  f_source : option string;
  f_serviceName : option string;
  f_deploymentId : option string;
  f_metadata : option JsMap;
  f_scope : option JsMap;
  f_versionInfo : option JsMap
}.

Record DateRange := {
  dr_start : option Date;
  dr_end : option Date
}.

Record PaginationArgs := {
  dateRange : option DateRange;
  page : option Z;
  perPage : option Z
}.

Record TracesPaginatedArg := {
  filters : option TracesFilter;
  pagination : option PaginationArgs
}.

Record PaginationInfo := {
  total : Z;
  pi_page : Z;
  pi_perPage : Z;
  hasMore : bool
}.

Record TraceRecord := {
  tr_traceId : string;
  tr_spans : list SpanRecord
}.

Record MastraError := {
  err_id : string;
  err_domain : string;
  err_category : string;
  err_text : string
}.

(** ** The collection: a JavaScript [Map<string, SpanRecord>]

    A [Map] iterates in insertion order; [set] on a key already present
    keeps the key's position and replaces its value. *)
Definition InMemoryObservability := list (string * SpanRecord).

Fixpoint Map_get (c : InMemoryObservability) (id : string) : option SpanRecord :=
  match c with
  | [] => None
  | (k, v) :: rest => if (k =? id)%string then Some v else Map_get rest id
  end.

Fixpoint Map_set (c : InMemoryObservability) (id : string) (r : SpanRecord)
  : InMemoryObservability :=
  match c with
  | [] => [(id, r)]
  | (k, v) :: rest =>
      if (k =? id)%string then (k, r) :: rest else (k, v) :: Map_set rest id r
  end.

Fixpoint Map_delete (c : InMemoryObservability) (id : string)
  : InMemoryObservability :=
  match c with
  | [] => []
  | (k, v) :: rest =>
      if (k =? id)%string then rest else (k, v) :: Map_delete rest id
  end.

Definition Map_values (c : InMemoryObservability) : list SpanRecord :=
  map snd c.

(** ** Effects: the collection is threaded through every method; a method
    either returns or throws a [MastraError]. *)
Inductive Outcome (A : Type) :=
| Returned (a : A)
| Thrown (e : MastraError).
Arguments Returned {A} a.
Arguments Thrown {A} e.

Definition M (A : Type) := InMemoryObservability -> Outcome A * InMemoryObservability.

Definition ret {A} (a : A) : M A := fun c => (Returned a, c).
Definition throw {A} (e : MastraError) : M A := fun c => (Thrown e, c).
Definition bind {A B} (m : M A) (k : A -> M B) : M B :=
  fun c =>
    match m c with
    | (Returned a, c') => k a c'
    | (Thrown e, c') => (Thrown e, c')
    end.
Definition read_collection : M InMemoryObservability := fun c => (Returned c, c).
Definition write_collection (c' : InMemoryObservability) : M unit :=
  fun _ => (Returned tt, c').

Notation "x <- m ;; k" := (bind m (fun x => k))
  (at level 61, m at next level, right associativity).
Notation "m ;;; k" := (bind m (fun _ => k))
  (at level 61, right associativity).

Definition domain_observability := "MASTRA_OBSERVABILITY".
Definition category_system := "SYSTEM".

Definition span_id_required : MastraError :=
  {| err_id := "OBSERVABILITY_SPAN_ID_REQUIRED";
     err_domain := domain_observability;
     err_category := category_system;
     err_text := "Span ID is required for creating a span" |}.

Definition trace_id_required : MastraError :=
  {| err_id := "OBSERVABILITY_TRACE_ID_REQUIRED";
     err_domain := domain_observability;
     err_category := category_system;
     err_text := "Trace ID is required for creating a span" |}.

Definition update_span_not_found : MastraError :=
  {| err_id := "OBSERVABILITY_UPDATE_SPAN_NOT_FOUND";
     err_domain := domain_observability;
     err_category := category_system;
     err_text := "Span not found for update" |}.

(** ** Methods *)

(** String interpolation of an identifier that may be [undefined]. *)
Definition id_text (o : option string) : string :=
  match o with
  | Some s => s
  | None => "undefined"
  end.

(** [generateId]: the template literal [`${traceId}-${spanId}`]. *)
Definition generateId (traceId spanId : string) : string :=
  traceId ++ "-" ++ spanId.

Definition validateCreateSpan (record : CreateSpanRecord) : M unit :=
  if negb (truthy_str (c_spanId record)) then throw span_id_required
  else if negb (truthy_str (c_traceId record)) then throw trace_id_required
  else ret tt.

(** [createSpan]; [now] is the value of [new Date()]. *)
Definition createSpan (now : Date) (span : CreateSpanRecord) : M unit :=
  validateCreateSpan span ;;;
  let id := generateId (id_text (c_traceId span)) (id_text (c_spanId span)) in
  let record :=
    {| traceId := id_text (c_traceId span);
       spanId := id_text (c_spanId span);
       data := c_data span;
       createdAt := now;
       updatedAt := Some now |} in
  c <- read_collection ;;
  write_collection (Map_set c id record).

(** [batchCreateSpans]: each record is paired with the clock reading its
    [createSpan] call observes.  A throw leaves the loop; what was written
    before stays written. *)
Fixpoint batchCreateSpans (records : list (Date * CreateSpanRecord)) : M unit :=
  match records with
  | [] => ret tt
  | (now, record) :: rest => createSpan now record ;;; batchCreateSpans rest
  end.

(** [getTrace]; [spans.sort] by [startedAt] is a stable sort. *)
Fixpoint insert_by_startedAt (s : SpanRecord) (l : list SpanRecord) : list SpanRecord :=
  match l with
  | [] => [s]
  | x :: rest =>
      if startedAt (data x) <=? startedAt (data s)
      then x :: insert_by_startedAt s rest
      else s :: x :: rest
  end.

Definition sort_by_startedAt (l : list SpanRecord) : list SpanRecord :=
  fold_right (fun s acc => insert_by_startedAt s acc) [] (rev l).

Definition getTrace (traceId_ : string) : M (option TraceRecord) :=
  c <- read_collection ;;
  let spans := filter (fun s => (traceId s =? traceId_)%string) (Map_values c) in
  match spans with
  | [] => ret None
  | _ => ret (Some {| tr_traceId := traceId_; tr_spans := sort_by_startedAt spans |})
  end.

Definition filterForRootSpans (spans : list SpanRecord) : list SpanRecord :=
  filter (fun s => match parentSpanId (data s) with None => true | Some _ => false end) spans.

Definition filterSpansByDate (spans : list SpanRecord)
  (startDate endDate : option Date) : list SpanRecord :=
  filter (fun s =>
    if match startDate with
       | Some d => startedAt (data s) <? d
       | None => false
       end then false
    else if match endDate with
            | Some d => d <? startedAt (data s)
            | None => false
            end then false
    else true) spans.

(** [getSpanStatus] of the storage types. *)
Definition getSpanStatus (err : Any) (ended : option Date) : SpanStatus :=
  if truthy err then error
  else match ended with
       | None => running
       | Some _ => success
       end.

(** [filter?.key && span.key !== filter.key] for a string-valued key. *)
Definition rejects_str (f : option string) (v : option string) : bool :=
  match f with
  | Some x =>
      negb (x =? "")%string &&
      negb match v with
           | Some y => (y =? x)%string
           | None => false
           end
  | None => false
  end.

(** The loop [for (const [key, value] of Object.entries(m)) if
    (spanMap?.[key] !== value) return false]: [true] when it runs to its end. *)
Definition jsonb_matches (m : JsMap) (spanMap : option JsMap) : bool :=
  forallb (fun kv => strict_eq (opt_get spanMap (fst kv)) (snd kv)) m.

Definition span_passes_filter (filter_ : option TracesFilter) (span : SpanRecord) : bool :=
  match filter_ with
  | None => true
  | Some f =>
      let d := data span in
      if truthy_str (f_spanType f) && negb (spanType d =? id_text (f_spanType f))%string
      then false
      else if match f_entityType f with
              | Some t =>
                  negb match entityType d with
                       | Some t' => SpanEntityType_eqb t' t
                       | None => false
                       end
              | None => false
              end then false
      else if rejects_str (f_entityId f) (entityId d) then false
      else if rejects_str (f_entityName f) (entityName d) then false
      else if match f_status f with
              | Some st =>
                  let derivedStatus :=
                    if truthy (error_ d) then error
                    else match endedAt d with
                         | None => running
                         | Some _ => success
                         end in
                  negb (SpanStatus_eqb derivedStatus st)
              | None => false
              end then false
      else if rejects_str (f_userId f) (userId d) then false
      else if rejects_str (f_organizationId f) (organizationId d) then false
      else if rejects_str (f_resourceId f) (resourceId d) then false
      else if rejects_str (f_runId f) (runId d) then false
      else if rejects_str (f_sessionId f) (sessionId d) then false
      else if rejects_str (f_threadId f) (threadId d) then false
      else if rejects_str (f_requestId f) (requestId d) then false
      else if rejects_str (f_environment f) (environment d) then false
      else if rejects_str (f_source f) (source d) then false
      else if rejects_str (f_serviceName f) (serviceName d) then false
      else if rejects_str (f_deploymentId f) (deploymentId d) then false
      else if match f_tags f with
              | Some ftags =>
                  (0 <? Z.of_nat (List.length ftags)) &&
                  match tags d with
                  | None => true
                  | Some stags =>
                      negb (existsb (fun tag =>
                              existsb (fun t => (t =? tag)%string) stags) ftags)
                  end
              | None => false
              end then false
      else if match f_metadata f with
              | Some m => negb (jsonb_matches m (metadata d))
              | None => false
              end then false
      else if match f_scope f with
              | Some m => negb (jsonb_matches m (scope d))
              | None => false
              end then false
      else if match f_versionInfo f with
              | Some m => negb (jsonb_matches m (versionInfo d))
              | None => false
              end then false
      else true
  end.

Definition filterSpansByFilter (spans : list SpanRecord)
  (filter_ : option TracesFilter) : list SpanRecord :=
  filter (span_passes_filter filter_) spans.

(** [Array.prototype.slice(start, end)]: a negative index counts from the
    end of the array. *)
Definition slice_index (len i : Z) : Z :=
  if i <? 0 then Z.max (len + i) 0 else Z.min i len.

Definition slice {A} (l : list A) (start end_ : Z) : list A :=
  let len := Z.of_nat (List.length l) in
  let k := slice_index len start in
  let final := slice_index len end_ in
  firstn (Z.to_nat (Z.max (final - k) 0)) (skipn (Z.to_nat k) l).

(** [x ?? d]. *)
Definition nullish {A} (o : option A) (d : A) : A :=
  match o with
  | Some a => a
  | None => d
  end.

(** [pagination?.key]. *)
Definition opt_field {A B} (o : option A) (f : A -> option B) : option B :=
  match o with
  | Some a => f a
  | None => None
  end.

Definition filterSpansByPagination (spans : list SpanRecord)
  (pagination_ : option PaginationArgs) : list SpanRecord :=
  let page_ := nullish (opt_field pagination_ page) 0 in
  let perPage_ := nullish (opt_field pagination_ perPage) 10 in
  let start := page_ * perPage_ in
  let end_ := start + perPage_ in
  slice spans start end_.

Definition getTracesPaginated (arg : TracesPaginatedArg)
  : M (PaginationInfo * list SpanRecord) :=
  c <- read_collection ;;
  let allRootSpans := filterForRootSpans (Map_values c) in
  let filteredRootSpans := filterSpansByFilter allRootSpans (filters arg) in
  let startDate := opt_field (opt_field (pagination arg) dateRange) dr_start in
  let endDate := opt_field (opt_field (pagination arg) dateRange) dr_end in
  let filteredRootSpansByDate := filterSpansByDate filteredRootSpans startDate endDate in
  let total_ := Z.of_nat (List.length filteredRootSpansByDate) in
  let page_ := nullish (opt_field (pagination arg) page) 0 in
  let perPage_ := nullish (opt_field (pagination arg) perPage) 10 in
  let start := page_ * perPage_ in
  let end_ := start + perPage_ in
  let paged := filterSpansByPagination filteredRootSpansByDate (pagination arg) in
  ret ({| total := total_; pi_page := page_; pi_perPage := perPage_;
          hasMore := end_ <? total_ |}, paged).

(** The root spans that remain after the filters and the date range: what
    [getTracesPaginated] counts in [total] and then slices. *)
Definition matching_root_spans (arg : TracesPaginatedArg) (c : InMemoryObservability)
  : list SpanRecord :=
  filterSpansByDate
    (filterSpansByFilter (filterForRootSpans (Map_values c)) (filters arg))
    (opt_field (opt_field (pagination arg) dateRange) dr_start)
    (opt_field (opt_field (pagination arg) dateRange) dr_end).

(** [{ ...span, ...updates }] on one property. *)
Definition spread {A} (u : option A) (old : A) : A :=
  match u with
  | Some v => v
  | None => old
  end.

Definition merge_updates (d : UpdateSpanRecord) (u : PartialUpdate) : UpdateSpanRecord :=
  {| parentSpanId := spread (u_parentSpanId u) (parentSpanId d);
     name := spread (u_name u) (name d);
     scope := spread (u_scope u) (scope d);
     spanType := spread (u_spanType u) (spanType d);
     entityType := spread (u_entityType u) (entityType d);
     entityId := spread (u_entityId u) (entityId d);
     entityName := spread (u_entityName u) (entityName d);
     userId := spread (u_userId u) (userId d);
     organizationId := spread (u_organizationId u) (organizationId d);
     resourceId := spread (u_resourceId u) (resourceId d);
     runId := spread (u_runId u) (runId d);
     sessionId := spread (u_sessionId u) (sessionId d);
     threadId := spread (u_threadId u) (threadId d);
     requestId := spread (u_requestId u) (requestId d);
     environment := spread (u_environment u) (environment d);
     source := spread (u_source u) (source d);
     serviceName := spread (u_serviceName u) (serviceName d);
     deploymentId := spread (u_deploymentId u) (deploymentId d);
     versionInfo := spread (u_versionInfo u) (versionInfo d);
     attributes := spread (u_attributes u) (attributes d);
     metadata := spread (u_metadata u) (metadata d);
     tags := spread (u_tags u) (tags d);
     links := spread (u_links u) (links d);
     input := spread (u_input u) (input d);
     output := spread (u_output u) (output d);
     error_ := spread (u_error u) (error_ d);
     startedAt := spread (u_startedAt u) (startedAt d);
     endedAt := spread (u_endedAt u) (endedAt d);
     isEvent := spread (u_isEvent u) (isEvent d) |}.

Record UpdateParams := {
  p_spanId : string;
  p_traceId : string;
  p_updates : PartialUpdate
}.

(** [updateSpan]; [now] is the value of [new Date()]. *)
Definition updateSpan (now : Date) (params : UpdateParams) : M unit :=
  let id := generateId (p_traceId params) (p_spanId params) in
  c <- read_collection ;;
  match Map_get c id with
  | None => throw update_span_not_found
  | Some span =>
      write_collection
        (Map_set c id
           {| traceId := traceId span;
              spanId := spanId span;
              data := merge_updates (data span) (p_updates params);
              createdAt := createdAt span;
              updatedAt := Some now |})
  end.

Fixpoint batchUpdateSpans (records : list (Date * UpdateParams)) : M unit :=
  match records with
  | [] => ret tt
  | (now, record) :: rest => updateSpan now record ;;; batchUpdateSpans rest
  end.

Definition delete_spans (spans : list SpanRecord) (c : InMemoryObservability)
  : InMemoryObservability :=
  fold_left (fun acc span => Map_delete acc (generateId (traceId span) (spanId span)))
            spans c.

Fixpoint batchDeleteTraces (traceIds : list string) : M unit :=
  match traceIds with
  | [] => ret tt
  | traceId_ :: rest =>
      c <- read_collection ;;
      let spans := filter (fun s => (traceId s =? traceId_)%string) (Map_values c) in
      write_collection (delete_spans spans c) ;;;
      batchDeleteTraces rest
  end.

(** The mutating methods as commands, for reasoning about call sequences. *)
Inductive Op :=
| OpCreateSpan (now : Date) (span : CreateSpanRecord)
| OpBatchCreateSpans (records : list (Date * CreateSpanRecord))
| OpUpdateSpan (now : Date) (params : UpdateParams)
| OpBatchUpdateSpans (records : list (Date * UpdateParams))
| OpBatchDeleteTraces (traceIds : list string).

Definition run_op (op : Op) : M unit :=
  match op with
  | OpCreateSpan now span => createSpan now span
  | OpBatchCreateSpans records => batchCreateSpans records
  | OpUpdateSpan now params => updateSpan now params
  | OpBatchUpdateSpans records => batchUpdateSpans records
  | OpBatchDeleteTraces traceIds => batchDeleteTraces traceIds
  end.

(** A call sequence; a throwing call is caught by the caller and the next
    call sees the collection as the throwing call left it. *)
Definition run_ops (ops : list Op) (c : InMemoryObservability) : InMemoryObservability :=
  fold_left (fun acc op => snd (run_op op acc)) ops c.

(** ** Vocabulary of the specification *)

(** The derived status as the specification words it: ["error"] when
    [error != null], else ["running"] when [endedAt == null], else
    ["success"]. *)
Definition is_nullish (v : Any) : bool :=
  match v with
  | AUndefined | ANull => true
  | _ => false
  end.

Definition spec_derivedStatus (err : Any) (ended : option Date) : SpanStatus :=
  if negb (is_nullish err) then error
  else match ended with
       | None => running
       | Some _ => success
       end.

(** An identifier is missing when it is [undefined] or the empty string:
    the values [!id] holds for. *)
Definition id_missing (o : option string) : Prop :=
  o = None \/ o = Some "".

(** The subset match as the specification words it: the span's map contains
    every requested key with an exactly-equal value. *)
Definition spec_subset_match (m : JsMap) (spanMap : option JsMap) : Prop :=
  forall k v, In (k, v) m ->
    exists sm, spanMap = Some sm /\ has_key sm k = true /\ strict_eq (map_get sm k) v = true.

(** A record for the pair [(t, s)] is held by the collection. *)
Definition holds_pair (c : InMemoryObservability) (t s : string) : Prop :=
  exists r, In r (Map_values c) /\ traceId r = t /\ spanId r = s.

End Store.

(** Sample data used in the worked examples and scenarios below. *)
Module StoreSamples.
Import Store.

Definition blank_data : UpdateSpanRecord :=
  {| parentSpanId := None; name := "span"; scope := None; spanType := "agent_run";
     entityType := None; entityId := None; entityName := None;
     userId := None; organizationId := None; resourceId := None;
     runId := None; sessionId := None; threadId := None; requestId := None;
     environment := None; source := None; serviceName := None;
     deploymentId := None; versionInfo := None; attributes := None;
     metadata := None; tags := None;
     links := ANull; input := ANull; output := ANull; error_ := ANull;
     startedAt := 1000; endedAt := None; isEvent := false |}.

Definition with_tags (d : UpdateSpanRecord) (t : option (list string)) : UpdateSpanRecord :=
  merge_updates d
    {| u_parentSpanId := None; u_name := None; u_scope := None; u_spanType := None;
       u_entityType := None; u_entityId := None; u_entityName := None;
       u_userId := None; u_organizationId := None; u_resourceId := None;
       u_runId := None; u_sessionId := None; u_threadId := None; u_requestId := None;
       u_environment := None; u_source := None; u_serviceName := None;
       u_deploymentId := None; u_versionInfo := None; u_attributes := None;
       u_metadata := None; u_tags := Some t; u_links := None; u_input := None;
       u_output := None; u_error := None; u_startedAt := None; u_endedAt := None;
       u_isEvent := None |}.

Definition no_updates : PartialUpdate :=
  {| u_parentSpanId := None; u_name := None; u_scope := None; u_spanType := None;
     u_entityType := None; u_entityId := None; u_entityName := None;
     u_userId := None; u_organizationId := None; u_resourceId := None;
     u_runId := None; u_sessionId := None; u_threadId := None; u_requestId := None;
     u_environment := None; u_source := None; u_serviceName := None;
     u_deploymentId := None; u_versionInfo := None; u_attributes := None;
     u_metadata := None; u_tags := None; u_links := None; u_input := None;
     u_output := None; u_error := None; u_startedAt := None; u_endedAt := None;
     u_isEvent := None |}.

Definition with_metadata (d : UpdateSpanRecord) (m : option JsMap) : UpdateSpanRecord :=
  merge_updates d
    {| u_parentSpanId := None; u_name := None; u_scope := None; u_spanType := None;
       u_entityType := None; u_entityId := None; u_entityName := None;
       u_userId := None; u_organizationId := None; u_resourceId := None;
       u_runId := None; u_sessionId := None; u_threadId := None; u_requestId := None;
       u_environment := None; u_source := None; u_serviceName := None;
       u_deploymentId := None; u_versionInfo := None; u_attributes := None;
       u_metadata := Some m; u_tags := None; u_links := None; u_input := None;
       u_output := None; u_error := None; u_startedAt := None; u_endedAt := None;
       u_isEvent := None |}.

Definition with_error (d : UpdateSpanRecord) (e : Any) : UpdateSpanRecord :=
  merge_updates d
    {| u_parentSpanId := None; u_name := None; u_scope := None; u_spanType := None;
       u_entityType := None; u_entityId := None; u_entityName := None;
       u_userId := None; u_organizationId := None; u_resourceId := None;
       u_runId := None; u_sessionId := None; u_threadId := None; u_requestId := None;
       u_environment := None; u_source := None; u_serviceName := None;
       u_deploymentId := None; u_versionInfo := None; u_attributes := None;
       u_metadata := None; u_tags := None; u_links := None; u_input := None;
       u_output := None; u_error := Some e; u_startedAt := None; u_endedAt := None;
       u_isEvent := None |}.

Definition root_span (t s : string) (d : UpdateSpanRecord) : SpanRecord :=
  {| traceId := t; spanId := s; data := d; createdAt := 1000; updatedAt := Some 1000 |}.

Definition stored (r : SpanRecord) : string * SpanRecord :=
  (generateId (traceId r) (spanId r), r).

Definition no_filter : TracesFilter :=
  {| f_spanType := None; f_entityType := None; f_entityId := None;
     f_entityName := None; f_status := None; f_tags := None; f_userId := None;
     f_organizationId := None; f_resourceId := None; f_runId := None;
     f_sessionId := None; f_threadId := None; f_requestId := None;
     f_environment := None; f_source := None; f_serviceName := None;
     f_deploymentId := None; f_metadata := None; f_scope := None;
     f_versionInfo := None |}.

(** A filter that sets [status] only. *)
Definition status_filter (st : SpanStatus) : TracesFilter :=
  {| f_spanType := None; f_entityType := None; f_entityId := None;
     f_entityName := None; f_status := Some st; f_tags := None; f_userId := None;
     f_organizationId := None; f_resourceId := None; f_runId := None;
     f_sessionId := None; f_threadId := None; f_requestId := None;
     f_environment := None; f_source := None; f_serviceName := None;
     f_deploymentId := None; f_metadata := None; f_scope := None;
     f_versionInfo := None |}.

(** A filter that sets [tags] only. *)
Definition tags_filter (t : list string) : TracesFilter :=
  {| f_spanType := None; f_entityType := None; f_entityId := None;
     f_entityName := None; f_status := None; f_tags := Some t; f_userId := None;
     f_organizationId := None; f_resourceId := None; f_runId := None;
     f_sessionId := None; f_threadId := None; f_requestId := None;
     f_environment := None; f_source := None; f_serviceName := None;
     f_deploymentId := None; f_metadata := None; f_scope := None;
     f_versionInfo := None |}.

(** Filters that set one of the key/value maps only. *)
Definition metadata_filter (m : JsMap) : TracesFilter :=
  {| f_spanType := None; f_entityType := None; f_entityId := None;
     f_entityName := None; f_status := None; f_tags := None; f_userId := None;
     f_organizationId := None; f_resourceId := None; f_runId := None;
     f_sessionId := None; f_threadId := None; f_requestId := None;
     f_environment := None; f_source := None; f_serviceName := None;
     f_deploymentId := None; f_metadata := Some m; f_scope := None;
     f_versionInfo := None |}.

Definition scope_filter (m : JsMap) : TracesFilter :=
  {| f_spanType := None; f_entityType := None; f_entityId := None;
     f_entityName := None; f_status := None; f_tags := None; f_userId := None;
     f_organizationId := None; f_resourceId := None; f_runId := None;
     f_sessionId := None; f_threadId := None; f_requestId := None;
     f_environment := None; f_source := None; f_serviceName := None;
     f_deploymentId := None; f_metadata := None; f_scope := Some m;
     f_versionInfo := None |}.

Definition versionInfo_filter (m : JsMap) : TracesFilter :=
  {| f_spanType := None; f_entityType := None; f_entityId := None;
     f_entityName := None; f_status := None; f_tags := None; f_userId := None;
     f_organizationId := None; f_resourceId := None; f_runId := None;
     f_sessionId := None; f_threadId := None; f_requestId := None;
     f_environment := None; f_source := None; f_serviceName := None;
     f_deploymentId := None; f_metadata := None; f_scope := None;
     f_versionInfo := Some m |}.

Definition query (f : TracesFilter) : TracesPaginatedArg :=
  {| filters := Some f; pagination := None |}.

End StoreSamples.

(* ===================================================================== *)
(** * JavaScript values, strings, numbers and dates *)
(* ===================================================================== *)

Module Js.

(** Values the codec handles dynamically: what [qs] reads and produces and
    what a [Record<string, unknown>] may hold.  Numbers are exact (binary64
    rounding, [NaN] and [-0] as property values are not modelled); objects
    list their own properties in enumeration order. *)
Inductive JsVal : Type :=
| JUndefined
| JNull
| JBool (b : bool)
| JNum (n : Z)
| JStr (s : string)
| JArr (items : list JsVal)
| JObj (props : list (string * JsVal)).

Definition JsObject := list (string * JsVal).

(** [obj[key]]: [undefined] when [obj] has no such property. *)
Fixpoint get (obj : JsObject) (key : string) : JsVal :=
  match obj with
  | [] => JUndefined
  | (k, v) :: rest => if (k =? key)%string then v else get rest key
  end.

(** [Object.prototype.hasOwnProperty.call(obj, key)]. *)
Fixpoint has (obj : JsObject) (key : string) : bool :=
  match obj with
  | [] => false
  | (k, _) :: rest => (k =? key)%string || has rest key
  end.

(** [obj[key] = v]: an existing property keeps its place. *)
Fixpoint set (obj : JsObject) (key : string) (v : JsVal) : JsObject :=
  match obj with
  | [] => [(key, v)]
  | (k, w) :: rest =>
      if (k =? key)%string then (k, v) :: rest else (k, w) :: set rest key v
  end.

Definition is_undefined (v : JsVal) : bool :=
  match v with
  | JUndefined => true
  | _ => false
  end.

Definition is_null (v : JsVal) : bool :=
  match v with
  | JNull => true
  | _ => false
  end.

(** ** Strings *)

Fixpoint join (sep : string) (l : list string) : string :=
  match l with
  | [] => ""
  | [x] => x
  | x :: rest => x ++ sep ++ join sep rest
  end.

(** [s.split(c)] for a one-character separator. *)
Fixpoint split (c : ascii) (s : string) : list string :=
  match s with
  | EmptyString => [""]
  | String a rest =>
      if Ascii.eqb a c then "" :: split c rest
      else match split c rest with
           | [] => [String a ""]
           | x :: xs => String a x :: xs
           end
  end.

Fixpoint take (n : nat) (s : string) : string :=
  match n, s with
  | S n', String a rest => String a (take n' rest)
  | _, _ => ""
  end.

Fixpoint drop (n : nat) (s : string) : string :=
  match n, s with
  | S n', String _ rest => drop n' rest
  | _, _ => s
  end.

(** [hay.indexOf(needle)], counted from [i]. *)
Fixpoint indexOf_from (needle hay : string) (i : nat) : option nat :=
  if String.prefix needle hay then Some i
  else match hay with
       | EmptyString => None
       | String _ rest => indexOf_from needle rest (S i)
       end.

Definition indexOf (needle hay : string) : option nat := indexOf_from needle hay 0.

(** Every character of [s] satisfies [P]. *)
Fixpoint all_chars (P : ascii -> bool) (s : string) : bool :=
  match s with
  | EmptyString => true
  | String c rest => P c && all_chars P rest
  end.

(** The character [c] does not occur in [s]. *)
Definition lacks (c : ascii) (s : string) : bool :=
  all_chars (fun a => negb (Ascii.eqb a c)) s.

(** ** Numbers *)

(** [String(n)] for an integral number (below 10^21 in magnitude, where
    JavaScript prints plain decimal digits). *)
Definition Number_toString (n : Z) : string :=
  match n with
  | Z0 => "0"
  | Zpos p => DecimalString.NilEmpty.string_of_uint (Pos.to_uint p)
  | Zneg p => "-" ++ DecimalString.NilEmpty.string_of_uint (Pos.to_uint p)
  end.

(** The result of [Number(s)]: an integer, a finite non-integer (only its
    floor matters to the schema's comparisons), an infinity, or [NaN]. *)
Inductive JsNumber :=
| NInt (z : Z)
| NFrac (floor : Z)
| NInf (neg : bool)
| NNaN.

Definition is_digit (c : ascii) : bool :=
  let n := nat_of_ascii c in (48 <=? n)%nat && (n <=? 57)%nat.

(** ASCII white space and line terminators ([StrWhiteSpaceChar]). *)
Definition is_space (c : ascii) : bool :=
  let n := nat_of_ascii c in
  ((9 <=? n)%nat && (n <=? 13)%nat) || (n =? 32)%nat.

Fixpoint trim_start (s : string) : string :=
  match s with
  | String a rest => if is_space a then trim_start rest else s
  | EmptyString => s
  end.

Definition string_rev (s : string) : string :=
  string_of_list_ascii (rev (list_ascii_of_string s)).

Definition trim (s : string) : string :=
  string_rev (trim_start (string_rev (trim_start s))).

(** The longest prefix of digits, and what follows it. *)
Fixpoint span_digits (s : string) : string * string :=
  match s with
  | String a rest =>
      if is_digit a
      then let (d, r) := span_digits rest in (String a d, r)
      else ("", s)
  | EmptyString => ("", "")
  end.

(** The value of a string of decimal digits. *)
Definition digits_value (d : string) : Z :=
  match DecimalString.NilEmpty.uint_of_string d with
  | Some u => Z.of_N (N.of_uint u)
  | None => 0
  end.

Definition digit_of_base (base : nat) (c : ascii) : option Z :=
  let n := nat_of_ascii c in
  let v :=
    if (48 <=? n)%nat && (n <=? 57)%nat then Some (n - 48)%nat
    else if (97 <=? n)%nat && (n <=? 102)%nat then Some (n - 87)%nat
    else if (65 <=? n)%nat && (n <=? 70)%nat then Some (n - 55)%nat
    else None in
  match v with
  | Some d => if (d <? base)%nat then Some (Z.of_nat d) else None
  | None => None
  end.

Fixpoint radix_value (base : nat) (s : string) (acc : Z) : option Z :=
  match s with
  | EmptyString => Some acc
  | String a rest =>
      match digit_of_base base a with
      | Some d => radix_value base rest (acc * Z.of_nat base + d)
      | None => None
      end
  end.

(** [0x..], [0o..], [0b..] (no sign, at least one digit). *)
Definition non_decimal_literal (s : string) : option Z :=
  match s with
  | String "0" (String x rest) =>
      let base :=
        if Ascii.eqb x "x" || Ascii.eqb x "X" then Some 16%nat
        else if Ascii.eqb x "o" || Ascii.eqb x "O" then Some 8%nat
        else if Ascii.eqb x "b" || Ascii.eqb x "B" then Some 2%nat
        else None in
      match base, rest with
      | Some b, String _ _ => radix_value b rest 0
      | _, _ => None
      end
  | _ => None
  end.

(** [e] or [E], an optional sign, and at least one digit; nothing after. *)
Definition exponent_part (s : string) : option Z :=
  match s with
  | EmptyString => Some 0
  | String e rest =>
      if Ascii.eqb e "e" || Ascii.eqb e "E" then
        let (neg, body) :=
          match rest with
          | String "-" r => (true, r)
          | String "+" r => (false, r)
          | _ => (false, rest)
          end in
        let (d, r) := span_digits body in
        match d, r with
        | String _ _, EmptyString =>
            Some (if neg then - digits_value d else digits_value d)
        | _, _ => None
        end
      else None
  end.

(** The number [m * 10^k] for a mantissa [m >= 0], negated when [neg]. *)
Definition scaled (neg : bool) (m k : Z) : JsNumber :=
  if 0 <=? k then NInt (if neg then - (m * 10 ^ k) else m * 10 ^ k)
  else
    let d := 10 ^ (- k) in
    if m mod d =? 0 then NInt (if neg then - (m / d) else m / d)
    else NFrac (if neg then - (m / d) - 1 else m / d).

(** [StrDecimalLiteral] without its sign. *)
Definition unsigned_decimal (neg : bool) (s : string) : JsNumber :=
  if (s =? "Infinity")%string then NInf neg
  else
    let (ip, r1) := span_digits s in
    let (fp, r2) :=
      match r1 with
      | String "." r => span_digits r
      | _ => ("", r1)
      end in
    match ip, fp with
    | EmptyString, EmptyString => NNaN
    | _, _ =>
        match exponent_part r2 with
        | Some e =>
            scaled neg (digits_value (ip ++ fp)) (e - Z.of_nat (String.length fp))
        | None => NNaN
        end
    end.

(** [Number(s)] for a string ([StringToNumber]). *)
Definition StringToNumber (s : string) : JsNumber :=
  let t := trim s in
  match t with
  | EmptyString => NInt 0
  | String "-" r => unsigned_decimal true r
  | String "+" r => unsigned_decimal false r
  | _ =>
      match non_decimal_literal t with
      | Some z => NInt z
      | None => unsigned_decimal false t
      end
  end.

(** [parseInt(s, 10)]: leading white space, an optional sign, then the
    longest run of digits; [None] is [NaN]. *)
Definition parseInt10 (s : string) : option Z :=
  let t := trim_start s in
  let (neg, body) :=
    match t with
    | String "-" r => (true, r)
    | String "+" r => (false, r)
    | _ => (false, t)
    end in
  match fst (span_digits body) with
  | EmptyString => None
  | d => Some (if neg then - digits_value d else digits_value d)
  end.

(** [String(v)] ([ToString]); an array joins its elements with commas,
    [null] and [undefined] elements printing as nothing. *)
Fixpoint ToString (v : JsVal) : string :=
  match v with
  | JUndefined => "undefined"
  | JNull => "null"
  | JBool true => "true"
  | JBool false => "false"
  | JNum n => Number_toString n
  | JStr s => s
  | JArr items =>
      join ","
        (map (fun x => match x with
                       | JUndefined | JNull => ""
                       | _ => ToString x
                       end) items)
  | JObj _ => "[object Object]"
  end.

(** [Number(v)] ([ToNumber]). *)
Definition ToNumber (v : JsVal) : JsNumber :=
  match v with
  | JUndefined => NNaN
  | JNull => NInt 0
  | JBool true => NInt 1
  | JBool false => NInt 0
  | JNum n => NInt n
  | JStr s => StringToNumber s
  | JArr _ => StringToNumber (ToString v)
  | JObj _ => NNaN
  end.

(** ** Dates

    [Date.prototype.toISOString] and [Date.parse].  The calendar arithmetic
    is the proleptic Gregorian calendar of ECMAScript ([Day], [TimeWithinDay],
    [YearFromTime], [MonthFromTime], [DateFromTime], [MakeDay]). *)

Definition msPerDay : Z := 86400000.

(** A time value is valid when at most 8.64e15 in magnitude. *)
Definition valid_time (t : Z) : Prop := - 8640000000000000 <= t <= 8640000000000000.

Definition valid_timeb (t : Z) : bool :=
  (- 8640000000000000 <=? t) && (t <=? 8640000000000000).

(** The civil date (year, month 1..12, day 1..31) of a day number counted
    from 1970-01-01. *)
Definition civil_from_days (days : Z) : Z * Z * Z :=
  let z := days + 719468 in
  let era := z / 146097 in
  let doe := z - era * 146097 in
  let yoe := (doe - doe / 1460 + doe / 36524 - doe / 146096) / 365 in
  let y := yoe + era * 400 in
  let doy := doe - (365 * yoe + yoe / 4 - yoe / 100) in
  let mp := (5 * doy + 2) / 153 in
  let d := doy - (153 * mp + 2) / 5 + 1 in
  let m := if mp <? 10 then mp + 3 else mp - 9 in
  (if m <=? 2 then y + 1 else y, m, d).

(** The day number of a civil date. *)
Definition days_from_civil (y m d : Z) : Z :=
  let y' := if m <=? 2 then y - 1 else y in
  let era := y' / 400 in
  let yoe := y' - era * 400 in
  let doy := (153 * (if 2 <? m then m - 3 else m + 9) + 2) / 5 + d - 1 in
  let doe := yoe * 365 + yoe / 4 - yoe / 100 + doy in
  era * 146097 + doe - 719468.

Definition is_leap (y : Z) : bool :=
  ((y mod 4 =? 0) && negb (y mod 100 =? 0)) || (y mod 400 =? 0).

Definition days_in_month (y m : Z) : Z :=
  if m =? 2 then (if is_leap y then 29 else 28)
  else if (m =? 4) || (m =? 6) || (m =? 9) || (m =? 11) then 30
  else 31.

(** [n] in decimal, left-padded with zeros to [width] digits. *)
Fixpoint pad_digits (width : nat) (n : Z) : string :=
  match width with
  | O => ""
  | S w => pad_digits w (n / 10) ++ String (ascii_of_nat (48 + Z.to_nat (n mod 10))) ""
  end.

(** [toISOString]: [YYYY-MM-DDTHH:mm:ss.sssZ], the year with a sign and six
    digits outside 0..9999. *)
Definition toISOString (t : Z) : string :=
  let days := t / msPerDay in
  let ms := t mod msPerDay in
  let '(y, m, d) := civil_from_days days in
  let year :=
    if (0 <=? y) && (y <=? 9999) then pad_digits 4 y
    else if y <? 0 then "-" ++ pad_digits 6 (- y)
    else "+" ++ pad_digits 6 y in
  year ++ "-" ++ pad_digits 2 m ++ "-" ++ pad_digits 2 d ++ "T"
    ++ pad_digits 2 (ms / 3600000) ++ ":"
    ++ pad_digits 2 (ms / 60000 mod 60) ++ ":"
    ++ pad_digits 2 (ms / 1000 mod 60) ++ "."
    ++ pad_digits 3 (ms mod 1000) ++ "Z".

(** Exactly [width] digits at the head of [s]: their value and the rest. *)
Fixpoint read_digits (width : nat) (s : string) (acc : Z) : option (Z * string) :=
  match width with
  | O => Some (acc, s)
  | S w =>
      match s with
      | String a rest =>
          if is_digit a
          then read_digits w rest (acc * 10 + Z.of_nat (nat_of_ascii a - 48))
          else None
      | EmptyString => None
      end
  end.

(** The literal character [c] at the head of [s]. *)
Definition read_char (c : ascii) (s : string) : option string :=
  match s with
  | String a rest => if Ascii.eqb a c then Some rest else None
  | EmptyString => None
  end.

(** The year of the date-time format: four digits, or a sign and six
    digits ([-000000] is not a year). *)
Definition read_year (s : string) : option (Z * string) :=
  match s with
  | String "+" rest => read_digits 6 rest 0
  | String "-" rest =>
      match read_digits 6 rest 0 with
      | Some (y, r) => if y =? 0 then None else Some (- y, r)
      | None => None
      end
  | _ => read_digits 4 s 0
  end.

(** The complete UTC form [YYYY-MM-DDTHH:mm:ss.sssZ] of the ECMAScript
    date-time string format, with every field in range. *)
Definition parse_iso_utc (s : string) : option Z :=
  match read_year s with
  | Some (y, s1) =>
  match read_char "-" s1 with Some s2 =>
  match read_digits 2 s2 0 with Some (m, s3) =>
  match read_char "-" s3 with Some s4 =>
  match read_digits 2 s4 0 with Some (d, s5) =>
  match read_char "T" s5 with Some s6 =>
  match read_digits 2 s6 0 with Some (hh, s7) =>
  match read_char ":" s7 with Some s8 =>
  match read_digits 2 s8 0 with Some (mm, s9) =>
  match read_char ":" s9 with Some s10 =>
  match read_digits 2 s10 0 with Some (ss, s11) =>
  match read_char "." s11 with Some s12 =>
  match read_digits 3 s12 0 with Some (ms, s13) =>
  match s13 with
  | String "Z" EmptyString =>
      if (1 <=? m) && (m <=? 12) && (1 <=? d) && (d <=? days_in_month y m)
         && (hh <=? 23) && (mm <=? 59) && (ss <=? 59)
      then
        let t := days_from_civil y m d * msPerDay
                 + hh * 3600000 + mm * 60000 + ss * 1000 + ms in
        if valid_timeb t then Some t else None
      else None
  | _ => None
  end
  | None => None end | None => None end | None => None end | None => None end
  | None => None end | None => None end | None => None end | None => None end
  | None => None end | None => None end | None => None end | None => None end
  | None => None
  end.

End Js.

(* ===================================================================== *)
(** * Percent-encoding, as [qs] does it ([utils.encode], [utils.decode]) *)
(* ===================================================================== *)

Module Url.
Import Js.

(** Characters [utils.encode] leaves as they are (RFC 3986 unreserved). *)
Definition unreserved (c : ascii) : bool :=
  let n := nat_of_ascii c in
  (n =? 45)%nat || (n =? 46)%nat || (n =? 95)%nat || (n =? 126)%nat
  || ((48 <=? n)%nat && (n <=? 57)%nat)
  || ((65 <=? n)%nat && (n <=? 90)%nat)
  || ((97 <=? n)%nat && (n <=? 122)%nat).

Definition hex_char (n : nat) : ascii :=
  if (n <? 10)%nat then ascii_of_nat (48 + n) else ascii_of_nat (55 + n).

(** [hexTable[c]]: ["%"] and two upper-case hexadecimal digits. *)
Definition hexTable (c : ascii) : string :=
  let n := nat_of_ascii c in
  String "%" (String (hex_char (n / 16)) (String (hex_char (n mod 16)) "")).

(** A character [utils.encode] may emit: unreserved, or ["%"]. *)
Definition emitted (c : ascii) : bool := unreserved c || Ascii.eqb c "%".

(** [utils.encode] on the UTF-8 bytes of the string. *)
Fixpoint encode (s : string) : string :=
  match s with
  | EmptyString => ""
  | String c rest =>
      if unreserved c then String c (encode rest) else hexTable c ++ encode rest
  end.

Definition hex_value (c : ascii) : option nat :=
  let n := nat_of_ascii c in
  if (48 <=? n)%nat && (n <=? 57)%nat then Some (n - 48)%nat
  else if (65 <=? n)%nat && (n <=? 70)%nat then Some (n - 55)%nat
  else if (97 <=? n)%nat && (n <=? 102)%nat then Some (n - 87)%nat
  else None.

(** [decodeURIComponent], bytewise: [None] when a ["%"] is not followed by
    two hexadecimal digits (a [URIError]).  That the decoded bytes form
    well-formed UTF-8 is not checked. *)
Fixpoint decodeURIComponent (s : string) : option string :=
  match s with
  | EmptyString => Some ""
  | String c rest =>
      if Ascii.eqb c "%" then
        match rest with
        | String h (String l rest') =>
            match hex_value h, hex_value l with
            | Some a, Some b =>
                option_map (String (ascii_of_nat (16 * a + b))) (decodeURIComponent rest')
            | _, _ => None
            end
        | _ => None
        end
      else option_map (String c) (decodeURIComponent rest)
  end.

(** [str.replace(/\+/g, ' ')]. *)
Fixpoint plus_to_space (s : string) : string :=
  match s with
  | EmptyString => ""
  | String c rest => String (if Ascii.eqb c "+" then " "%char else c) (plus_to_space rest)
  end.

(** [utils.decode]: the undecoded text when [decodeURIComponent] throws. *)
Definition decode (s : string) : string :=
  let strWithoutPlus := plus_to_space s in
  match decodeURIComponent strWithoutPlus with
  | Some d => d
  | None => strWithoutPlus
  end.

End Url.

(* ===================================================================== *)
(** * The [qs] library: [qs.stringify] and [qs.parse]

    [qs] 6.x with the options the codec passes: [stringify] with
    [encode: true], [skipNulls: true], [arrayFormat: 'indices']; [parse] with
    [ignoreQueryPrefix: true], [allowDots: false], [depth: 2] and the
    defaults [arrayLimit: 20], [parameterLimit: 1000], [parseArrays: true],
    [allowPrototypes: false], duplicate keys combined. *)
(* ===================================================================== *)

Module Qs.
Import Js Url.

(** ** [qs.stringify] *)

Definition child_key (prefix key : string) : string := prefix ++ "[" ++ key ++ "]".

Definition index_key (prefix : string) (i : nat) : string :=
  child_key prefix (Number_toString (Z.of_nat i)).

(** The loops of the inner [stringify], over that function itself: the
    elements of an array under their indices, the properties of an object
    under their keys; [null] values are skipped ([skipNulls]). *)
Fixpoint each_index (stringify_value : string -> JsVal -> list string)
  (prefix : string) (l : list JsVal) (i : nat) : list string :=
  match l with
  | [] => []
  | x :: rest =>
      ((if is_null x then [] else stringify_value (index_key prefix i) x)
         ++ each_index stringify_value prefix rest (S i))%list
  end.

Fixpoint each_property (stringify_value : string -> JsVal -> list string)
  (prefix : string) (l : list (string * JsVal)) : list string :=
  match l with
  | [] => []
  | (k, x) :: rest =>
      ((if is_null x then [] else stringify_value (child_key prefix k) x)
         ++ each_property stringify_value prefix rest)%list
  end.

(** The inner [stringify(object, prefix, ...)]: the [key=value] pieces of one
    value.  The whole key path is encoded at the leaf. *)
Fixpoint stringify_value (prefix : string) (v : JsVal) : list string :=
  match v with
  | JUndefined => []
  | JNull => [encode prefix ++ "="]
  | JBool _ | JNum _ | JStr _ => [encode prefix ++ "=" ++ encode (ToString v)]
  | JArr items => each_index (fun p x => stringify_value p x) prefix items 0%nat
  | JObj props => each_property (fun p x => stringify_value p x) prefix props
  end.

Definition stringify (obj : JsObject) : string :=
  join "&"
    (flat_map (fun kv => if is_null (snd kv) then []
                         else stringify_value (fst kv) (snd kv)) obj).

(** ** [qs.parse] *)

Definition arrayLimit : Z := 20.
Definition parameterLimit : nat := 1000.
Definition depth : nat := 2.

(** Own property names of [Object.prototype]. *)
Definition prototype_names : list string :=
  ["constructor"; "__defineGetter__"; "__defineSetter__"; "hasOwnProperty";
   "__lookupGetter__"; "__lookupSetter__"; "isPrototypeOf";
   "propertyIsEnumerable"; "toString"; "valueOf"; "__proto__";
   "toLocaleString"].

Definition on_prototype (key : string) : bool :=
  existsb (String.eqb key) prototype_names.

(** [[].concat(v)]: the elements of an array, or the value alone. *)
Definition concat_items (v : JsVal) : list JsVal :=
  match v with
  | JArr items => items
  | _ => [v]
  end.

(** [utils.combine(a, b)]. *)
Definition combine (a b : JsVal) : JsVal := JArr (concat_items a ++ concat_items b)%list.

(** One [part] of the query string: its decoded key and value. *)
Definition parse_part (part : string) : string * JsVal :=
  let pos :=
    match indexOf "]=" part with
    | Some i => Some (S i)
    | None => indexOf "=" part
    end in
  match pos with
  | None => (decode part, JStr "")
  | Some p => (decode (take p part), JStr (decode (drop (S p) part)))
  end.

Fixpoint collect_parts (parts : list string) (obj : JsObject) : JsObject :=
  match parts with
  | [] => obj
  | part :: rest =>
      let (key, val) := parse_part part in
      collect_parts rest
        (if has obj key then set obj key (combine (get obj key) val)
         else set obj key val)
  end.

Definition strip_query_prefix (str : string) : string :=
  match str with
  | String "?" rest => rest
  | _ => str
  end.

(** [parseValues]: the flat object of decoded keys. *)
Definition parseValues (str : string) : JsObject :=
  let cleanStr := strip_query_prefix str in
  let parts := firstn parameterLimit (split "&" cleanStr) in
  collect_parts parts [].

(** The matches of [/(\[[^[\]]*])/g] in [key], in order: where each starts
    and the text between its brackets. *)
Fixpoint bracket_segments (key : string) (pos : nat)
  (open_ : option (nat * string)) : list (nat * string) :=
  match key with
  | EmptyString => []
  | String c rest =>
      if Ascii.eqb c "[" then bracket_segments rest (S pos) (Some (pos, ""))
      else if Ascii.eqb c "]" then
        match open_ with
        | Some seg => seg :: bracket_segments rest (S pos) None
        | None => bracket_segments rest (S pos) None
        end
      else
        match open_ with
        | Some (st, inner) =>
            bracket_segments rest (S pos) (Some (st, inner ++ String c ""))
        | None => bracket_segments rest (S pos) None
        end
  end.

Definition bracketed (inner : string) : string := "[" ++ inner ++ "]".

(** The chain of keys [parseKeys] hands to [parseObject], or [None] when the
    key is dropped (empty, or naming a property of [Object.prototype]). *)
Definition key_chain (givenKey : string) : option (list string) :=
  if (givenKey =? "")%string then None
  else
    let segments := bracket_segments givenKey 0 None in
    let parent :=
      match segments with
      | (st, _) :: _ => take st givenKey
      | [] => givenKey
      end in
    if negb (parent =? "")%string && on_prototype parent then None
    else
      let children := firstn depth segments in
      if existsb (fun seg => on_prototype (snd seg)) children then None
      else
        let remainder :=
          match skipn depth segments with
          | (st, _) :: _ => [bracketed (drop st givenKey)]
          | [] => []
          end in
        Some ((if (parent =? "")%string then [] else [parent])
                ++ map (fun seg => bracketed (snd seg)) children
                ++ remainder)%list.

Definition last_char (s : string) : option ascii :=
  match rev (list_ascii_of_string s) with
  | c :: _ => Some c
  | [] => None
  end.

(** [root.slice(1, -1)] when [root] starts with ["["] and ends with ["]"],
    else [root]. *)
Definition clean_root (root : string) : string :=
  match root with
  | String "[" rest =>
      match last_char root with
      | Some "]"%char => take (String.length rest - 1) rest
      | _ => root
      end
  | _ => root
  end.

(** The array index [cleanRoot] denotes, if it is one: [String(index) ===
    cleanRoot], [index >= 0] and [index <= arrayLimit]. *)
Definition array_index (cleanRoot : string) : option nat :=
  match parseInt10 cleanRoot with
  | Some index =>
      if (Number_toString index =? cleanRoot)%string
         && (0 <=? index) && (index <=? arrayLimit)
      then Some (Z.to_nat index)
      else None
  | None => None
  end.

(** One step of [parseObject]: wrap [leaf] under [root]. *)
Definition wrap (root : string) (leaf : JsVal) : JsVal :=
  if (root =? "[]")%string then JArr (concat_items leaf)
  else
    let cleanRoot := clean_root root in
    match (if (root =? cleanRoot)%string then None else array_index cleanRoot) with
    | Some index => JArr (repeat JUndefined index ++ [leaf])%list
    | None =>
        if (cleanRoot =? "__proto__")%string then JObj []
        else JObj [(cleanRoot, leaf)]
    end.

Definition parseObject (chain : list string) (val : JsVal) : JsVal :=
  fold_right wrap val chain.

Definition parseKeys (givenKey : string) (val : JsVal) : option JsVal :=
  match key_chain givenKey with
  | Some chain => Some (parseObject chain val)
  | None => None
  end.

Definition truthy (v : JsVal) : bool :=
  match v with
  | JUndefined | JNull => false
  | JBool b => b
  | JNum n => negb (n =? 0)
  | JStr s => negb (s =? "")%string
  | JArr _ | JObj _ => true
  end.

(** [v && typeof v === 'object'] (arrays included). *)
Definition is_object (v : JsVal) : bool :=
  match v with
  | JArr _ | JObj _ => true
  | _ => false
  end.

(** [arr[i] = v] on an array that may have holes. *)
Fixpoint assign_index (arr : list JsVal) (i : nat) (v : JsVal) : list JsVal :=
  match i, arr with
  | O, [] => [v]
  | O, _ :: rest => v :: rest
  | S i', [] => JUndefined :: assign_index [] i' v
  | S i', x :: rest => x :: assign_index rest i' v
  end.

(** [utils.arrayToObject]: the defined elements under their indices. *)
Fixpoint arrayToObject (items : list JsVal) (i : nat) : JsObject :=
  match items with
  | [] => []
  | x :: rest =>
      ((if is_undefined x then [] else [(Number_toString (Z.of_nat i), x)])
         ++ arrayToObject rest (S i))%list
  end.

(** The loops of [utils.merge], over the function [merge] itself. *)

(** [Object.keys(source).reduce(...)] for an object [source]. *)
Fixpoint into_object (merge : JsVal -> JsVal -> JsVal)
  (l : list (string * JsVal)) (acc : JsObject) : JsObject :=
  match l with
  | [] => acc
  | (key, value) :: rest =>
      into_object merge rest
        (if has acc key then set acc key (merge value (get acc key))
         else set acc key value)
  end.

(** The same for an array [source]: its keys are the indices it defines. *)
Fixpoint indexed_into_object (merge : JsVal -> JsVal -> JsVal)
  (l : list JsVal) (i : nat) (acc : JsObject) : JsObject :=
  match l with
  | [] => acc
  | value :: rest =>
      indexed_into_object merge rest (S i)
        (if is_undefined value then acc
         else
           let key := Number_toString (Z.of_nat i) in
           if has acc key then set acc key (merge value (get acc key))
           else set acc key value)
  end.

(** [source.forEach(...)] when both are arrays. *)
Fixpoint into_array (merge : JsVal -> JsVal -> JsVal)
  (l : list JsVal) (i : nat) (acc : list JsVal) : list JsVal :=
  match l with
  | [] => acc
  | item :: rest =>
      into_array merge rest (S i)
        (if is_undefined item then acc
         else
           match nth_error acc i with
           | Some targetItem =>
               if is_undefined targetItem then assign_index acc i item
               else if is_object targetItem && is_object item
                    then assign_index acc i (merge item targetItem)
                    else (acc ++ [item])%list
           | None => assign_index acc i item
           end)
  end.

(** [utils.merge(target, source, options)]. *)
Fixpoint merge (source target : JsVal) {struct source} : JsVal :=
  if negb (truthy source) then target
  else
    match source with
    | JArr sitems =>
        match target with
        | JArr titems =>
            JArr (into_array (fun s t => merge s t) sitems 0%nat titems)
        | JObj tprops =>
            JObj (indexed_into_object (fun s t => merge s t) sitems 0%nat tprops)
        | _ => JArr (target :: sitems)
        end
    | JObj sprops =>
        match target with
        | JArr titems =>
            JObj (into_object (fun s t => merge s t) sprops (arrayToObject titems 0%nat))
        | JObj tprops => JObj (into_object (fun s t => merge s t) sprops tprops)
        | _ => JArr [target; source]
        end
    | _ =>
        match target with
        | JArr titems => JArr (titems ++ [source])%list
        | JObj tprops =>
            if on_prototype (ToString source) then target
            else JObj (set tprops (ToString source) (JBool true))
        | _ => JArr [target; source]
        end
    end.

(** [utils.compact]: the holes of every array removed. *)
Fixpoint compact_items (compact : JsVal -> JsVal) (l : list JsVal) : list JsVal :=
  match l with
  | [] => []
  | x :: rest =>
      if is_undefined x then compact_items compact rest
      else compact x :: compact_items compact rest
  end.

Fixpoint compact_properties (compact : JsVal -> JsVal) (l : JsObject) : JsObject :=
  match l with
  | [] => []
  | (k, x) :: rest => (k, compact x) :: compact_properties compact rest
  end.

Fixpoint compact (v : JsVal) : JsVal :=
  match v with
  | JArr items => JArr (compact_items (fun x => compact x) items)
  | JObj props => JObj (compact_properties (fun x => compact x) props)
  | _ => v
  end.

Definition merge_key (obj : JsVal) (entry : string * JsVal) : JsVal :=
  match parseKeys (fst entry) (snd entry) with
  | Some newObj => merge newObj obj
  | None => obj
  end.

Definition as_object (v : JsVal) : JsObject :=
  match v with
  | JObj props => props
  | _ => []
  end.

Definition parse (str : string) : JsObject :=
  if (str =? "")%string then []
  else
    let tempObj := parseValues str in
    as_object (compact (fold_left merge_key tempObj (JObj []))).

End Qs.

(* ===================================================================== *)
(** * The [zod] schemas the codec is built from

    [zod] 3 (3.23 and later): a schema parses a value at a path and either
    yields its output or adds issues; an object schema parses every key of
    its shape, so the issues of all of them are collected. *)
(* ===================================================================== *)

Module Zod.
Import Js.

Record ZodIssue := {
  path : list string;
  message : string
}.

(** What [_parse] returns: the output unless the value was rejected, and the
    issues it added. *)
Record ParseReturn (A : Type) := {
  output : option A;
  issues : list ZodIssue
}.
Arguments output {A} _.
Arguments issues {A} _.

Definition ZodType (A : Type) := list string -> JsVal -> ParseReturn A.

Definition OK {A} (a : A) : ParseReturn A := {| output := Some a; issues := [] |}.

Definition INVALID {A} (p : list string) (msg : string) : ParseReturn A :=
  {| output := None; issues := [{| path := p; message := msg |}] |}.

(** [getParsedType]. *)
Definition getParsedType (v : JsVal) : string :=
  match v with
  | JUndefined => "undefined"
  | JNull => "null"
  | JBool _ => "boolean"
  | JNum _ => "number"
  | JStr _ => "string"
  | JArr _ => "array"
  | JObj _ => "object"
  end.

(** The default message of an [invalid_type] issue. *)
Definition invalid_type (expected : string) (v : JsVal) : string :=
  if is_undefined v then "Required"
  else "Expected " ++ expected ++ ", received " ++ getParsedType v.

(** [z.string()]. *)
Definition z_string : ZodType string :=
  fun p v =>
    match v with
    | JStr s => OK s
    | _ => INVALID p (invalid_type "string" v)
    end.

(** [z.boolean()]. *)
Definition z_boolean : ZodType bool :=
  fun p v =>
    match v with
    | JBool b => OK b
    | _ => INVALID p (invalid_type "boolean" v)
    end.

Definition quoted (s : string) : string := "'" ++ s ++ "'".

(** [util.joinValues]. *)
Definition joinValues (values : list string) : string :=
  join " | " (map quoted values).

Fixpoint enum_lookup {A} (table : list (string * A)) (s : string) : option A :=
  match table with
  | [] => None
  | (k, a) :: rest => if (k =? s)%string then Some a else enum_lookup rest s
  end.

(** [z.enum([...])], each value with the constructor it denotes. *)
Definition z_enum {A} (table : list (string * A)) : ZodType A :=
  fun p v =>
    match v with
    | JStr s =>
        match enum_lookup table s with
        | Some a => OK a
        | None =>
            INVALID p ("Invalid enum value. Expected " ++ joinValues (map fst table)
                       ++ ", received " ++ quoted s)
        end
    | _ => INVALID p (invalid_type (joinValues (map fst table)) v)
    end.

(** [z.nativeEnum(E)] for an enum [E] of string values. *)
Definition z_nativeEnum (values : list string) : ZodType string :=
  fun p v =>
    match v with
    | JStr s =>
        if existsb (String.eqb s) values then OK s
        else INVALID p ("Invalid enum value. Expected " ++ joinValues values
                        ++ ", received " ++ quoted s)
    | JNum n =>
        INVALID p ("Invalid enum value. Expected " ++ joinValues values
                   ++ ", received " ++ quoted (Number_toString n))
    | _ => INVALID p (invalid_type (joinValues values) v)
    end.

Inductive NumberCheck :=
| check_int
| check_min (value : Z).

Definition number_is_int (n : JsNumber) : bool :=
  match n with
  | NInt _ => true
  | _ => false
  end.

(** [n < value]. *)
Definition number_lt (n : JsNumber) (value : Z) : bool :=
  match n with
  | NInt z => z <? value
  | NFrac fl => fl <? value
  | NInf neg => neg
  | NNaN => false
  end.

Definition check_issues (p : list string) (n : JsNumber) (c : NumberCheck)
  : list ZodIssue :=
  match c with
  | check_int =>
      if number_is_int n then []
      else [{| path := p; message := "Expected integer, received float" |}]
  | check_min value =>
      if number_lt n value
      then [{| path := p;
               message := "Number must be greater than or equal to "
                          ++ Number_toString value |}]
      else []
  end.

(** [ZodNumber._parse] on a number: every check runs. *)
Definition number_checks (checks : list NumberCheck) (p : list string)
  (n : JsNumber) : ParseReturn Z :=
  match n with
  | NNaN => INVALID p "Expected number, received nan"
  | _ =>
      let found := flat_map (check_issues p n) checks in
      {| output := match n, found with
                   | NInt z, [] => Some z
                   | _, _ => None
                   end;
         issues := found |}
  end.

(** [z.coerce.number()] with its checks: the input goes through [Number(..)]. *)
Definition z_coerce_number (checks : list NumberCheck) : ZodType Z :=
  fun p v => number_checks checks p (ToNumber v).

(** [z.number()] with its checks. *)
Definition z_number (checks : list NumberCheck) : ZodType Z :=
  fun p v =>
    match v with
    | JNum n => number_checks checks p (NInt n)
    | _ => INVALID p (invalid_type "number" v)
    end.

(** [new Date(v)] for a value that is not a [Date]: a string is parsed, any
    other primitive is a time value, an object goes through [String(..)]. *)
Definition Date_of (Date_parse : string -> option Z) (v : JsVal) : option Z :=
  match v with
  | JUndefined => None
  | JNull => Some 0
  | JBool true => Some 1
  | JBool false => Some 0
  | JNum n => if valid_timeb n then Some n else None
  | JStr s => Date_parse s
  | JArr _ | JObj _ => Date_parse (ToString v)
  end.

(** [z.coerce.date()]. *)
Definition z_coerce_date (Date_parse : string -> option Z) : ZodType Date :=
  fun p v =>
    match Date_of Date_parse v with
    | Some t => OK t
    | None => INVALID p "Invalid date"
    end.

(** [schema.optional()]. *)
Definition z_optional {A} (schema : ZodType A) : ZodType (option A) :=
  fun p v =>
    match v with
    | JUndefined => OK None
    | _ =>
        let r := schema p v in
        {| output := option_map Some (output r); issues := issues r |}
    end.

(** [z.preprocess(f, schema)]. *)
Definition z_preprocess {A} (f : JsVal -> JsVal) (schema : ZodType A) : ZodType A :=
  fun p v => schema p (f v).

Fixpoint parse_items {A} (schema : ZodType A) (p : list string)
  (items : list JsVal) (i : nat) : ParseReturn (list A) :=
  match items with
  | [] => OK []
  | x :: rest =>
      let r := schema (p ++ [Number_toString (Z.of_nat i)])%list x in
      let rs := parse_items schema p rest (S i) in
      {| output := match output r, output rs with
                   | Some a, Some l => Some (a :: l)
                   | _, _ => None
                   end;
         issues := (issues r ++ issues rs)%list |}
  end.

(** [z.array(schema)]. *)
Definition z_array {A} (schema : ZodType A) : ZodType (list A) :=
  fun p v =>
    match v with
    | JArr items => parse_items schema p items 0
    | _ => INVALID p (invalid_type "array" v)
    end.

(** [z.record(z.unknown())]. *)
Definition z_record_unknown : ZodType JsObject :=
  fun p v =>
    match v with
    | JObj props =>
        OK (filter (fun kv => negb (fst kv =? "__proto__")%string) props)
    | _ => INVALID p (invalid_type "object" v)
    end.

(** The keys of a [z.object] shape, parsed one after the other. *)
Definition Shape (A : Type) := list string -> JsObject -> ParseReturn A.

Definition shape_pure {A} (a : A) : Shape A := fun _ _ => OK a.

Definition shape_key {A B} (fs : Shape (A -> B)) (key : string) (schema : ZodType A)
  : Shape B :=
  fun p data =>
    let rf := fs p data in
    let ra := schema (p ++ [key])%list (get data key) in
    {| output := match output rf, output ra with
                 | Some f, Some a => Some (f a)
                 | _, _ => None
                 end;
       issues := (issues rf ++ issues ra)%list |}.

(** [z.object(shape)]; keys outside the shape are stripped. *)
Definition z_object {A} (shape : Shape A) : ZodType A :=
  fun p v =>
    match v with
    | JObj data => shape p data
    | _ => INVALID p (invalid_type "object" v)
    end.

End Zod.

(* ===================================================================== *)
(** * The traces query codec ([storage/schemas/observability.ts]) *)
(* ===================================================================== *)

Module Codec.
Import Js Url Zod.

Inductive SpanEntityType := agent | workflow | tool | network | step.
Inductive SpanStatus := success | error | running.
Inductive TracesOrderByField := by_startedAt | by_endedAt.
Inductive SortDirection := ASC | DESC.

Record DateRange := {
  start : option Date;
  end_ : option Date
}.

Record PaginationArgs := {
  page : option Z;
  perPage : option Z
}.

Record TracesOrderBy := {
  field : option TracesOrderByField;
  direction : option SortDirection
}.

(** [TracesFilter], in the order of the schema's shape. *)
Record TracesFilter := {
  startedAt : option DateRange;
  endedAt : option DateRange;
  spanType : option string;
  entityType : option SpanEntityType;
  entityId : option string;
  entityName : option string;
  userId : option string;
  organizationId : option string;
  resourceId : option string;
  runId : option string;
  sessionId : option string;
  threadId : option string;
  requestId : option string;
  environment : option string;
  source : option string;
  serviceName : option string;
  deploymentId : option string;
  metadata : option JsObject;
  tags : option (list string);
  scope : option JsObject;
  versionInfo : option JsObject;
  status : option SpanStatus;
  hasChildError : option bool
}.

Record TracesPaginatedArg := {
  filters : option TracesFilter;
  pagination : option PaginationArgs;
  orderBy : option TracesOrderBy
}.

Record ValidationError := {
  ve_field : string;
  ve_message : string
}.

(** [ParseResult | ParseErrorResult]. *)
Inductive ParseOutcome :=
| ParseResult (data : TracesPaginatedArg)
| ParseErrorResult (errors : list ValidationError).

(** The input of [parseTracesQueryParams]: a query string, or the record a
    web framework hands over. *)
Inductive ParamValue :=
| PUndefined
| PString (s : string)
| PArray (l : list string).

Inductive QueryInput :=
| InString (s : string)
| InRecord (r : list (string * ParamValue)).

(** ** Enums *)

Definition spanEntityType_values : list (string * SpanEntityType) :=
  [("agent", agent); ("workflow", workflow); ("tool", tool);
   ("network", network); ("step", step)].

Definition spanStatus_values : list (string * SpanStatus) :=
  [("success", success); ("error", error); ("running", running)].

Definition tracesOrderByField_values : list (string * TracesOrderByField) :=
  [("startedAt", by_startedAt); ("endedAt", by_endedAt)].

Definition sortDirection_values : list (string * SortDirection) :=
  [("ASC", ASC); ("DESC", DESC)].

Definition SpanEntityType_text (e : SpanEntityType) : string :=
  match e with
  | agent => "agent" | workflow => "workflow" | tool => "tool"
  | network => "network" | step => "step"
  end.

Definition SpanStatus_text (s : SpanStatus) : string :=
  match s with
  | success => "success" | error => "error" | running => "running"
  end.

Definition TracesOrderByField_text (f : TracesOrderByField) : string :=
  match f with
  | by_startedAt => "startedAt" | by_endedAt => "endedAt"
  end.

Definition SortDirection_text (d : SortDirection) : string :=
  match d with
  | ASC => "ASC" | DESC => "DESC"
  end.

Definition SCALAR_FILTER_KEYS : list string :=
  ["spanType"; "entityType"; "entityId"; "entityName"; "userId";
   "organizationId"; "resourceId"; "runId"; "sessionId"; "threadId";
   "requestId"; "environment"; "source"; "serviceName"; "deploymentId";
   "status"; "hasChildError"].

Section Environment.

(** The values of the [SpanType] enum, declared outside these sources. *)
Variable SpanType_values : list string.

(** What [Date.parse] makes of a string that is not in the complete UTC
    date-time format: ECMAScript leaves it to the implementation. *)
Variable Date_parse_other : string -> option Z.

Definition Date_parse (s : string) : option Z :=
  match parse_iso_utc s with
  | Some t => Some t
  | None => Date_parse_other s
  end.

(** ** Schemas *)

Definition spanEntityTypeSchema : ZodType SpanEntityType := z_enum spanEntityType_values.
Definition spanStatusSchema : ZodType SpanStatus := z_enum spanStatus_values.
Definition spanTypeSchema : ZodType string := z_nativeEnum SpanType_values.

Definition paginationArgsSchema : ZodType PaginationArgs :=
  z_object
    (shape_key (shape_key (shape_pure Build_PaginationArgs)
       "page" (z_optional (z_coerce_number [check_int; check_min 0])))
       "perPage" (z_optional (z_coerce_number [check_int; check_min 1]))).

Definition dateRangeSchema : ZodType DateRange :=
  z_object
    (shape_key (shape_key (shape_pure Build_DateRange)
       "start" (z_optional (z_coerce_date Date_parse)))
       "end" (z_optional (z_coerce_date Date_parse))).

Definition tracesOrderByFieldSchema : ZodType TracesOrderByField :=
  z_enum tracesOrderByField_values.
Definition sortDirectionSchema : ZodType SortDirection := z_enum sortDirection_values.

Definition tracesOrderBySchema : ZodType TracesOrderBy :=
  z_object
    (shape_key (shape_key (shape_pure Build_TracesOrderBy)
       "field" (z_optional tracesOrderByFieldSchema))
       "direction" (z_optional sortDirectionSchema)).

(** [val => typeof val === 'string' ? val.split(',').filter(t => t.trim() !== '') : val]. *)
Definition tags_preprocess (val : JsVal) : JsVal :=
  match val with
  | JStr s =>
      JArr (map JStr (filter (fun t => negb (trim t =? "")%string) (split "," s)))
  | _ => val
  end.

(** [val => val === 'true' ? true : val === 'false' ? false : val]. *)
Definition hasChildError_preprocess (val : JsVal) : JsVal :=
  match val with
  | JStr "true" => JBool true
  | JStr "false" => JBool false
  | _ => val
  end.

Definition tracesFilterSchema : ZodType TracesFilter :=
  z_object
    (shape_key (shape_key (shape_key (shape_key (shape_key (shape_key
    (shape_key (shape_key (shape_key (shape_key (shape_key (shape_key
    (shape_key (shape_key (shape_key (shape_key (shape_key (shape_key
    (shape_key (shape_key (shape_key (shape_key (shape_key
       (shape_pure Build_TracesFilter)
       "startedAt" (z_optional dateRangeSchema))
       "endedAt" (z_optional dateRangeSchema))
       "spanType" (z_optional spanTypeSchema))
       "entityType" (z_optional spanEntityTypeSchema))
       "entityId" (z_optional z_string))
       "entityName" (z_optional z_string))
       "userId" (z_optional z_string))
       "organizationId" (z_optional z_string))
       "resourceId" (z_optional z_string))
       "runId" (z_optional z_string))
       "sessionId" (z_optional z_string))
       "threadId" (z_optional z_string))
       "requestId" (z_optional z_string))
       "environment" (z_optional z_string))
       "source" (z_optional z_string))
       "serviceName" (z_optional z_string))
       "deploymentId" (z_optional z_string))
       "metadata" (z_optional z_record_unknown))
       "tags" (z_preprocess tags_preprocess (z_optional (z_array z_string))))
       "scope" (z_optional z_record_unknown))
       "versionInfo" (z_optional z_record_unknown))
       "status" (z_optional spanStatusSchema))
       "hasChildError" (z_preprocess hasChildError_preprocess (z_optional z_boolean))).

Definition tracesPaginatedArgSchema : ZodType TracesPaginatedArg :=
  z_object
    (shape_key (shape_key (shape_key (shape_pure Build_TracesPaginatedArg)
       "filters" (z_optional tracesFilterSchema))
       "pagination" (z_optional paginationArgsSchema))
       "orderBy" (z_optional tracesOrderBySchema)).

(** ** [parseTracesQueryParams] *)

(** The [application/x-www-form-urlencoded] byte serializer that
    [URLSearchParams.prototype.toString] uses. *)
Definition form_safe (c : ascii) : bool :=
  let n := nat_of_ascii c in
  (n =? 42)%nat || (n =? 45)%nat || (n =? 46)%nat || (n =? 95)%nat
  || ((48 <=? n)%nat && (n <=? 57)%nat)
  || ((65 <=? n)%nat && (n <=? 90)%nat)
  || ((97 <=? n)%nat && (n <=? 122)%nat).

Fixpoint form_encode (s : string) : string :=
  match s with
  | EmptyString => ""
  | String c rest =>
      if Ascii.eqb c " " then String "+" (form_encode rest)
      else if form_safe c then String c (form_encode rest)
      else hexTable c ++ form_encode rest
  end.

(** Step 1 for a record: [params.append] per value, then [params.toString()]. *)
Definition record_pairs (r : list (string * ParamValue)) : list (string * string) :=
  flat_map (fun kv =>
    match snd kv with
    | PUndefined => []
    | PString v => [(fst kv, v)]
    | PArray vs => map (fun v => (fst kv, v)) vs
    end) r.

Definition URLSearchParams_toString (pairs : list (string * string)) : string :=
  join "&" (map (fun kv => form_encode (fst kv) ++ "=" ++ form_encode (snd kv)) pairs).

Definition queryString_of (input : QueryInput) : string :=
  match input with
  | InString s => s
  | InRecord r => URLSearchParams_toString (record_pairs r)
  end.

(** [if (parsed[key] !== undefined) target[key] = parsed[key]]. *)
Definition copy_defined (parsed : JsObject) (target : JsObject) (key : string) : JsObject :=
  if is_undefined (get parsed key) then target else set target key (get parsed key).

(** Step 3: the parsed parameters moved into the schema's structure. *)
Definition restructure (parsed : JsObject) : JsObject :=
  let restructured : JsObject := [] in
  let restructured :=
    if negb (is_undefined (get parsed "page")) || negb (is_undefined (get parsed "perPage"))
    then set restructured "pagination"
           (JObj (copy_defined parsed (copy_defined parsed [] "page") "perPage"))
    else restructured in
  let filters_ := fold_left (copy_defined parsed) SCALAR_FILTER_KEYS [] in
  let filters_ :=
    fold_left (copy_defined parsed)
      ["startedAt"; "endedAt"; "tags"; "metadata"; "scope"; "versionInfo"] filters_ in
  let restructured :=
    match filters_ with
    | [] => restructured
    | _ => set restructured "filters" (JObj filters_)
    end in
  copy_defined parsed restructured "orderBy".

Definition error_of_issue (issue : ZodIssue) : ValidationError :=
  {| ve_field := join "." (path issue); ve_message := message issue |}.

(** Step 4: [safeParse] and the shape of the result. *)
Definition validate (restructured : JsObject) : ParseOutcome :=
  let result := tracesPaginatedArgSchema [] (JObj restructured) in
  match output result, issues result with
  | Some data, [] => ParseResult data
  | _, found => ParseErrorResult (map error_of_issue found)
  end.

Definition parseTracesQueryParams (input : QueryInput) : ParseOutcome :=
  let queryString := queryString_of input in
  let parsed := Qs.parse queryString in
  validate (restructure parsed).

(** ** [serializeTracesParams] *)

Definition opt_js {A} (f : A -> JsVal) (o : option A) : JsVal :=
  match o with
  | Some a => f a
  | None => JUndefined
  end.

(** [args.filters[key]] for a key of [SCALAR_FILTER_KEYS]. *)
Definition scalar_filter (f : TracesFilter) (key : string) : JsVal :=
  if (key =? "spanType")%string then opt_js JStr (spanType f)
  else if (key =? "entityType")%string
       then opt_js (fun e => JStr (SpanEntityType_text e)) (entityType f)
  else if (key =? "entityId")%string then opt_js JStr (entityId f)
  else if (key =? "entityName")%string then opt_js JStr (entityName f)
  else if (key =? "userId")%string then opt_js JStr (userId f)
  else if (key =? "organizationId")%string then opt_js JStr (organizationId f)
  else if (key =? "resourceId")%string then opt_js JStr (resourceId f)
  else if (key =? "runId")%string then opt_js JStr (runId f)
  else if (key =? "sessionId")%string then opt_js JStr (sessionId f)
  else if (key =? "threadId")%string then opt_js JStr (threadId f)
  else if (key =? "requestId")%string then opt_js JStr (requestId f)
  else if (key =? "environment")%string then opt_js JStr (environment f)
  else if (key =? "source")%string then opt_js JStr (source f)
  else if (key =? "serviceName")%string then opt_js JStr (serviceName f)
  else if (key =? "deploymentId")%string then opt_js JStr (deploymentId f)
  else if (key =? "status")%string
       then opt_js (fun s => JStr (SpanStatus_text s)) (status f)
  else if (key =? "hasChildError")%string then opt_js JBool (hasChildError f)
  else JUndefined.

(** [{ ...(r.start && { start: r.start.toISOString() }),
       ...(r.end && { end: r.end.toISOString() }) }]. *)
Definition dateRange_object (r : DateRange) : JsVal :=
  JObj ((match start r with Some t => [("start", JStr (toISOString t))] | None => [] end)
        ++ (match end_ r with Some t => [("end", JStr (toISOString t))] | None => [] end))%list.

Definition set_if_defined (result : JsObject) (key : string) (v : JsVal) : JsObject :=
  if is_undefined v then result else set result key v.

Definition prepareForSerialization (args : TracesPaginatedArg) : JsObject :=
  let result : JsObject := [] in
  let result :=
    set_if_defined result "page"
      (match pagination args with Some p => opt_js JNum (page p) | None => JUndefined end) in
  let result :=
    set_if_defined result "perPage"
      (match pagination args with Some p => opt_js JNum (perPage p) | None => JUndefined end) in
  let result :=
    match filters args with
    | Some f =>
        let result :=
          fold_left (fun acc key => set_if_defined acc key (scalar_filter f key))
            SCALAR_FILTER_KEYS result in
        let result :=
          match startedAt f with
          | Some r => set result "startedAt" (dateRange_object r)
          | None => result
          end in
        let result :=
          match endedAt f with
          | Some r => set result "endedAt" (dateRange_object r)
          | None => result
          end in
        let result :=
          match tags f with
          | Some (t :: ts) => set result "tags" (JArr (map JStr (t :: ts)))
          | _ => result
          end in
        let result :=
          match metadata f with
          | Some (kv :: m) => set result "metadata" (JObj (kv :: m))
          | _ => result
          end in
        let result :=
          match scope f with
          | Some (kv :: m) => set result "scope" (JObj (kv :: m))
          | _ => result
          end in
        match versionInfo f with
        | Some (kv :: m) => set result "versionInfo" (JObj (kv :: m))
        | _ => result
        end
    | None => result
    end in
  match orderBy args with
  | Some o =>
      set result "orderBy"
        (JObj ((match field o with
                | Some x => [("field", JStr (TracesOrderByField_text x))]
                | None => []
                end)
               ++ (match direction o with
                   | Some x => [("direction", JStr (SortDirection_text x))]
                   | None => []
                   end))%list)
  | None => result
  end.

Definition serializeTracesParams (args : TracesPaginatedArg) : string :=
  Qs.stringify (prepareForSerialization args).

End Environment.

End Codec.

(* ===================================================================== *)
(** * The shape of what [serializeTracesParams] hands to [qs.stringify] *)
(* ===================================================================== *)

Module Wire.
Import Js Url Qs.

(** A top-level key that [qs.parse] reads back as itself. *)
Definition safe_root (k : string) : bool :=
  negb (k =? "")%string && lacks "[" k && lacks "]" k && negb (on_prototype k).

(** A key of a nested object that [qs.parse] reads back as a property of
    that object: not empty, free of brackets, not an array index within
    [arrayLimit], not a property of [Object.prototype]. *)
Definition safe_key (k : string) : bool :=
  safe_root k && match array_index k with Some _ => false | None => true end.

Definition is_string (v : JsVal) : bool :=
  match v with
  | JStr _ => true
  | _ => false
  end.

Fixpoint nodup_keys (o : JsObject) : bool :=
  match o with
  | [] => true
  | (k, _) :: rest => negb (has rest k) && nodup_keys rest
  end.

(** A value [qs] carries faithfully: a primitive, a non-empty array of at
    most [arrayLimit + 1] strings, or a non-empty object of strings under
    safe keys. *)
Definition wire_value_ok (v : JsVal) : bool :=
  match v with
  | JNum _ | JBool _ | JStr _ => true
  | JArr items =>
      match items with [] => false | _ => true end
      && (List.length items <=? 21)%nat && forallb is_string items
  | JObj props =>
      match props with [] => false | _ => true end
      && forallb (fun kv => safe_key (fst kv) && is_string (snd kv)) props
      && nodup_keys props
  | _ => false
  end.

(** The number of [key=value] parameters of a value. *)
Definition leaves (v : JsVal) : nat :=
  match v with
  | JArr items => List.length items
  | JObj props => List.length props
  | _ => 1
  end.

Definition parameter_count (o : JsObject) : nat :=
  fold_right (fun kv n => (leaves (snd kv) + n)%nat) 0%nat o.

Definition wire_ok (o : JsObject) : bool :=
  forallb (fun kv => safe_root (fst kv) && wire_value_ok (snd kv)) o
  && nodup_keys o
  && (parameter_count o <=? parameterLimit)%nat.

(** What a primitive reads back as: its string. *)
Definition read_back (v : JsVal) : JsVal :=
  match v with
  | JNum _ | JBool _ => JStr (ToString v)
  | _ => v
  end.

Definition read_back_object (o : JsObject) : JsObject :=
  map (fun kv => (fst kv, read_back (snd kv))) o.

(** The decoded [key=value] parameters of a value under [root]. *)
Fixpoint indexed_pairs (root : string) (items : list JsVal) (i : nat)
  : list (string * string) :=
  match items with
  | [] => []
  | x :: rest => (index_key root i, ToString x) :: indexed_pairs root rest (S i)
  end.

Definition value_pairs (root : string) (v : JsVal) : list (string * string) :=
  match v with
  | JArr items => indexed_pairs root items 0
  | JObj props => map (fun kv => (child_key root (fst kv), ToString (snd kv))) props
  | _ => [(root, ToString v)]
  end.

Definition object_pairs (o : JsObject) : list (string * string) :=
  flat_map (fun kv => value_pairs (fst kv) (snd kv)) o.

(** A decoded parameter as [parseValues] stores it. *)
Definition pair_entry (kv : string * string) : string * JsVal :=
  (fst kv, JStr (snd kv)).

Definition encode_pair (kv : string * string) : string :=
  encode (fst kv) ++ "=" ++ encode (snd kv).

(** A flat key under [root]: the root itself or one of its bracketed children. *)
Definition under (root key : string) : Prop :=
  key = root \/ exists k, key = child_key root k.

End Wire.

(* ===================================================================== *)
(** * What the serializer writes, key by key *)
(* ===================================================================== *)

Module Flat.
Import Js Url Qs Zod Codec Wire.

(** The top-level keys [prepareForSerialization] may write, in the order it
    writes them. *)
Definition NESTED_FILTER_KEYS : list string :=
  ["startedAt"; "endedAt"; "tags"; "metadata"; "scope"; "versionInfo"].

Definition FILTER_KEYS : list string := (SCALAR_FILTER_KEYS ++ NESTED_FILTER_KEYS)%list.

Definition FLAT_KEYS : list string :=
  (["page"; "perPage"] ++ FILTER_KEYS ++ ["orderBy"])%list.

(** The entries of [keys] whose value is defined. *)
Definition defined_entries (keys : list string) (val : string -> JsVal) : JsObject :=
  flat_map (fun k => if is_undefined (val k) then [] else [(k, val k)]) keys.

Definition nonempty_tags (o : option (list string)) : JsVal :=
  match o with
  | Some (t :: ts) => JArr (map JStr (t :: ts))
  | _ => JUndefined
  end.

Definition nonempty_object (o : option JsObject) : JsVal :=
  match o with
  | Some (kv :: m) => JObj (kv :: m)
  | _ => JUndefined
  end.

Definition orderBy_object (o : TracesOrderBy) : JsVal :=
  JObj ((match field o with
         | Some x => [("field", JStr (TracesOrderByField_text x))]
         | None => []
         end)
        ++ (match direction o with
            | Some x => [("direction", JStr (SortDirection_text x))]
            | None => []
            end))%list.

(** The value written for a key of the filter. *)
Definition filter_value (f : TracesFilter) (key : string) : JsVal :=
  if (key =? "startedAt")%string then opt_js dateRange_object (startedAt f)
  else if (key =? "endedAt")%string then opt_js dateRange_object (endedAt f)
  else if (key =? "tags")%string then nonempty_tags (tags f)
  else if (key =? "metadata")%string then nonempty_object (metadata f)
  else if (key =? "scope")%string then nonempty_object (scope f)
  else if (key =? "versionInfo")%string then nonempty_object (versionInfo f)
  else scalar_filter f key.

(** The value written for a top-level key; [undefined] when none is. *)
Definition flat_value (args : TracesPaginatedArg) (key : string) : JsVal :=
  if (key =? "page")%string
  then match pagination args with Some p => opt_js JNum (page p) | None => JUndefined end
  else if (key =? "perPage")%string
  then match pagination args with Some p => opt_js JNum (perPage p) | None => JUndefined end
  else if (key =? "orderBy")%string then opt_js orderBy_object (orderBy args)
  else match filters args with
       | Some f => filter_value f key
       | None => JUndefined
       end.

(** ** Values that come back as they were *)

Definition MAX_SAFE_INTEGER : Z := 9007199254740991.

Definition is_some {A} (o : option A) : bool :=
  match o with
  | Some _ => true
  | None => false
  end.

Definition holds {A} (P : A -> bool) (o : option A) : bool :=
  match o with
  | Some a => P a
  | None => true
  end.

(** At least one of [page] and [perPage], each a safe integer the schema
    accepts. *)
Definition pagination_ok (p : PaginationArgs) : bool :=
  (is_some (page p) || is_some (perPage p))
  && holds (fun n => (0 <=? n) && (n <=? MAX_SAFE_INTEGER)) (page p)
  && holds (fun n => (1 <=? n) && (n <=? MAX_SAFE_INTEGER)) (perPage p).

(** At least one bound, each a valid time value. *)
Definition dateRange_ok (r : DateRange) : bool :=
  (is_some (start r) || is_some (end_ r))
  && holds valid_timeb (start r) && holds valid_timeb (end_ r).

(** Between one and [arrayLimit + 1] tags. *)
Definition tags_ok (ts : list string) : bool :=
  match ts with [] => false | _ => true end && (Z.of_nat (List.length ts) <=? arrayLimit + 1).

(** A non-empty map of strings under distinct keys that [qs] reads back as
    property names. *)
Definition record_ok (m : JsObject) : bool := wire_value_ok (JObj m).

Definition orderBy_ok (o : TracesOrderBy) : bool :=
  is_some (field o) || is_some (direction o).

Section Environment.

Variable SpanType_values : list string.

Definition filter_ok (f : TracesFilter) : bool :=
  existsb (fun k => negb (is_undefined (filter_value f k))) FILTER_KEYS
  && holds dateRange_ok (startedAt f)
  && holds dateRange_ok (endedAt f)
  && holds (fun s => existsb (String.eqb s) SpanType_values) (spanType f)
  && holds tags_ok (tags f)
  && holds record_ok (metadata f)
  && holds record_ok (scope f)
  && holds record_ok (versionInfo f).

(** The arguments [serializeTracesParams] writes in full and
    [parseTracesQueryParams] reads back. *)
Definition round_trips (args : TracesPaginatedArg) : bool :=
  holds pagination_ok (pagination args)
  && holds filter_ok (filters args)
  && holds orderBy_ok (orderBy args)
  && (parameter_count (prepareForSerialization args) <=? parameterLimit)%nat.

End Environment.

End Flat.

Module FlatSamples.
Import Js Codec Flat.

Definition no_filter : TracesFilter :=
  {| startedAt := None; endedAt := None; spanType := None; entityType := None;
     entityId := None; entityName := None; userId := None; organizationId := None;
     resourceId := None; runId := None; sessionId := None; threadId := None;
     requestId := None; environment := None; source := None; serviceName := None;
     deploymentId := None; metadata := None; tags := None; scope := None;
     versionInfo := None; status := None; hasChildError := None |}.

Definition with_metadata (m : JsObject) : TracesPaginatedArg :=
  {| filters := Some
       {| startedAt := None; endedAt := None; spanType := None; entityType := None;
          entityId := None; entityName := None; userId := None; organizationId := None;
          resourceId := None; runId := None; sessionId := None; threadId := None;
          requestId := None; environment := None; source := None; serviceName := None;
          deploymentId := None; metadata := Some m; tags := None; scope := None;
          versionInfo := None; status := None; hasChildError := None |};
     pagination := None;
     orderBy := None |}.

(** Every kind of field at once. *)
Definition full_query : TracesPaginatedArg :=
  {| filters := Some
       {| startedAt := Some {| start := Some 1704067200000; end_ := None |};
          endedAt := Some {| start := Some (-1); end_ := Some 253402300800000 |};
          spanType := Some "agent_run"; entityType := Some agent;
          entityId := Some "a b&c=d"; entityName := Some "";
          userId := None; organizationId := None;
          resourceId := None; runId := Some "run[1]"; sessionId := None;
          threadId := None; requestId := None; environment := Some "prod";
          source := None; serviceName := None; deploymentId := None;
          metadata := Some [("team", JStr "core"); ("tier", JStr "1")];
          tags := Some ["a,b"; "c"];
          scope := Some [("name", JStr "x")];
          versionInfo := None; status := Some error; hasChildError := Some false |};
     pagination := Some {| page := Some 0; perPage := Some 25 |};
     orderBy := Some {| field := Some by_startedAt; direction := Some DESC |} |}.

End FlatSamples.

(* ===================================================================== *)
(** * The fields of the query schema *)
(* ===================================================================== *)

Module Fields.
Import Js Zod Codec.

(** [v.a.b...]: [None] when a step on the way is not an object. *)
Fixpoint value_at (v : JsVal) (path : list string) : option JsVal :=
  match path with
  | [] => Some v
  | k :: rest =>
      match v with
      | JObj props => value_at (get props k) rest
      | _ => None
      end
  end.

(** A schema whose verdict does not depend on the path it is applied at. *)
Definition path_independent {A} (schema : ZodType A) : Prop :=
  forall p q v, output (schema p v) = output (schema q v).

(** A schema that adds an issue at or under its path whenever it rejects. *)
Definition reports {A} (schema : ZodType A) : Prop :=
  forall p v, output (schema p v) = None ->
    exists i rest, In i (issues (schema p v)) /\ path i = (p ++ rest)%list.

Definition well_behaved {A} (schema : ZodType A) : Prop :=
  path_independent schema /\ reports schema.

Definition shape_well_behaved {A} (fs : Shape A) : Prop :=
  (forall p q data, output (fs p data) = output (fs q data))
  /\ (forall p data, output (fs p data) = None ->
        exists i rest, In i (issues (fs p data)) /\ path i = (p ++ rest)%list).

Section Environment.

Variable Date_parse_other : string -> option Z.

Definition optional_date : ZodType (option Date) :=
  z_optional (z_coerce_date (Date_parse Date_parse_other)).

End Environment.

End Fields.

(* ===================================================================== *)
(** * The complete set of field errors

    Every field of the query schema with the constraint it puts on its own
    value, and what the constraints find wrong with a query when each
    field is looked at by itself. *)
(* ===================================================================== *)

Module Violations.
Import Js Zod Codec Fields.

(** An issue moved under a path. *)
Definition at_path (p : list string) (i : ZodIssue) : ZodIssue :=
  {| path := (p ++ path i)%list; message := message i |}.

(** A schema whose issues at a path are its issues at the root, moved. *)
Definition relocatable_at {A} (schema : ZodType A) : Prop :=
  forall p v, issues (schema p v) = map (at_path p) (issues (schema [] v)).

(** A field, and the issues its constraint raises on a value taken by
    itself, their paths relative to the field. *)
Record Constraint := {
  c_path : list string;
  c_issues : JsVal -> list ZodIssue
}.

(** A field that holds further fields: absent, or an object. *)
Definition object_issues (v : JsVal) : list ZodIssue :=
  match v with
  | JUndefined | JObj _ => []
  | _ => [{| path := []; message := invalid_type "object" v |}]
  end.

(** The elements of a list with their indices. *)
Definition indexed {A} (from : nat) (l : list A) : list (nat * A) :=
  combine (seq from (List.length l)) l.

(** [tags]: absent, or a list of strings (a string stands for the list of
    its comma-separated parts); every element that is not a string is an
    issue of its own, at its index. *)
Definition tags_issues (v : JsVal) : list ZodIssue :=
  match tags_preprocess v with
  | JUndefined => []
  | JArr items =>
      flat_map (fun ix => issues (z_string [Number_toString (Z.of_nat (fst ix))] (snd ix)))
               (indexed 0 items)
  | w => [{| path := []; message := invalid_type "array" w |}]
  end.

Definition whole : Constraint := {| c_path := []; c_issues := object_issues |}.

(** A field whose value is checked by [schema] alone. *)
Definition leaf {A} (key : string) (schema : ZodType A) : Constraint :=
  {| c_path := [key]; c_issues := fun v => issues (schema [] v) |}.

(** The constraints of the fields of an object held under [key]. *)
Definition under (key : string) (cs : list Constraint) : list Constraint :=
  map (fun c => {| c_path := key :: c_path c; c_issues := c_issues c |}) cs.

(** The issues of the fields [cs] of the value [v] found at path [p]: each
    field that can be reached (every step on the way is an object) raises
    the issues of its own constraint. *)
Definition issues_under (cs : list Constraint) (p : list string) (v : JsVal)
  : list ZodIssue :=
  flat_map (fun c =>
              match value_at v (c_path c) with
              | Some w => map (at_path (p ++ c_path c)%list) (c_issues c w)
              | None => []
              end) cs.

Section Environment.

Variable SpanType_values : list string.
Variable Date_parse_other : string -> option Z.

Definition RANGE : list Constraint :=
  [ whole;
    leaf "start" (optional_date Date_parse_other);
    leaf "end" (optional_date Date_parse_other) ].

Definition PAGINATION : list Constraint :=
  [ whole;
    leaf "page" (z_optional (z_coerce_number [check_int; check_min 0]));
    leaf "perPage" (z_optional (z_coerce_number [check_int; check_min 1])) ].

Definition ORDER_BY : list Constraint :=
  [ whole;
    leaf "field" (z_optional tracesOrderByFieldSchema);
    leaf "direction" (z_optional sortDirectionSchema) ].

Definition FILTER_LEAVES : list Constraint :=
  [ leaf "spanType" (z_optional (spanTypeSchema SpanType_values));
    leaf "entityType" (z_optional spanEntityTypeSchema);
    leaf "entityId" (z_optional z_string);
    leaf "entityName" (z_optional z_string);
    leaf "userId" (z_optional z_string);
    leaf "organizationId" (z_optional z_string);
    leaf "resourceId" (z_optional z_string);
    leaf "runId" (z_optional z_string);
    leaf "sessionId" (z_optional z_string);
    leaf "threadId" (z_optional z_string);
    leaf "requestId" (z_optional z_string);
    leaf "environment" (z_optional z_string);
    leaf "source" (z_optional z_string);
    leaf "serviceName" (z_optional z_string);
    leaf "deploymentId" (z_optional z_string);
    leaf "metadata" (z_optional z_record_unknown);
    {| c_path := ["tags"]; c_issues := tags_issues |};
    leaf "scope" (z_optional z_record_unknown);
    leaf "versionInfo" (z_optional z_record_unknown);
    leaf "status" (z_optional spanStatusSchema);
    leaf "hasChildError" (z_preprocess hasChildError_preprocess (z_optional z_boolean)) ].

Definition FILTERS : list Constraint :=
  (whole :: under "startedAt" RANGE ++ under "endedAt" RANGE ++ FILTER_LEAVES)%list.

(** Every field of [tracesPaginatedArgSchema], in the order of the schema. *)
Definition CONSTRAINTS : list Constraint :=
  (under "filters" FILTERS ++ under "pagination" PAGINATION
   ++ under "orderBy" ORDER_BY)%list.

(** The complete set of field-level errors of a restructured query. *)
Definition field_errors (restructured : JsObject) : list ValidationError :=
  map error_of_issue (issues_under CONSTRAINTS [] (JObj restructured)).

End Environment.

End Violations.

Module ViolationSamples.
Import Js Codec.

(** Two tags that are not strings, a page that is not a number and an
    unreadable date. *)
Definition four_violations : QueryInput :=
  InString "tags[0][a]=1&tags[1][b]=2&page=abc&endedAt[end]=yesterday".

End ViolationSamples.

(* ===================================================================== *)
(** * Vocabulary for the laws of the store *)
(* ===================================================================== *)

Module StoreView.
Import Store.

(** Every record is filed under the id generated from its own identifiers,
    and no id is used twice. *)
Definition well_keyed (c : InMemoryObservability) : Prop :=
  NoDup (map fst c)
  /\ forall k r, In (k, r) c -> k = generateId (traceId r) (spanId r).

(** The identifiers [validateCreateSpan] lets through. *)
Definition valid_ids (span : CreateSpanRecord) : bool :=
  truthy_str (c_spanId span) && truthy_str (c_traceId span).

(** What [validateCreateSpan] throws for a record it refuses. *)
Definition create_error (span : CreateSpanRecord) : MastraError :=
  if truthy_str (c_spanId span) then trace_id_required else span_id_required.

(** The record belongs to one of the traces. *)
Definition in_traces (traceIds : list string) (r : SpanRecord) : bool :=
  existsb (String.eqb (traceId r)) traceIds.

(** Ordered as [getTrace] sorts: by [startedAt], earliest first. *)
Definition by_startedAt (a b : SpanRecord) : Prop :=
  startedAt (data a) <= startedAt (data b).

(** The spans of a trace held by the collection, in insertion order. *)
Definition spans_of (traceId_ : string) (c : InMemoryObservability) : list SpanRecord :=
  filter (fun s => (traceId s =? traceId_)%string) (Map_values c).

(** [start <= startedAt <= end], an absent bound not constraining. *)
Definition within (range : option DateRange) (s : SpanRecord) : Prop :=
  match range with
  | Some r =>
      match dr_start r with Some d => d <= startedAt (data s) | None => True end
      /\ match dr_end r with Some d => startedAt (data s) <= d | None => True end
  | None => True
  end.

End StoreView.

Module StoreLawSamples.
Import Store StoreSamples.

(** Two spans of one trace, a child started before its root, and a span of
    another trace. *)
Definition early_child : SpanRecord :=
  {| traceId := "t1"; spanId := "s2";
     data := merge_updates blank_data
       {| u_parentSpanId := Some (Some "s1"); u_name := None; u_scope := None;
          u_spanType := None; u_entityType := None; u_entityId := None;
          u_entityName := None; u_userId := None; u_organizationId := None;
          u_resourceId := None; u_runId := None; u_sessionId := None;
          u_threadId := None; u_requestId := None; u_environment := None;
          u_source := None; u_serviceName := None; u_deploymentId := None;
          u_versionInfo := None; u_attributes := None; u_metadata := None;
          u_tags := None; u_links := None; u_input := None; u_output := None;
          u_error := None; u_startedAt := Some 500; u_endedAt := None;
          u_isEvent := None |};
     createdAt := 1000; updatedAt := Some 1000 |}.

Definition three_spans : InMemoryObservability :=
  [ stored (root_span "t1" "s1" blank_data);
    stored early_child;
    stored (root_span "t2" "s1" blank_data) ].

Definition update_of (t s : string) : UpdateParams :=
  {| p_spanId := s; p_traceId := t; p_updates := no_updates |}.

Definition new_span (t s : option string) : CreateSpanRecord :=
  {| c_traceId := t; c_spanId := s; c_data := blank_data |}.

Definition first_page (n : Z) : TracesPaginatedArg :=
  {| filters := None;
     pagination := Some {| dateRange := None; page := Some 0; perPage := Some n |} |}.

End StoreLawSamples.

(* ===================================================================== *)
(** * The JavaScript client: the path [getTraces] requests *)
(* ===================================================================== *)

Module Client.
Import Js Codec.

Definition traces_path : string := "/api/observability/traces".

(** The argument of [this.request] in [getTraces]:
    [`/api/observability/traces${queryString ? `?${queryString}` : ''}`]. *)
Definition getTraces_path (params : TracesPaginatedArg) : string :=
  let queryString := serializeTracesParams params in
  traces_path ++ (if (queryString =? "")%string then "" else "?" ++ queryString).

End Client.

(* ===================================================================== *)
(** * The record input of [parseTracesQueryParams] *)
(* ===================================================================== *)

Module FormView.
Import Js Codec.

(** The characters the form serializer writes: the ones it leaves as they
    are, [+] for a space and [%] of an escape. *)
Definition form_emitted (c : ascii) : bool :=
  form_safe c || Ascii.eqb c "+" || Ascii.eqb c "%".

(** A record whose values are single strings. *)
Definition string_record (pairs : list (string * string)) : list (string * ParamValue) :=
  map (fun kv => (fst kv, PString (snd kv))) pairs.

End FormView.

Module CodecLawSamples.
Import Js Codec.

(** A parsed query with a parameter the codec does not know. *)
Definition with_unknown : JsObject := [("page", JStr "1"); ("color", JStr "red")].
Definition without_unknown : JsObject := [("page", JStr "1")].

Definition bad_boolean : QueryInput := InString "hasChildError=maybe".
Definition bad_date : QueryInput := InString "endedAt[start]=yesterday".
Definition third_page : QueryInput := InString "page=2&perPage=25".

(** A query with a malformed boolean and a malformed date. *)
Definition two_malformed : QueryInput :=
  InString "hasChildError=maybe&endedAt[start]=yesterday".

End CodecLawSamples.

(* ===================================================================== *)
(** * The legacy revision of the codec: [transformQueryParams]

    The earlier revision of [schemas/observability.ts] reads a record of
    raw query parameters with a loop of its own, without [qs].  Strings
    stand for their UTF-8 bytes.  The function builds plain data; a call
    that assigns to a built-in object or changes the prototype of an object
    it built is followed no further ([Outside]). *)
(* ===================================================================== *)

Module Legacy.
Import Js.

(** The values [transformQueryParams] stores.  A number is what [parseInt]
    returned ([-0] is not told from [0]). *)
Inductive Val : Type :=
| VStr (s : string)
| VNum (n : JsNumber)
| VBool (b : bool)
| VDate (t : Z)
| VArr (items : list Val)
| VObj (props : list (string * Val)).

Inductive Outcome (A : Type) : Type :=
| Built (a : A)
| ThrowsTypeError
| Outside.
Arguments Built {A} _.
Arguments ThrowsTypeError {A}.
Arguments Outside {A}.

(** ** Own properties in enumeration order *)

(** The array index a property key denotes, if it is one: the canonical
    decimal form of an integer below [2^32 - 1]. *)
Definition array_index (key : string) : option Z :=
  if all_chars is_digit key && negb (key =? "")%string
     && (Number_toString (digits_value key) =? key)%string
     && (digits_value key <? 4294967295)
  then Some (digits_value key) else None.

Fixpoint lookup {A} (obj : list (string * A)) (key : string) : option A :=
  match obj with
  | [] => None
  | (k, v) :: rest => if (k =? key)%string then Some v else lookup rest key
  end.

Fixpoint replace {A} (obj : list (string * A)) (key : string) (v : A)
  : list (string * A) :=
  match obj with
  | [] => []
  | (k, w) :: rest =>
      if (k =? key)%string then (k, v) :: rest else (k, w) :: replace rest key v
  end.

(** A new array-index key goes among the index keys, in ascending order. *)
Fixpoint insert_index {A} (obj : list (string * A)) (key : string) (n : Z) (v : A)
  : list (string * A) :=
  match obj with
  | [] => [(key, v)]
  | (k, w) :: rest =>
      match array_index k with
      | Some m => if m <? n then (k, w) :: insert_index rest key n v
                  else (key, v) :: obj
      | None => (key, v) :: obj
      end
  end.

(** [obj[key] = v] on a plain object, for a key other than [__proto__]: an
    existing property keeps its place; a new one is enumerated after the
    others, array indices first. *)
Definition own_set {A} (obj : list (string * A)) (key : string) (v : A)
  : list (string * A) :=
  match lookup obj key with
  | Some _ => replace obj key v
  | None =>
      match array_index key with
      | Some n => insert_index obj key n v
      | None => (obj ++ [(key, v)])%list
      end
  end.

(** [!!v]. *)
Definition truthy (v : option Val) : bool :=
  match v with
  | None => false
  | Some (VStr s) => negb (s =? "")%string
  | Some (VNum (NInt z)) => negb (z =? 0)
  | Some (VNum NNaN) => false
  | Some (VNum _) => true
  | Some (VBool b) => b
  | Some (VDate _) | Some (VArr _) | Some (VObj _) => true
  end.

(** ** White space and [parseInt] *)

(** The two-byte and three-byte white space of [StrWhiteSpaceChar]:
    U+00A0; U+1680, U+2000 to U+200A, U+2028, U+2029, U+202F, U+205F,
    U+3000 and U+FEFF. *)
Definition ws2 (a b : ascii) : bool :=
  (nat_of_ascii a =? 194)%nat && (nat_of_ascii b =? 160)%nat.

Definition ws3 (a b c : ascii) : bool :=
  let x := nat_of_ascii a in
  let y := nat_of_ascii b in
  let z := nat_of_ascii c in
  ((x =? 225)%nat && (y =? 154)%nat && (z =? 128)%nat)
  || ((x =? 226)%nat && (y =? 128)%nat
      && (((128 <=? z)%nat && (z <=? 138)%nat)
          || (z =? 168)%nat || (z =? 169)%nat || (z =? 175)%nat))
  || ((x =? 226)%nat && (y =? 129)%nat && (z =? 159)%nat)
  || ((x =? 227)%nat && (y =? 128)%nat && (z =? 128)%nat)
  || ((x =? 239)%nat && (y =? 187)%nat && (z =? 191)%nat).

(** The string without its leading white space; with [fwd] unset the
    string is read backwards, its bytes in reverse. *)
Fixpoint skip_space (fwd : bool) (s : string) : string :=
  match s with
  | EmptyString => s
  | String a r1 =>
      if is_space a then skip_space fwd r1
      else
        match r1 with
        | EmptyString => s
        | String b r2 =>
            if (if fwd then ws2 a b else ws2 b a) then skip_space fwd r2
            else
              match r2 with
              | EmptyString => s
              | String c r3 =>
                  if (if fwd then ws3 a b c else ws3 c b a)
                  then skip_space fwd r3 else s
              end
        end
  end.

(** [s.trim()]. *)
Definition String_trim (s : string) : string :=
  string_rev (skip_space false (string_rev (skip_space true s))).

(** The binary64 number nearest to a natural number, ties to even. *)
Definition nearest_binary64 (neg : bool) (m : Z) : JsNumber :=
  if m <? 2 ^ 53 then NInt (if neg then - m else m)
  else
    let k := Z.log2 m - 52 in
    let q := m / 2 ^ k in
    let r := m mod 2 ^ k in
    let half := 2 ^ (k - 1) in
    let q' := if (half <? r) || ((r =? half) && Z.odd q) then q + 1 else q in
    let v := q' * 2 ^ k in
    if 2 ^ 1024 <=? v then NInf neg else NInt (if neg then - v else v).

(** [parseInt(s, 10)]: white space, an optional sign, then the longest run
    of decimal digits, rounded to a binary64 number; [NaN] without a digit. *)
Definition parseInt (s : string) : JsNumber :=
  let t := skip_space true s in
  let (neg, body) :=
    match t with
    | String "-" r => (true, r)
    | String "+" r => (false, r)
    | _ => (false, t)
    end in
  match fst (span_digits body) with
  | EmptyString => NNaN
  | d => nearest_binary64 neg (digits_value d)
  end.

Definition isNaN (n : JsNumber) : bool :=
  match n with
  | NNaN => true
  | _ => false
  end.

(** ** [transformQueryParams] *)

(** [filters], [pagination] and [nestedObjects] of the loop. *)
Record Acc := {
  filters : list (string * Val);
  pagination : list (string * Val);
  nestedObjects : list (string * list (string * string))
}.

Definition empty_acc : Acc :=
  {| filters := []; pagination := []; nestedObjects := [] |}.

Definition with_filters (acc : Acc) (f : list (string * Val)) : Acc :=
  {| filters := f; pagination := pagination acc; nestedObjects := nestedObjects acc |}.

Definition with_pagination (acc : Acc) (p : list (string * Val)) : Acc :=
  {| filters := filters acc; pagination := p; nestedObjects := nestedObjects acc |}.

Definition with_nestedObjects (acc : Acc) (n : list (string * list (string * string)))
  : Acc :=
  {| filters := filters acc; pagination := pagination acc; nestedObjects := n |}.

(** [val] of an entry the loop does not skip:
    [if (value === undefined || value === '') continue;
     const val = Array.isArray(value) ? value[0] : value;
     if (val === undefined) continue;]. *)
Definition first_value (value : Codec.ParamValue) : option string :=
  match value with
  | Codec.PUndefined => None
  | Codec.PString s => if (s =? "")%string then None else Some s
  | Codec.PArray [] => None
  | Codec.PArray (v :: _) => Some v
  end.

(** [val.split(',').map(t => t.trim()).filter(t => t !== '')]. *)
Definition split_tags (val : string) : list string :=
  filter (fun t => negb (t =? "")%string) (map String_trim (split "," val)).

Section Environment.
Variable Date_parse_other : string -> option Z.

(** The [dateRange] branch.  The module is strict code: assigning a
    property to the string an earlier [dateRange] parameter left in
    [filters] throws, unless the property is [__proto__], whose setter
    ignores a receiver that is not an object; on the range object
    [__proto__] changes the prototype. *)
Definition set_dateRange (acc : Acc) (nestedKey val : string) : Outcome Acc :=
  let filters1 :=
    if truthy (lookup (filters acc) "dateRange") then filters acc
    else own_set (filters acc) "dateRange" (VObj []) in
  match Codec.Date_parse Date_parse_other val with
  | None => Built (with_filters acc filters1)
  | Some date =>
      match lookup filters1 "dateRange" with
      | Some (VObj range) =>
          if (nestedKey =? "__proto__")%string then Outside
          else Built (with_filters acc
                        (own_set filters1 "dateRange"
                           (VObj (own_set range nestedKey (VDate date)))))
      | Some (VStr _) =>
          if (nestedKey =? "__proto__")%string then Built (with_filters acc filters1)
          else ThrowsTypeError
      | _ => Outside
      end
  end.

(** The other dotted keys.  A prefix that names a property of
    [Object.prototype] finds that property in [nestedObjects] and assigns
    to it; assigning a string to [__proto__] does nothing. *)
Definition set_nested (acc : Acc) (prefix nestedKey val : string) : Outcome Acc :=
  if Qs.on_prototype prefix then Outside
  else
    let nested :=
      match lookup (nestedObjects acc) prefix with
      | Some nested => nested
      | None => []
      end in
    let nested :=
      if (nestedKey =? "__proto__")%string then nested
      else own_set nested nestedKey val in
    Built (with_nestedObjects acc (own_set (nestedObjects acc) prefix nested)).

(** The body of the loop for one entry of [Object.entries(params)]. *)
Definition transform_entry (acc : Acc) (entry : string * Codec.ParamValue)
  : Outcome Acc :=
  let (key, value) := entry in
  match first_value value with
  | None => Built acc
  | Some val =>
      if (key =? "page")%string then
        let num := parseInt val in
        Built (if isNaN num then acc
               else with_pagination acc (own_set (pagination acc) "page" (VNum num)))
      else if (key =? "perPage")%string then
        let num := parseInt val in
        Built (if isNaN num then acc
               else with_pagination acc (own_set (pagination acc) "perPage" (VNum num)))
      else if (key =? "tags")%string then
        Built (with_filters acc
                 (own_set (filters acc) "tags" (VArr (map VStr (split_tags val)))))
      else if (key =? "hasChildError")%string then
        Built (if (val =? "true")%string
               then with_filters acc (own_set (filters acc) "hasChildError" (VBool true))
               else if (val =? "false")%string
               then with_filters acc (own_set (filters acc) "hasChildError" (VBool false))
               else acc)
      else if negb (lacks "." key) then
        let parts := split "." key in
        let prefix := hd "" parts in
        let nestedKey := join "." (tl parts) in
        if (prefix =? "dateRange")%string then set_dateRange acc nestedKey val
        else set_nested acc prefix nestedKey val
      else
        Built (if (key =? "__proto__")%string then acc
               else with_filters acc (own_set (filters acc) key (VStr val)))
  end.

Fixpoint transform_entries (entries : list (string * Codec.ParamValue)) (acc : Acc)
  : Outcome Acc :=
  match entries with
  | [] => Built acc
  | entry :: rest =>
      match transform_entry acc entry with
      | Built acc' => transform_entries rest acc'
      | ThrowsTypeError => ThrowsTypeError
      | Outside => Outside
      end
  end.

(** [for (const [prefix, nested] of Object.entries(nestedObjects))
     filters[prefix] = nested;]. *)
Definition merge_nested (acc : Acc) : list (string * Val) :=
  fold_left
    (fun f pn => own_set f (fst pn)
                   (VObj (map (fun kv => (fst kv, VStr (snd kv))) (snd pn))))
    (nestedObjects acc) (filters acc).

(** [transformQueryParams] on the entries of [params]. *)
Definition transformQueryParams (entries : list (string * Codec.ParamValue))
  : Outcome (list (string * Val)) :=
  match transform_entries entries empty_acc with
  | Built acc =>
      let filters_ := merge_nested acc in
      let result : list (string * Val) := [] in
      let result :=
        if (0 <? List.length (pagination acc))%nat
        then own_set result "pagination" (VObj (pagination acc)) else result in
      let result :=
        if (0 <? List.length filters_)%nat
        then own_set result "filters" (VObj filters_) else result in
      Built result
  | ThrowsTypeError => ThrowsTypeError
  | Outside => Outside
  end.

End Environment.

End Legacy.

Module LegacySamples.
Import Codec.

(** [?status=success] and [?page=2], the parameters around the one looked at. *)
Definition status_first : list (string * ParamValue) := [("status", PString "success")].
Definition page_last : list (string * ParamValue) := [("page", PString "2")].

End LegacySamples.

(* ===================================================================== *)
(** * Properties of the in-memory store *)
(* ===================================================================== *)

Section StoreFacts.
Import Store.

(** ** The collection as a map *)

Lemma Map_get_set_same (c : InMemoryObservability) id r :
  Map_get (Map_set c id r) id = Some r.
Proof.
  induction c as [|[k v] rest IH]; simpl.
  - now rewrite String.eqb_refl.
  - destruct (k =? id)%string eqn:E; simpl; rewrite E; auto.
Qed.

Lemma Map_get_set_other (c : InMemoryObservability) id id' r :
  id <> id' -> Map_get (Map_set c id r) id' = Map_get c id'.
Proof.
  intros Hne. induction c as [|[k v] rest IH]; simpl.
  - destruct (id =? id')%string eqn:E; auto.
    apply String.eqb_eq in E. contradiction.
  - destruct (k =? id)%string eqn:E; simpl.
    + apply String.eqb_eq in E. subst k.
      destruct (id =? id')%string eqn:E'; auto.
      apply String.eqb_eq in E'. contradiction.
    + destruct (k =? id')%string; auto.
Qed.

Lemma Map_set_length_present (c : InMemoryObservability) id r old :
  Map_get c id = Some old -> List.length (Map_set c id r) = List.length c.
Proof.
  induction c as [|[k v] rest IH]; simpl; intros H.
  - discriminate.
  - destruct (k =? id)%string; simpl; auto.
Qed.

Lemma Map_set_length_absent (c : InMemoryObservability) id r :
  Map_get c id = None -> List.length (Map_set c id r) = S (List.length c).
Proof.
  induction c as [|[k v] rest IH]; simpl; intros H; auto.
  destruct (k =? id)%string; simpl; [discriminate | auto].
Qed.

(** ** [slice] *)

Lemma slice_length_le {A} (l : list A) (start end_ : Z) :
  0 <= end_ - start ->
  Z.of_nat (List.length (slice l start end_)) <= end_ - start.
Proof.
  intros Hle. unfold slice, slice_index.
  set (len := Z.of_nat (List.length l)).
  assert (Hlen : 0 <= len) by (unfold len; lia).
  rewrite length_firstn, length_skipn.
  destruct (start <? 0) eqn:Es; destruct (end_ <? 0) eqn:Ee;
    try apply Z.ltb_lt in Es; try apply Z.ltb_lt in Ee;
    try apply Z.ltb_ge in Es; try apply Z.ltb_ge in Ee; lia.
Qed.

Lemma In_firstn_inv {A} (n : nat) (l : list A) (x : A) :
  In x (firstn n l) -> In x l.
Proof.
  revert l. induction n as [|n IH]; intros [|a l] H; simpl in *;
    try contradiction.
  destruct H as [H|H]; auto.
Qed.

Lemma In_skipn_inv {A} (n : nat) (l : list A) (x : A) :
  In x (skipn n l) -> In x l.
Proof.
  revert l. induction n as [|n IH]; intros [|a l] H; simpl in *; auto.
Qed.

Lemma slice_incl {A} (l : list A) (start end_ : Z) (x : A) :
  In x (slice l start end_) -> In x l.
Proof.
  unfold slice. intros H.
  apply In_firstn_inv in H. now apply In_skipn_inv in H.
Qed.

(** What [getTracesPaginated] computes, with the state threading unfolded. *)
Lemma getTracesPaginated_eq (arg : TracesPaginatedArg) (c : InMemoryObservability) :
  getTracesPaginated arg c =
  (Returned
     ({| total := Z.of_nat (List.length (matching_root_spans arg c));
         pi_page := nullish (opt_field (pagination arg) page) 0;
         pi_perPage := nullish (opt_field (pagination arg) perPage) 10;
         hasMore :=
           nullish (opt_field (pagination arg) page) 0
             * nullish (opt_field (pagination arg) perPage) 10
             + nullish (opt_field (pagination arg) perPage) 10
           <? Z.of_nat (List.length (matching_root_spans arg c)) |},
      slice (matching_root_spans arg c)
        (nullish (opt_field (pagination arg) page) 0
           * nullish (opt_field (pagination arg) perPage) 10)
        (nullish (opt_field (pagination arg) page) 0
           * nullish (opt_field (pagination arg) perPage) 10
           + nullish (opt_field (pagination arg) perPage) 10)),
   c).
Proof. reflexivity. Qed.

Lemma returned_span_passes (arg : TracesPaginatedArg) (c c' : InMemoryObservability)
  info spans s :
  getTracesPaginated arg c = (Returned (info, spans), c') ->
  In s spans ->
  span_passes_filter (filters arg) s = true /\
  parentSpanId (data s) = None /\
  In s (Map_values c).
Proof.
  rewrite getTracesPaginated_eq. intros H Hin.
  injection H as _ Hs _. subst spans.
  apply slice_incl in Hin. unfold matching_root_spans in Hin.
  unfold filterSpansByDate in Hin. apply filter_In in Hin as [Hin _].
  unfold filterSpansByFilter in Hin. apply filter_In in Hin as [Hin Hpass].
  unfold filterForRootSpans in Hin. apply filter_In in Hin as [Hin Hroot].
  repeat split; auto.
  destruct (parentSpanId (data s)); [discriminate | reflexivity].
Qed.

End StoreFacts.

(* ===================================================================== *)
(** * The storage engine's contract *)
(* ===================================================================== *)

Section StoreContract.
Import Store StoreSamples.

(** ** Derived status *)

Lemma SpanStatus_eqb_eq (a b : SpanStatus) : SpanStatus_eqb a b = true <-> a = b.
Proof. destruct a, b; simpl; split; intros H; try reflexivity; discriminate. Qed.

Lemma status_filter_passes (st : SpanStatus) (s : SpanRecord) :
  span_passes_filter (Some (status_filter st)) s =
  SpanStatus_eqb (getSpanStatus (error_ (data s)) (endedAt (data s))) st.
Proof.
  unfold span_passes_filter, getSpanStatus; simpl.
  destruct (SpanStatus_eqb _ st); reflexivity.
Qed.

Lemma passes_implies_status (f : TracesFilter) (st : SpanStatus) (s : SpanRecord) :
  f_status f = Some st ->
  span_passes_filter (Some f) s = true ->
  getSpanStatus (error_ (data s)) (endedAt (data s)) = st.
Proof.
  intros Hst Hpass. unfold span_passes_filter in Hpass. rewrite Hst in Hpass.
  apply SpanStatus_eqb_eq. unfold getSpanStatus.
  repeat match type of Hpass with
         | (if ?b then false else _) = true =>
             destruct b eqn:?; [discriminate Hpass|]
         end.
  match goal with
  | H : negb ?x = false |- _ => apply negb_false_iff in H; exact H
  end.
Qed.

(** C2 (amended).  The status is a function of [(error, endedAt)] alone:
    "error" when [error] is truthy, otherwise "running" when [endedAt] is
    null, otherwise "success".  For every [error] value that is nullish or
    truthy this is the rule [error != null]; the two differ exactly on the
    falsy values [false], [0] and the empty string.  The status filter of
    [getTracesPaginated] keeps a span exactly when this status equals the
    requested one. *)
Theorem derived_status_rule :
  (forall err ended,
      (truthy err = true -> getSpanStatus err ended = error) /\
      (truthy err = false -> ended = None -> getSpanStatus err ended = running) /\
      (truthy err = false -> ended <> None -> getSpanStatus err ended = success) /\
      (truthy err = negb (is_nullish err) ->
       getSpanStatus err ended = spec_derivedStatus err ended)) /\
  (forall st spans,
      filterSpansByFilter spans (Some (status_filter st)) =
      filter (fun s => SpanStatus_eqb
                         (getSpanStatus (error_ (data s)) (endedAt (data s))) st)
             spans) /\
  (forall arg c c' f st info spans s,
      filters arg = Some f -> f_status f = Some st ->
      getTracesPaginated arg c = (Returned (info, spans), c') ->
      In s spans ->
      getSpanStatus (error_ (data s)) (endedAt (data s)) = st).
Proof.
  split; [|split].
  - intros err ended. unfold getSpanStatus, spec_derivedStatus.
    repeat split; intros H.
    + now rewrite H.
    + intros ->. now rewrite H.
    + intros Hne. rewrite H. destruct ended; [reflexivity | contradiction].
    + now rewrite H.
  - intros st spans. unfold filterSpansByFilter.
    apply filter_ext. intros s. apply status_filter_passes.
  - intros arg c c' f st info spans s Hf Hst Hget Hin.
    destruct (returned_span_passes _ _ _ _ _ _ Hget Hin) as [Hpass _].
    rewrite Hf in Hpass. eapply passes_implies_status; eauto.
Qed.

Lemma derived_status_rule_witness :
  getSpanStatus
    (error_ (data (root_span "t1" "root" (with_error blank_data (AObj 0)))))
    (endedAt (data (root_span "t1" "root" (with_error blank_data (AObj 0)))))
  = error.
Proof.
  apply (proj2 (proj2 derived_status_rule)
           (query (status_filter error))
           [stored (root_span "t1" "root" (with_error blank_data (AObj 0)))]
           [stored (root_span "t1" "root" (with_error blank_data (AObj 0)))]
           (status_filter error) error
           {| total := 1; pi_page := 0; pi_perPage := 10; hasMore := false |}
           [root_span "t1" "root" (with_error blank_data (AObj 0))]).
  - reflexivity.
  - reflexivity.
  - reflexivity.
  - simpl. left. reflexivity.
Defined.

(** C2 as stated fails: an [error] of [""] (or [0], or [false]) is not
    null, yet the span is not reported as "error": it is "running", and a
    query for status "error" does not return it. *)
Lemma falsy_error_is_not_status_error :
  is_nullish (AStr "") = false /\
  spec_derivedStatus (AStr "") None = error /\
  getSpanStatus (AStr "") None = running /\
  getTracesPaginated (query (status_filter error))
    [stored (root_span "t1" "root" (with_error blank_data (AStr "")))]
  = (Returned ({| total := 0; pi_page := 0; pi_perPage := 10; hasMore := false |}, []),
     [stored (root_span "t1" "root" (with_error blank_data (AStr "")))]) /\
  getTracesPaginated (query (status_filter running))
    [stored (root_span "t1" "root" (with_error blank_data (AStr "")))]
  = (Returned ({| total := 1; pi_page := 0; pi_perPage := 10; hasMore := false |},
               [root_span "t1" "root" (with_error blank_data (AStr ""))]),
     [stored (root_span "t1" "root" (with_error blank_data (AStr "")))]).
Proof. repeat split. Qed.

(** ** Pagination *)




(** ** Tag filter *)

Lemma existsb_tag_In (stags : list string) (tag : string) :
  existsb (fun t => (t =? tag)%string) stags = true <-> In tag stags.
Proof.
  rewrite existsb_exists. split.
  - intros (t & Hin & Heq). apply String.eqb_eq in Heq. now subst.
  - intros Hin. exists tag. split; auto. apply String.eqb_refl.
Qed.

Lemma passes_implies_tag (f : TracesFilter) (ftags : list string) (s : SpanRecord) :
  f_tags f = Some ftags -> ftags <> [] ->
  span_passes_filter (Some f) s = true ->
  exists stags tag, tags (data s) = Some stags /\ In tag ftags /\ In tag stags.
Proof.
  intros Hf Hne Hpass. unfold span_passes_filter in Hpass. rewrite Hf in Hpass.
  repeat match type of Hpass with
         | (if ?b then false else _) = true =>
             destruct b eqn:?; [discriminate Hpass|]
         end.
  match goal with
  | H : (0 <? Z.of_nat (List.length ftags)) && _ = false |- _ => rename H into Htag
  end.
  apply andb_false_iff in Htag. destruct Htag as [Htag|Htag].
  - destruct ftags; [contradiction | simpl in Htag; discriminate].
  - destruct (tags (data s)) as [stags|]; [|discriminate].
    apply negb_false_iff in Htag. apply existsb_exists in Htag as (tag & Hin & Hex).
    exists stags, tag. repeat split; auto. now apply existsb_tag_In.
Qed.

Lemma tags_filter_passes (ftags : list string) (s : SpanRecord) :
  ftags <> [] ->
  span_passes_filter (Some (tags_filter ftags)) s =
  match tags (data s) with
  | Some stags => existsb (fun tag => existsb (fun t => (t =? tag)%string) stags) ftags
  | None => false
  end.
Proof.
  intros Hne. unfold span_passes_filter; simpl.
  destruct ftags as [|t0 ftags]; [contradiction|].
  cbn [List.length]. replace (0 <? Z.of_nat (S (List.length ftags))) with true
    by (symmetry; apply Z.ltb_lt; lia).
  cbn [andb]. destruct (tags (data s)) as [stags|]; [|reflexivity].
  destruct (existsb _ (t0 :: ftags)); reflexivity.
Qed.

(** C4.  With a non-empty [tags] filter, every span [getTracesPaginated]
    returns carries at least one of the requested tags; a filter that sets
    only [tags] keeps a span exactly when it does.  A root span tagged
    [["a","b"]] is returned for [["b","c"]] and not for [["c","d"]]. *)
Theorem tags_filter_is_any_of :
  (forall arg c c' f ftags info spans s,
      filters arg = Some f -> f_tags f = Some ftags -> ftags <> [] ->
      getTracesPaginated arg c = (Returned (info, spans), c') ->
      In s spans ->
      exists stags tag, tags (data s) = Some stags /\ In tag ftags /\ In tag stags) /\
  (forall ftags s, ftags <> [] ->
      (span_passes_filter (Some (tags_filter ftags)) s = true <->
       exists stags tag, tags (data s) = Some stags /\ In tag ftags /\ In tag stags)) /\
  fst (getTracesPaginated (query (tags_filter ["b"; "c"]))
         [stored (root_span "t1" "root" (with_tags blank_data (Some ["a"; "b"])))])
  = Returned ({| total := 1; pi_page := 0; pi_perPage := 10; hasMore := false |},
              [root_span "t1" "root" (with_tags blank_data (Some ["a"; "b"]))]) /\
  fst (getTracesPaginated (query (tags_filter ["c"; "d"]))
         [stored (root_span "t1" "root" (with_tags blank_data (Some ["a"; "b"])))])
  = Returned ({| total := 0; pi_page := 0; pi_perPage := 10; hasMore := false |}, []).
Proof.
  split; [|split; [|split; reflexivity]].
  - intros arg c c' f ftags info spans s Hf Ht Hne Hget Hin.
    destruct (returned_span_passes _ _ _ _ _ _ Hget Hin) as [Hpass _].
    rewrite Hf in Hpass. eapply passes_implies_tag; eauto.
  - intros ftags s Hne. rewrite tags_filter_passes by assumption. split.
    + intros H. destruct (tags (data s)) as [stags|]; [|discriminate].
      apply existsb_exists in H as (tag & Hin & Hex).
      exists stags, tag. repeat split; auto. now apply existsb_tag_In.
    + intros (stags & tag & Hs & Hin & Hin'). rewrite Hs.
      apply existsb_exists. exists tag. split; auto. now apply existsb_tag_In.
Qed.

Lemma tags_filter_is_any_of_witness :
  exists stags tag,
    tags (data (root_span "t1" "root" (with_tags blank_data (Some ["a"; "b"])))) = Some stags /\
    In tag ["b"; "c"] /\ In tag stags.
Proof.
  apply (proj1 tags_filter_is_any_of
           (query (tags_filter ["b"; "c"]))
           [stored (root_span "t1" "root" (with_tags blank_data (Some ["a"; "b"])))]
           [stored (root_span "t1" "root" (with_tags blank_data (Some ["a"; "b"])))]
           (tags_filter ["b"; "c"]) ["b"; "c"]
           {| total := 1; pi_page := 0; pi_perPage := 10; hasMore := false |}
           [root_span "t1" "root" (with_tags blank_data (Some ["a"; "b"]))]).
  - reflexivity.
  - reflexivity.
  - discriminate.
  - reflexivity.
  - simpl. left. reflexivity.
Defined.

(** ** Key/value subset filters *)

Lemma strict_eq_true (a b : Any) : strict_eq a b = true -> a = b.
Proof.
  destruct a, b; simpl; intros H; try discriminate; try reflexivity.
  - apply Bool.eqb_prop in H. now subst.
  - apply Z.eqb_eq in H. now subst.
  - apply String.eqb_eq in H. now subst.
  - apply Nat.eqb_eq in H. now subst.
Qed.

Lemma map_get_absent (m : JsMap) (k : string) :
  has_key m k = false -> map_get m k = AUndefined.
Proof.
  induction m as [|[k' v'] rest IH]; simpl; intros H; auto.
  apply orb_false_iff in H as [H1 H2]. rewrite H1. auto.
Qed.

Lemma jsonb_matches_spec (m : JsMap) (spanMap : option JsMap) :
  jsonb_matches m spanMap = true <->
  forall k v, In (k, v) m -> strict_eq (opt_get spanMap k) v = true.
Proof.
  unfold jsonb_matches. rewrite forallb_forall. split.
  - intros H k v Hin. apply (H (k, v) Hin).
  - intros H [k v] Hin. apply (H k v Hin).
Qed.

Lemma jsonb_matches_defined (m : JsMap) (spanMap : option JsMap) :
  (forall k, ~ In (k, AUndefined) m) ->
  (jsonb_matches m spanMap = true <-> spec_subset_match m spanMap).
Proof.
  intros Hdef. rewrite jsonb_matches_spec. unfold spec_subset_match. split.
  - intros H k v Hin. specialize (H k v Hin).
    destruct spanMap as [sm|]; cbn [opt_get] in H.
    + exists sm. repeat split; auto.
      destruct (has_key sm k) eqn:Hk; auto.
      rewrite (map_get_absent _ _ Hk) in H. apply strict_eq_true in H.
      subst v. exfalso. apply (Hdef k Hin).
    + apply strict_eq_true in H. subst v. exfalso. apply (Hdef k Hin).
  - intros H k v Hin. destruct (H k v Hin) as (sm & -> & _ & Heq). exact Heq.
Qed.

Lemma metadata_filter_passes (m : JsMap) (s : SpanRecord) :
  span_passes_filter (Some (metadata_filter m)) s = jsonb_matches m (metadata (data s)).
Proof.
  unfold span_passes_filter; simpl. now destruct (jsonb_matches m _).
Qed.

Lemma scope_filter_passes (m : JsMap) (s : SpanRecord) :
  span_passes_filter (Some (scope_filter m)) s = jsonb_matches m (scope (data s)).
Proof.
  unfold span_passes_filter; simpl. now destruct (jsonb_matches m _).
Qed.

Lemma versionInfo_filter_passes (m : JsMap) (s : SpanRecord) :
  span_passes_filter (Some (versionInfo_filter m)) s = jsonb_matches m (versionInfo (data s)).
Proof.
  unfold span_passes_filter; simpl. now destruct (jsonb_matches m _).
Qed.

Lemma passes_implies_jsonb (f : TracesFilter) (s : SpanRecord) :
  span_passes_filter (Some f) s = true ->
  (forall m, f_metadata f = Some m -> jsonb_matches m (metadata (data s)) = true) /\
  (forall m, f_scope f = Some m -> jsonb_matches m (scope (data s)) = true) /\
  (forall m, f_versionInfo f = Some m -> jsonb_matches m (versionInfo (data s)) = true).
Proof.
  intros Hpass. unfold span_passes_filter in Hpass.
  repeat match type of Hpass with
         | (if ?b then false else _) = true =>
             destruct b eqn:?; [discriminate Hpass|]
         end.
  repeat split; intros m Hm;
    match goal with
    | H : match ?x with Some _ => _ | None => false end = false, Hm : ?x = Some _ |- _ =>
        rewrite Hm in H; now apply negb_false_iff in H
    end.
Qed.

(** C5 (amended).  For each of [metadata], [scope] and [versionInfo]: a span
    matches exactly when, for every key/value pair of the filter map, reading
    that key from the span's map (a null map or a missing key reads as
    [undefined]) yields a strictly equal ([===]) value.  Whenever no
    requested value is [undefined], this says the span's map contains every
    requested key with an exactly-equal value, a missing key meaning no
    match.  A filter [{"x":"1"}] matches [{"x":"1","y":"2"}] and matches
    neither [{"x":"2"}] nor [{}]. *)
Theorem subset_filter_is_strict_match :
  (forall arg c c' f info spans s,
      filters arg = Some f ->
      getTracesPaginated arg c = (Returned (info, spans), c') ->
      In s spans ->
      (forall m k v, f_metadata f = Some m -> In (k, v) m ->
         strict_eq (opt_get (metadata (data s)) k) v = true) /\
      (forall m k v, f_scope f = Some m -> In (k, v) m ->
         strict_eq (opt_get (scope (data s)) k) v = true) /\
      (forall m k v, f_versionInfo f = Some m -> In (k, v) m ->
         strict_eq (opt_get (versionInfo (data s)) k) v = true)) /\
  (forall m s,
      (span_passes_filter (Some (metadata_filter m)) s = true <->
       forall k v, In (k, v) m -> strict_eq (opt_get (metadata (data s)) k) v = true) /\
      (span_passes_filter (Some (scope_filter m)) s = true <->
       forall k v, In (k, v) m -> strict_eq (opt_get (scope (data s)) k) v = true) /\
      (span_passes_filter (Some (versionInfo_filter m)) s = true <->
       forall k v, In (k, v) m -> strict_eq (opt_get (versionInfo (data s)) k) v = true)) /\
  (forall m s, (forall k, ~ In (k, AUndefined) m) ->
      (span_passes_filter (Some (metadata_filter m)) s = true <->
       spec_subset_match m (metadata (data s))) /\
      (span_passes_filter (Some (scope_filter m)) s = true <->
       spec_subset_match m (scope (data s))) /\
      (span_passes_filter (Some (versionInfo_filter m)) s = true <->
       spec_subset_match m (versionInfo (data s)))) /\
  span_passes_filter (Some (metadata_filter [("x", AStr "1")]))
    (root_span "t1" "root"
       (with_metadata blank_data (Some [("x", AStr "1"); ("y", AStr "2")]))) = true /\
  span_passes_filter (Some (metadata_filter [("x", AStr "1")]))
    (root_span "t1" "root" (with_metadata blank_data (Some [("x", AStr "2")]))) = false /\
  span_passes_filter (Some (metadata_filter [("x", AStr "1")]))
    (root_span "t1" "root" (with_metadata blank_data (Some []))) = false.
Proof.
  split; [|split; [|split; [|repeat split]]].
  - intros arg c c' f info spans s Hf Hget Hin.
    destruct (returned_span_passes _ _ _ _ _ _ Hget Hin) as [Hpass _].
    rewrite Hf in Hpass.
    destruct (passes_implies_jsonb _ _ Hpass) as (Hm & Hs & Hv).
    repeat split; intros m k v Hfm Hkv.
    + exact (proj1 (jsonb_matches_spec _ _) (Hm m Hfm) k v Hkv).
    + exact (proj1 (jsonb_matches_spec _ _) (Hs m Hfm) k v Hkv).
    + exact (proj1 (jsonb_matches_spec _ _) (Hv m Hfm) k v Hkv).
  - intros m s.
    rewrite metadata_filter_passes, scope_filter_passes, versionInfo_filter_passes.
    repeat split; apply jsonb_matches_spec.
  - intros m s Hdef.
    rewrite metadata_filter_passes, scope_filter_passes, versionInfo_filter_passes.
    repeat split; apply jsonb_matches_defined; assumption.
Qed.

Lemma subset_filter_is_strict_match_witness :
  span_passes_filter (Some (metadata_filter [("x", AStr "1")]))
    (root_span "t1" "root"
       (with_metadata blank_data (Some [("x", AStr "1"); ("y", AStr "2")]))) = true <->
  spec_subset_match [("x", AStr "1")]
    (metadata (data (root_span "t1" "root"
       (with_metadata blank_data (Some [("x", AStr "1"); ("y", AStr "2")]))))).
Proof.
  apply (proj1 (proj1 (proj2 (proj2 subset_filter_is_strict_match))
                  [("x", AStr "1")]
                  (root_span "t1" "root"
                     (with_metadata blank_data (Some [("x", AStr "1"); ("y", AStr "2")])))
                  ltac:(intros k [H|[]]; discriminate H))).
Defined.

(** C5 as stated fails: a filter value of [undefined] matches a span whose
    map lacks the key, although a missing key is said to mean no match. *)
Lemma undefined_filter_value_matches_missing_key :
  has_key [] "x" = false /\
  (spec_subset_match [("x", AUndefined)] (Some []) -> False) /\
  span_passes_filter (Some (metadata_filter [("x", AUndefined)]))
    (root_span "t1" "root" (with_metadata blank_data (Some []))) = true /\
  fst (getTracesPaginated (query (metadata_filter [("x", AUndefined)]))
         [stored (root_span "t1" "root" (with_metadata blank_data (Some [])))])
  = Returned ({| total := 1; pi_page := 0; pi_perPage := 10; hasMore := false |},
              [root_span "t1" "root" (with_metadata blank_data (Some []))]).
Proof.
  repeat split.
  intros H. destruct (H "x" AUndefined (or_introl eq_refl)) as (sm & Hsm & Hk & _).
  injection Hsm as <-. discriminate Hk.
Qed.

(** ** [createSpan] *)

Lemma truthy_str_false_iff (o : option string) :
  truthy_str o = false <-> id_missing o.
Proof.
  unfold truthy_str, id_missing. destruct o as [s|].
  - rewrite negb_false_iff, String.eqb_eq. split.
    + intros ->. now right.
    + intros [H|H]; [discriminate | now injection H].
  - split; auto.
Qed.

Lemma createSpan_valid (now : Date) (span : CreateSpanRecord)
  (c : InMemoryObservability) (t s : string) :
  c_traceId span = Some t -> c_spanId span = Some s -> t <> "" -> s <> "" ->
  createSpan now span c =
  (Returned tt,
   Map_set c (generateId t s)
     {| traceId := t; spanId := s; data := c_data span;
        createdAt := now; updatedAt := Some now |}).
Proof.
  intros Ht Hs Hnt Hns.
  unfold createSpan, validateCreateSpan, bind. rewrite Ht, Hs. simpl.
  apply String.eqb_neq in Hnt, Hns. rewrite Hnt, Hns. reflexivity.
Qed.

(** C10.  [createSpan] throws exactly when [spanId] or [traceId] is missing
    (absent or empty), and then leaves the collection as it was.  Otherwise
    it returns, whether or not the identifier is already stored: the record
    under [generateId] is the new one, with [createdAt] and [updatedAt] set
    to the current time, and an already-stored record is replaced in place. *)
Theorem createSpan_throws_iff_id_missing
  (now : Date) (span : CreateSpanRecord) (c : InMemoryObservability) :
  ((exists e, fst (createSpan now span c) = Thrown e) <->
   (id_missing (c_spanId span) \/ id_missing (c_traceId span))) /\
  (forall e, fst (createSpan now span c) = Thrown e ->
             snd (createSpan now span c) = c) /\
  (forall t s,
      c_traceId span = Some t -> c_spanId span = Some s -> t <> "" -> s <> "" ->
      fst (createSpan now span c) = Returned tt /\
      Map_get (snd (createSpan now span c)) (generateId t s) =
        Some {| traceId := t; spanId := s; data := c_data span;
                createdAt := now; updatedAt := Some now |} /\
      (forall old, Map_get c (generateId t s) = Some old ->
         List.length (snd (createSpan now span c)) = List.length c) /\
      (forall id', id' <> generateId t s ->
         Map_get (snd (createSpan now span c)) id' = Map_get c id')).
Proof.
  split; [|split].
  - unfold createSpan, validateCreateSpan, bind.
    rewrite <- !truthy_str_false_iff.
    destruct (truthy_str (c_spanId span)); simpl.
    + destruct (truthy_str (c_traceId span)); simpl.
      * split; [intros [e He]; discriminate | intros [H|H]; discriminate].
      * split; [auto | intros _; eexists; reflexivity].
    + split; [auto | intros _; eexists; reflexivity].
  - intros e. unfold createSpan, validateCreateSpan, bind.
    destruct (truthy_str (c_spanId span)); simpl; auto.
    destruct (truthy_str (c_traceId span)); simpl; auto.
    discriminate.
  - intros t s Ht Hs Hnt Hns.
    rewrite (createSpan_valid now span c t s Ht Hs Hnt Hns). simpl.
    repeat split.
    + apply Map_get_set_same.
    + intros old Hold. eapply Map_set_length_present; eauto.
    + intros id' Hne. apply Map_get_set_other. congruence.
Qed.

Lemma createSpan_throws_iff_id_missing_witness :
  fst (createSpan 2000
         {| c_traceId := Some "t1"; c_spanId := Some "root"; c_data := blank_data |}
         [stored (root_span "t1" "root" blank_data)]) = Returned tt /\
  Map_get
    (snd (createSpan 2000
            {| c_traceId := Some "t1"; c_spanId := Some "root"; c_data := blank_data |}
            [stored (root_span "t1" "root" blank_data)]))
    (generateId "t1" "root")
  = Some {| traceId := "t1"; spanId := "root"; data := blank_data;
            createdAt := 2000; updatedAt := Some 2000 |}.
Proof.
  destruct (proj2 (proj2 (createSpan_throws_iff_id_missing 2000
              {| c_traceId := Some "t1"; c_spanId := Some "root"; c_data := blank_data |}
              [stored (root_span "t1" "root" blank_data)]))
              "t1" "root" eq_refl eq_refl
              ltac:(discriminate) ltac:(discriminate)) as (H1 & H2 & _).
  split; assumption.
Defined.

(** ** Identifier collisions

    [generateId] joins the two identifiers with ["-"], a character either of
    them may contain, so two different pairs can share a key. *)

(** C6 at a colliding pair: the collection holds the span of the pair
    [("a-b", "c")] only; [updateSpan] for the pair [("a", "b-c")], which is not
    stored, returns normally and rewrites the record of [("a-b", "c")]. *)
Lemma updateSpan_absent_pair_collides :
  generateId "a" "b-c" = generateId "a-b" "c" /\
  (holds_pair [stored (root_span "a-b" "c" blank_data)] "a" "b-c" -> False) /\
  updateSpan 2000
    {| p_spanId := "b-c"; p_traceId := "a"; p_updates := no_updates |}
    [stored (root_span "a-b" "c" blank_data)]
  = (Returned tt,
     [("a-b-c",
       {| traceId := "a-b"; spanId := "c"; data := blank_data;
          createdAt := 1000; updatedAt := Some 2000 |})]).
Proof.
  repeat split.
  intros (r & [Hr|[]] & Ht & _). subst r. discriminate Ht.
Qed.

(** C7 at a colliding pair: after creating the span of [("a-b", "c")] and
    then the span of [("a", "b-c")], the collection holds one record, and the
    record of [("a-b", "c")] is gone. *)
Lemma createSpan_replaces_other_pair :
  run_ops
    [OpCreateSpan 1000
       {| c_traceId := Some "a-b"; c_spanId := Some "c"; c_data := blank_data |};
     OpCreateSpan 2000
       {| c_traceId := Some "a"; c_spanId := Some "b-c"; c_data := blank_data |}]
    []
  = [("a-b-c",
      {| traceId := "a"; spanId := "b-c"; data := blank_data;
         createdAt := 2000; updatedAt := Some 2000 |})] /\
  holds_pair
    (run_ops
       [OpCreateSpan 1000
          {| c_traceId := Some "a-b"; c_spanId := Some "c"; c_data := blank_data |}]
       []) "a-b" "c" /\
  (holds_pair
     (run_ops
        [OpCreateSpan 1000
           {| c_traceId := Some "a-b"; c_spanId := Some "c"; c_data := blank_data |};
         OpCreateSpan 2000
           {| c_traceId := Some "a"; c_spanId := Some "b-c"; c_data := blank_data |}]
        []) "a-b" "c" -> False).
Proof.
  split; [reflexivity|]. split.
  - eexists. split; [left; reflexivity|]. split; reflexivity.
  - intros (r & [Hr|[]] & Ht & _). subst r. discriminate Ht.
Qed.

End StoreContract.

(* ===================================================================== *)
(** * Percent-encoding round trip *)
(* ===================================================================== *)

Section StringFacts.

Lemma string_length_app (s t : string) :
  String.length (s ++ t) = (String.length s + String.length t)%nat.
Proof. induction s as [|c s IH]; simpl; auto. Qed.

Lemma string_app_assoc (s t u : string) : ((s ++ t) ++ u = s ++ (t ++ u))%string.
Proof. induction s as [|c s IH]; simpl; auto. now rewrite IH. Qed.

Lemma string_app_nil_r (s : string) : (s ++ "")%string = s.
Proof. induction s as [|c s IH]; simpl; auto. now rewrite IH. Qed.

Lemma string_app_inv_head (s t u : string) : (s ++ t = s ++ u)%string -> t = u.
Proof. induction s as [|c s IH]; simpl; auto. intros H. injection H. auto. Qed.

End StringFacts.

Section UrlFacts.
Import Js Url.

Lemma encode_cons (c : ascii) (s : string) :
  encode (String c s) =
  if unreserved c then String c (encode s) else hexTable c ++ encode s.
Proof. reflexivity. Qed.

Lemma all_chars_app P s t :
  all_chars P (s ++ t) = all_chars P s && all_chars P t.
Proof.
  induction s as [|c s IH]; simpl; auto. rewrite IH. apply andb_assoc.
Qed.

Lemma hexTable_emitted (c : ascii) : all_chars emitted (hexTable c) = true.
Proof.
  destruct c as [[] [] [] [] [] [] [] []]; reflexivity.
Qed.

Lemma encode_emitted (s : string) : all_chars emitted (encode s) = true.
Proof.
  induction s as [|c s IH]; [reflexivity|].
  rewrite encode_cons. destruct (unreserved c) eqn:E.
  - cbn [all_chars]. unfold emitted at 1. rewrite E. simpl. exact IH.
  - rewrite all_chars_app, hexTable_emitted, IH. reflexivity.
Qed.

Lemma decode_hexTable (c : ascii) (r : string) :
  unreserved c = false ->
  decodeURIComponent (hexTable c ++ r) = option_map (String c) (decodeURIComponent r).
Proof.
  destruct c as [[] [] [] [] [] [] [] []]; intros H;
    try discriminate H; reflexivity.
Qed.

Lemma decodeURIComponent_encode (s : string) :
  decodeURIComponent (encode s) = Some s.
Proof.
  induction s as [|c s IH]; [reflexivity|].
  rewrite encode_cons. destruct (unreserved c) eqn:E.
  - cbn [decodeURIComponent]. destruct (Ascii.eqb c "%") eqn:Ep.
    + apply Ascii.eqb_eq in Ep. subst c. discriminate E.
    + rewrite IH. reflexivity.
  - rewrite decode_hexTable by assumption. rewrite IH. reflexivity.
Qed.

Lemma plus_to_space_id (s : string) :
  all_chars (fun c => negb (Ascii.eqb c "+")) s = true -> plus_to_space s = s.
Proof.
  induction s as [|c s IH]; simpl; auto.
  intros H. apply andb_prop in H as [Hc Hs].
  apply negb_true_iff in Hc. rewrite Hc, IH; auto.
Qed.

Lemma all_chars_impl (P Q : ascii -> bool) (s : string) :
  (forall c, P c = true -> Q c = true) ->
  all_chars P s = true -> all_chars Q s = true.
Proof.
  intros HPQ. induction s as [|c s IH]; simpl; auto.
  intros H. apply andb_prop in H as [Hc Hs]. rewrite (HPQ c Hc), IH; auto.
Qed.

Lemma emitted_not (d : ascii) (c : ascii) :
  emitted d = false -> emitted c = true -> negb (Ascii.eqb c d) = true.
Proof.
  intros Hd Hc. apply negb_true_iff. destruct (Ascii.eqb c d) eqn:E; auto.
  apply Ascii.eqb_eq in E. subst. congruence.
Qed.

(** [utils.decode] undoes [utils.encode]. *)
Lemma decode_encode (s : string) : decode (encode s) = s.
Proof.
  unfold decode. rewrite plus_to_space_id.
  - now rewrite decodeURIComponent_encode.
  - eapply all_chars_impl; [|apply encode_emitted].
    intros c. apply (emitted_not "+"). reflexivity.
Qed.

End UrlFacts.

(* ===================================================================== *)
(** * Splitting the query string *)
(* ===================================================================== *)

Section SplitFacts.
Import Js Url Qs.

Lemma lacks_app c s t : lacks c (s ++ t) = lacks c s && lacks c t.
Proof. apply all_chars_app. Qed.

Lemma emitted_lacks (c : ascii) (s : string) :
  emitted c = false -> all_chars emitted s = true -> lacks c s = true.
Proof.
  intros Hc. apply all_chars_impl. intros a. now apply emitted_not.
Qed.

Lemma encode_lacks (c : ascii) (s : string) :
  emitted c = false -> lacks c (encode s) = true.
Proof. intros Hc. apply emitted_lacks; auto. apply encode_emitted. Qed.

Lemma split_lacks (c : ascii) (s : string) :
  lacks c s = true -> split c s = [s].
Proof.
  induction s as [|a s IH]; simpl; auto.
  intros H. apply andb_prop in H as [Ha Hs].
  apply negb_true_iff in Ha. rewrite Ha, (IH Hs). reflexivity.
Qed.

Lemma split_app_sep (c : ascii) (s t : string) :
  lacks c s = true -> split c (s ++ String c t) = s :: split c t.
Proof.
  induction s as [|a s IH]; simpl.
  - intros _. now rewrite Ascii.eqb_refl.
  - intros H. apply andb_prop in H as [Ha Hs].
    apply negb_true_iff in Ha. rewrite Ha, (IH Hs). reflexivity.
Qed.

Lemma split_join (c : ascii) (l : list string) :
  l <> [] ->
  Forall (fun s => lacks c s = true) l ->
  split c (join (String c "") l) = l.
Proof.
  intros Hne Hall. induction l as [|x l IH]; [contradiction|].
  destruct l as [|y l].
  - simpl. apply split_lacks. now inversion Hall.
  - change (join (String c "") (x :: y :: l))
      with (x ++ String c "" ++ join (String c "") (y :: l)).
    change (String c "" ++ join (String c "") (y :: l))
      with (String c (join (String c "") (y :: l))).
    inversion Hall as [|? ? Hx Hrest]; subst.
    rewrite split_app_sep by assumption.
    rewrite IH; auto. discriminate.
Qed.

Lemma prefix_head_neq (c a : ascii) (n s : string) :
  Ascii.eqb a c = false -> String.prefix (String c n) (String a s) = false.
Proof.
  intros H. simpl. destruct (ascii_dec c a) as [->|]; auto.
  rewrite Ascii.eqb_refl in H. discriminate.
Qed.

Lemma indexOf_from_lacks (c : ascii) (n s : string) (i : nat) :
  lacks c s = true -> indexOf_from (String c n) s i = None.
Proof.
  revert i. induction s as [|a s IH]; intros i H; simpl; auto.
  simpl in H. apply andb_prop in H as [Ha Hs]. apply negb_true_iff in Ha.
  destruct (ascii_dec c a) as [->|].
  - rewrite Ascii.eqb_refl in Ha. discriminate.
  - apply IH. exact Hs.
Qed.

Lemma indexOf_from_first (c : ascii) (s t : string) (i : nat) :
  lacks c s = true ->
  indexOf_from (String c "") (s ++ String c t) i = Some (i + String.length s)%nat.
Proof.
  revert i. induction s as [|a s IH]; intros i H.
  - simpl. destruct (ascii_dec c c); [|contradiction].
    replace (prefix "" t) with true by (destruct t; reflexivity).
    f_equal. lia.
  - simpl in H. apply andb_prop in H as [Ha Hs]. apply negb_true_iff in Ha.
    cbn [append indexOf_from String.length].
    rewrite prefix_head_neq by assumption.
    rewrite IH by assumption. f_equal. lia.
Qed.

Lemma take_app (s t : string) : take (String.length s) (s ++ t) = s.
Proof. induction s as [|a s IH]; simpl; [destruct t|]; auto. now rewrite IH. Qed.

Lemma drop_app (s t : string) (c : ascii) :
  drop (S (String.length s)) (s ++ String c t) = t.
Proof. induction s as [|a s IH]; simpl; auto. Qed.

(** A piece [stringify] emits parses back to its key and value. *)
Lemma parse_part_encoded (k v : string) :
  parse_part (encode k ++ "=" ++ encode v) = (k, JStr v).
Proof.
  unfold parse_part.
  assert (Hk : forall c, emitted c = false -> lacks c (encode k) = true)
    by (intros; now apply encode_lacks).
  assert (Hv : forall c, emitted c = false -> lacks c (encode v) = true)
    by (intros; now apply encode_lacks).
  unfold indexOf. rewrite indexOf_from_lacks.
  - change ("=" ++ encode v) with (String "=" (encode v)).
    rewrite indexOf_from_first by (apply Hk; reflexivity).
    cbn [Nat.add]. rewrite take_app, drop_app, !decode_encode. reflexivity.
  - rewrite lacks_app. rewrite Hk by reflexivity. simpl. apply Hv. reflexivity.
Qed.

End SplitFacts.

(* ===================================================================== *)
(** * [qs.parse] undoes [qs.stringify] on well-shaped objects *)
(* ===================================================================== *)

Section QsStringifyFacts.
Import Js Url Qs Wire.

Lemma is_string_inv (v : JsVal) : is_string v = true -> exists s, v = JStr s.
Proof. destruct v; simpl; intros H; try discriminate. eauto. Qed.

Lemma each_index_strings (root : string) (items : list JsVal) (i : nat) :
  forallb is_string items = true ->
  each_index (fun p x => stringify_value p x) root items i =
  map encode_pair (indexed_pairs root items i).
Proof.
  revert i. induction items as [|x items IH]; intros i H; [reflexivity|].
  simpl in H. apply andb_prop in H as [Hx Hrest].
  apply is_string_inv in Hx as [s ->].
  cbn [each_index indexed_pairs map is_null]. rewrite IH by assumption.
  reflexivity.
Qed.

Lemma each_property_strings (root : string) (props : JsObject) :
  forallb (fun kv => is_string (snd kv)) props = true ->
  each_property (fun p x => stringify_value p x) root props =
  map encode_pair (map (fun kv => (child_key root (fst kv), ToString (snd kv))) props).
Proof.
  induction props as [|[k x] props IH]; intros H; [reflexivity|].
  simpl in H. apply andb_prop in H as [Hx Hrest].
  apply is_string_inv in Hx as [s ->].
  cbn [each_property map is_null fst snd]. rewrite IH by assumption.
  reflexivity.
Qed.

Lemma forallb_weaken {A} (P Q : A -> bool) (l : list A) :
  (forall a, P a = true -> Q a = true) ->
  forallb P l = true -> forallb Q l = true.
Proof.
  intros HPQ. induction l as [|a l IH]; simpl; auto.
  intros H. apply andb_prop in H as [Ha Hl]. rewrite (HPQ a Ha), IH; auto.
Qed.

Lemma stringify_value_pairs (root : string) (v : JsVal) :
  wire_value_ok v = true ->
  stringify_value root v = map encode_pair (value_pairs root v).
Proof.
  destruct v as [| |b|n|s|items|props]; simpl; intros H;
    try discriminate; try reflexivity.
  - apply andb_prop in H as [_ H]. now apply each_index_strings.
  - apply andb_prop in H as [H _]. apply andb_prop in H as [_ H].
    apply each_property_strings.
    eapply forallb_weaken; [|exact H].
    intros kv Hkv. now apply andb_prop in Hkv as [_ Hkv].
Qed.

Lemma wire_value_not_null (v : JsVal) : wire_value_ok v = true -> is_null v = false.
Proof. destruct v; simpl; auto; discriminate. Qed.

Lemma stringify_pairs (o : JsObject) :
  forallb (fun kv => safe_root (fst kv) && wire_value_ok (snd kv)) o = true ->
  stringify o = join "&" (map encode_pair (object_pairs o)).
Proof.
  intros H. unfold stringify, object_pairs. f_equal.
  induction o as [|[k v] o IH]; [reflexivity|].
  simpl in H. apply andb_prop in H as [Hkv Ho]. apply andb_prop in Hkv as [_ Hv].
  cbn [flat_map fst snd]. rewrite (wire_value_not_null v Hv).
  rewrite map_app, IH by assumption. rewrite stringify_value_pairs by assumption.
  reflexivity.
Qed.

End QsStringifyFacts.

Section ObjectFacts.
Import Js.
Local Open Scope list_scope.

Lemma has_app (a b : JsObject) (k : string) : has (a ++ b) k = has a k || has b k.
Proof.
  induction a as [|[k' v'] a IH]; simpl; auto. rewrite IH. apply orb_assoc.
Qed.

Lemma set_absent (acc : JsObject) (k : string) (v : JsVal) :
  has acc k = false -> set acc k v = (acc ++ [(k, v)])%list.
Proof.
  induction acc as [|[k' v'] acc IH]; simpl; auto.
  intros H. apply orb_false_iff in H as [H1 H2]. rewrite H1, IH; auto.
Qed.

Lemma set_last (acc : JsObject) (k : string) (v w : JsVal) :
  has acc k = false -> set (acc ++ [(k, v)]) k w = (acc ++ [(k, w)])%list.
Proof.
  induction acc as [|[k' v'] acc IH]; simpl.
  - intros _. now rewrite String.eqb_refl.
  - intros H. apply orb_false_iff in H as [H1 H2]. rewrite H1, IH; auto.
Qed.

Lemma get_last (acc : JsObject) (k : string) (v : JsVal) :
  has acc k = false -> get (acc ++ [(k, v)]) k = v.
Proof.
  induction acc as [|[k' v'] acc IH]; simpl.
  - intros _. now rewrite String.eqb_refl.
  - intros H. apply orb_false_iff in H as [H1 H2]. rewrite H1, IH; auto.
Qed.

Lemma has_last (acc : JsObject) (k : string) (v : JsVal) :
  has (acc ++ [(k, v)]) k = true.
Proof. rewrite has_app. simpl. rewrite String.eqb_refl. now rewrite orb_true_r. Qed.

Lemma get_absent (acc : JsObject) (k : string) :
  has acc k = false -> get acc k = JUndefined.
Proof.
  induction acc as [|[k' v'] acc IH]; simpl; auto.
  intros H. apply orb_false_iff in H as [H1 H2]. rewrite H1. auto.
Qed.

Lemma get_app_absent (a b : JsObject) (k : string) :
  has a k = false -> get (a ++ b) k = get b k.
Proof.
  induction a as [|[k' v'] a IH]; simpl; auto.
  intros H. apply orb_false_iff in H as [H1 H2]. rewrite H1. auto.
Qed.

Lemma get_app_present (a b : JsObject) (k : string) :
  has a k = true -> get (a ++ b) k = get a k.
Proof.
  induction a as [|[k' v'] a IH]; simpl; [discriminate|].
  destruct (k' =? k)%string; auto.
Qed.

End ObjectFacts.

Section NumberFacts.
Import Js.

Lemma digits_value_toString (n : Z) :
  0 <= n -> digits_value (Number_toString n) = n.
Proof.
  intros Hn. destruct n as [|p|p]; [reflexivity| |lia].
  unfold digits_value, Number_toString.
  rewrite DecimalString.NilEmpty.usu.
  change (N.of_uint (Pos.to_uint p)) with (Pos.of_uint (Pos.to_uint p)).
  rewrite DecimalPos.Unsigned.of_to. reflexivity.
Qed.

Lemma Number_toString_inj (n m : Z) :
  0 <= n -> 0 <= m -> Number_toString n = Number_toString m -> n = m.
Proof.
  intros Hn Hm H.
  rewrite <- (digits_value_toString n Hn), <- (digits_value_toString m Hm).
  now rewrite H.
Qed.

End NumberFacts.

Section ParseValuesFacts.
Import Js Url Qs Wire.
Local Open Scope list_scope.

Lemma nodup_keys_app (a b : JsObject) :
  nodup_keys (a ++ b) = true <->
  nodup_keys a = true /\ nodup_keys b = true /\
  (forall k, has a k = true -> has b k = false).
Proof.
  induction a as [|[k v] a IH]; simpl.
  - split; [intros H; repeat split; auto; discriminate | tauto].
  - rewrite andb_true_iff, negb_true_iff, has_app, orb_false_iff, IH.
    rewrite andb_true_iff, negb_true_iff. split.
    + intros [[H1 H2] (H3 & H4 & H5)]. repeat split; auto.
      intros k' Hk'. apply orb_true_iff in Hk' as [Hk'|Hk'].
      * apply String.eqb_eq in Hk'. now subst.
      * now apply H5.
    + intros [[H1 H2] [H3 H4]]. repeat split; auto.
      * apply H4. now rewrite String.eqb_refl.
      * intros k' Hk'. apply H4. rewrite Hk'. apply orb_true_r.
Qed.

Lemma collect_parts_fresh (ps : list (string * string)) (acc : JsObject) :
  nodup_keys (acc ++ map pair_entry ps) = true ->
  collect_parts (map encode_pair ps) acc = acc ++ map pair_entry ps.
Proof.
  revert acc. induction ps as [|[k v] ps IH]; intros acc H.
  - simpl. now rewrite app_nil_r.
  - cbn [map collect_parts]. unfold encode_pair at 1. cbn [fst snd].
    rewrite parse_part_encoded.
    assert (Hk : has acc k = false).
    { apply nodup_keys_app in H as (_ & _ & H).
      destruct (has acc k) eqn:E; auto.
      specialize (H k E). simpl in H. rewrite String.eqb_refl in H. discriminate. }
    rewrite Hk. rewrite set_absent by assumption.
    rewrite IH.
    + rewrite <- app_assoc. reflexivity.
    + rewrite <- app_assoc. exact H.
Qed.

Lemma lacks_join (c : ascii) (sep : string) (l : list string) :
  lacks c sep = true ->
  Forall (fun s => lacks c s = true) l ->
  lacks c (join sep l) = true.
Proof.
  intros Hsep Hall. induction l as [|x l IH]; [reflexivity|].
  inversion Hall as [|? ? Hx Hl]; subst.
  destruct l as [|y l]; [exact Hx|].
  change (join sep (x :: y :: l)) with (x ++ sep ++ join sep (y :: l))%string.
  rewrite !lacks_app, Hx, Hsep, IH; auto.
Qed.

Lemma encode_pair_lacks (c : ascii) (kv : string * string) :
  emitted c = false -> Ascii.eqb c "=" = false ->
  lacks c (encode_pair kv) = true.
Proof.
  intros Hc Heq. unfold encode_pair. rewrite !lacks_app.
  rewrite !encode_lacks by assumption.
  assert (Hsep : lacks c "=" = true).
  { unfold lacks. cbn [all_chars]. rewrite Ascii.eqb_sym, Heq. reflexivity. }
  rewrite Hsep. reflexivity.
Qed.

Lemma strip_query_prefix_lacks (s : string) :
  lacks "?" s = true -> strip_query_prefix s = s.
Proof.
  destruct s as [|c s]; [reflexivity|]. simpl. intros H.
  apply andb_prop in H as [H _]. apply negb_true_iff in H.
  destruct c as [[] [] [] [] [] [] [] []]; try reflexivity; discriminate H.
Qed.

Lemma join_pairs_nonempty (ps : list (string * string)) :
  ps <> [] -> (join "&" (map encode_pair ps) =? "")%string = false.
Proof.
  destruct ps as [|[k v] ps]; [contradiction|]. intros _.
  apply String.eqb_neq. intros H.
  assert (Hlen : String.length (join "&" (map encode_pair ((k, v) :: ps))) = 0%nat)
    by now rewrite H.
  destruct ps as [|p ps]; cbn [map join] in Hlen; unfold encode_pair in Hlen;
    cbn [fst snd] in Hlen; rewrite !string_length_app in Hlen;
    simpl in Hlen; lia.
Qed.

(** [parseValues] recovers the decoded parameters [stringify] encoded. *)
Lemma parseValues_pairs (ps : list (string * string)) :
  ps <> [] ->
  (List.length ps <= parameterLimit)%nat ->
  nodup_keys (map pair_entry ps) = true ->
  parseValues (join "&" (map encode_pair ps)) = map pair_entry ps.
Proof.
  intros Hne Hlen Hnd. unfold parseValues.
  assert (Hall : forall c, emitted c = false -> Ascii.eqb c "=" = false ->
                 Forall (fun s => lacks c s = true) (map encode_pair ps)).
  { intros c Hc Heq. apply Forall_forall. intros s Hs.
    apply in_map_iff in Hs as (kv & <- & _). now apply encode_pair_lacks. }
  rewrite strip_query_prefix_lacks.
  - change "&"%string with (String "&" "") at 1.
    rewrite split_join.
    + rewrite firstn_all2 by (rewrite length_map; exact Hlen).
      apply (collect_parts_fresh ps []). exact Hnd.
    + destruct ps; [contradiction | discriminate].
    + apply Hall; reflexivity.
  - apply lacks_join; [reflexivity|]. apply Hall; reflexivity.
Qed.

End ParseValuesFacts.

Section KeyChainFacts.
Import Js Url Qs Wire.

Lemma lacks_cons (c a : ascii) (s : string) :
  lacks c (String a s) = negb (Ascii.eqb a c) && lacks c s.
Proof. reflexivity. Qed.

Lemma bracket_segments_skip (s t : string) (pos : nat) :
  lacks "[" s = true ->
  bracket_segments (s ++ t) pos None = bracket_segments t (pos + String.length s) None.
Proof.
  revert pos. induction s as [|c s IH]; intros pos H.
  - simpl. f_equal. lia.
  - rewrite lacks_cons in H. apply andb_prop in H as [Hc Hs].
    apply negb_true_iff in Hc.
    cbn [append bracket_segments String.length]. rewrite Hc.
    replace (pos + S (String.length s))%nat with (S pos + String.length s)%nat by lia.
    destruct (Ascii.eqb c "]"); apply IH; assumption.
Qed.

Lemma bracket_segments_plain (s : string) (pos : nat) :
  lacks "[" s = true -> bracket_segments s pos None = [].
Proof.
  intros H. rewrite <- (string_app_nil_r s).
  rewrite bracket_segments_skip by assumption. reflexivity.
Qed.

Lemma bracket_segments_close (k t : string) (pos st : nat) (inner : string) :
  lacks "[" k = true -> lacks "]" k = true ->
  bracket_segments (k ++ String "]" t) pos (Some (st, inner)) =
  (st, (inner ++ k)%string) :: bracket_segments t (S (pos + String.length k)) None.
Proof.
  revert pos inner. induction k as [|c k IH]; intros pos inner H1 H2.
  - simpl. rewrite string_app_nil_r. do 2 f_equal. lia.
  - rewrite lacks_cons in H1, H2.
    apply andb_prop in H1 as [Hc1 Hk1]. apply andb_prop in H2 as [Hc2 Hk2].
    apply negb_true_iff in Hc1, Hc2.
    cbn [append bracket_segments String.length]. rewrite Hc1, Hc2.
    rewrite IH by assumption. rewrite string_app_assoc. cbn [append].
    do 3 f_equal. lia.
Qed.

Lemma safe_root_inv (k : string) :
  safe_root k = true ->
  k <> ""%string /\ lacks "[" k = true /\ lacks "]" k = true /\ on_prototype k = false.
Proof.
  unfold safe_root. rewrite !andb_true_iff, !negb_true_iff.
  intros [[[H1 H2] H3] H4]. repeat split; auto.
  now apply String.eqb_neq.
Qed.

Lemma key_chain_root (root : string) :
  safe_root root = true -> key_chain root = Some [root].
Proof.
  intros H. apply safe_root_inv in H as (Hne & Hl & _ & Hp).
  unfold key_chain. apply String.eqb_neq in Hne. rewrite Hne.
  rewrite bracket_segments_plain by assumption. cbn [firstn skipn existsb map].
  rewrite Hne, Hp. reflexivity.
Qed.

Lemma key_chain_child (root k : string) :
  safe_root root = true ->
  lacks "[" k = true -> lacks "]" k = true -> on_prototype k = false ->
  key_chain (child_key root k) = Some [root; bracketed k].
Proof.
  intros H Hk1 Hk2 Hkp. apply safe_root_inv in H as (Hne & Hl & _ & Hp).
  assert (Hne' : (root =? "")%string = false) by now apply String.eqb_neq.
  unfold key_chain, child_key.
  assert (Hkey : ((root ++ "[" ++ k ++ "]")%string =? "")%string = false).
  { apply String.eqb_neq. intros E. destruct root; [now apply Hne | discriminate E]. }
  rewrite Hkey.
  rewrite bracket_segments_skip by assumption.
  change ("[" ++ k ++ "]")%string with (String "[" (k ++ String "]" "")).
  cbn [bracket_segments Ascii.eqb Bool.eqb].
  rewrite bracket_segments_close by assumption.
  cbn [bracket_segments append firstn depth skipn existsb map snd fst].
  change (0 + String.length root)%nat with (String.length root).
  rewrite take_app, Hne', Hp, Hkp. reflexivity.
Qed.

Lemma last_char_app (s : string) (c : ascii) : last_char (s ++ String c "") = Some c.
Proof.
  unfold last_char.
  assert (H : list_ascii_of_string (s ++ String c "") = (list_ascii_of_string s ++ [c])%list).
  { induction s as [|a s IH]; simpl; auto. now rewrite IH. }
  rewrite H, rev_app_distr. reflexivity.
Qed.

Lemma clean_root_open (rest : string) :
  clean_root (String "[" rest) =
  match last_char (String "[" rest) with
  | Some "]"%char => take (String.length rest - 1) rest
  | _ => String "[" rest
  end.
Proof. reflexivity. Qed.

Lemma clean_root_bracketed (k : string) : clean_root (bracketed k) = k.
Proof.
  unfold bracketed.
  change ("[" ++ k ++ "]")%string with (String "[" (k ++ String "]" "")).
  rewrite clean_root_open.
  change (String "[" (k ++ String "]" "")) with (String "[" k ++ String "]" "")%string.
  rewrite last_char_app. rewrite string_length_app. cbn [String.length].
  replace (String.length k + 1 - 1)%nat with (String.length k) by lia.
  apply take_app.
Qed.

Lemma clean_root_plain (root : string) :
  lacks "[" root = true -> clean_root root = root.
Proof.
  destruct root as [|c root]; [reflexivity|].
  rewrite lacks_cons. intros H. apply andb_prop in H as [H _].
  apply negb_true_iff in H.
  destruct c as [[] [] [] [] [] [] [] []]; try reflexivity; discriminate H.
Qed.

Lemma on_prototype_proto : on_prototype "__proto__" = true.
Proof. reflexivity. Qed.

Lemma wrap_root (root : string) (leaf : JsVal) :
  safe_root root = true -> wrap root leaf = JObj [(root, leaf)].
Proof.
  intros H. apply safe_root_inv in H as (Hne & Hl & _ & Hp).
  unfold wrap.
  assert (H1 : (root =? "[]")%string = false).
  { apply String.eqb_neq. intros ->. discriminate Hl. }
  rewrite H1, clean_root_plain by assumption. rewrite String.eqb_refl.
  assert (H2 : (root =? "__proto__")%string = false).
  { apply String.eqb_neq. intros ->. discriminate Hp. }
  now rewrite H2.
Qed.

Lemma bracketed_neq (k : string) : (bracketed k =? k)%string = false.
Proof.
  apply String.eqb_neq. intros H.
  assert (Hl : String.length (bracketed k) = String.length k) by now rewrite H.
  unfold bracketed in Hl. rewrite !string_length_app in Hl. simpl in Hl. lia.
Qed.

Lemma bracketed_not_empty_brackets (k : string) :
  k <> ""%string -> (bracketed k =? "[]")%string = false.
Proof.
  intros Hne. apply String.eqb_neq. intros H. apply Hne.
  unfold bracketed in H. simpl in H. injection H as H.
  destruct k as [|c k]; [reflexivity|]. simpl in H.
  injection H as _ H. destruct k; discriminate H.
Qed.

Lemma wrap_key (k : string) (leaf : JsVal) :
  safe_key k = true -> wrap (bracketed k) leaf = JObj [(k, leaf)].
Proof.
  unfold safe_key. intros H. apply andb_prop in H as [Hr Hidx].
  apply safe_root_inv in Hr as (Hne & _ & _ & Hp).
  unfold wrap. rewrite bracketed_not_empty_brackets by assumption.
  rewrite clean_root_bracketed, bracketed_neq.
  destruct (array_index k); [discriminate|].
  assert (H2 : (k =? "__proto__")%string = false).
  { apply String.eqb_neq. intros ->. discriminate Hp. }
  now rewrite H2.
Qed.

Lemma index_text_facts (i : nat) :
  (i <= 20)%nat ->
  let k := Number_toString (Z.of_nat i) in
  lacks "[" k = true /\ lacks "]" k = true /\ on_prototype k = false /\
  k <> ""%string /\ array_index k = Some i.
Proof.
  intros Hi.
  do 21 (destruct i as [|i]; [repeat split; discriminate|]).
  lia.
Qed.

Lemma wrap_index (i : nat) (leaf : JsVal) :
  (i <= 20)%nat ->
  wrap (bracketed (Number_toString (Z.of_nat i))) leaf =
  JArr (repeat JUndefined i ++ [leaf])%list.
Proof.
  intros Hi. destruct (index_text_facts i Hi) as (_ & _ & _ & Hne & Hidx).
  unfold wrap. rewrite bracketed_not_empty_brackets by assumption.
  rewrite clean_root_bracketed, bracketed_neq, Hidx. reflexivity.
Qed.

End KeyChainFacts.

Section MergeFacts.
Import Js Url Qs Wire.
Local Open Scope list_scope.

Lemma merge_into_object (sprops tprops : JsObject) :
  merge (JObj sprops) (JObj tprops) =
  JObj (into_object (fun s t => merge s t) sprops tprops).
Proof. reflexivity. Qed.

Lemma merge_into_array (sitems titems : list JsVal) :
  merge (JArr sitems) (JArr titems) =
  JArr (into_array (fun s t => merge s t) sitems 0 titems).
Proof. reflexivity. Qed.

Lemma parseKeys_root (root : string) (val : JsVal) :
  safe_root root = true -> parseKeys root val = Some (JObj [(root, val)]).
Proof.
  intros H. unfold parseKeys. rewrite key_chain_root by assumption.
  unfold parseObject. cbn [fold_right]. now rewrite wrap_root.
Qed.

Lemma parseKeys_property (root k : string) (val : JsVal) :
  safe_root root = true -> safe_key k = true ->
  parseKeys (child_key root k) val = Some (JObj [(root, JObj [(k, val)])]).
Proof.
  intros Hr Hk. unfold parseKeys.
  pose proof Hk as Hk'. unfold safe_key in Hk'. apply andb_prop in Hk' as [Hk' _].
  apply safe_root_inv in Hk' as (_ & H1 & H2 & H3).
  rewrite key_chain_child by assumption.
  unfold parseObject. cbn [fold_right].
  rewrite wrap_key by assumption. now rewrite wrap_root.
Qed.

Lemma parseKeys_index (root : string) (i : nat) (val : JsVal) :
  safe_root root = true -> (i <= 20)%nat ->
  parseKeys (index_key root i) val =
  Some (JObj [(root, JArr (repeat JUndefined i ++ [val]))]).
Proof.
  intros Hr Hi. unfold parseKeys, index_key.
  destruct (index_text_facts i Hi) as (H1 & H2 & H3 & _ & _).
  rewrite key_chain_child by assumption.
  unfold parseObject. cbn [fold_right].
  rewrite wrap_index by assumption. now rewrite wrap_root.
Qed.

Lemma merge_key_scalar (root : string) (val : JsVal) (acc : JsObject) :
  safe_root root = true -> has acc root = false ->
  merge_key (JObj acc) (root, val) = JObj (acc ++ [(root, val)]).
Proof.
  intros Hr Hacc. unfold merge_key. cbn [fst snd].
  rewrite parseKeys_root by assumption.
  rewrite merge_into_object. cbn [into_object]. rewrite Hacc.
  now rewrite set_absent.
Qed.

Lemma merge_key_property_first (root k : string) (val : JsVal) (acc : JsObject) :
  safe_root root = true -> safe_key k = true -> has acc root = false ->
  merge_key (JObj acc) (child_key root k, val) =
  JObj (acc ++ [(root, JObj [(k, val)])]).
Proof.
  intros Hr Hk Hacc. unfold merge_key. cbn [fst snd].
  rewrite parseKeys_property by assumption.
  rewrite merge_into_object. cbn [into_object]. rewrite Hacc.
  now rewrite set_absent.
Qed.

Lemma merge_key_property_next (root k : string) (val : JsVal) (acc prev : JsObject) :
  safe_root root = true -> safe_key k = true ->
  has acc root = false -> has prev k = false ->
  merge_key (JObj (acc ++ [(root, JObj prev)])) (child_key root k, val) =
  JObj (acc ++ [(root, JObj (prev ++ [(k, val)]))]).
Proof.
  intros Hr Hk Hacc Hprev. unfold merge_key. cbn [fst snd].
  rewrite parseKeys_property by assumption.
  rewrite merge_into_object. cbn [into_object].
  rewrite has_last, get_last by assumption.
  rewrite merge_into_object. cbn [into_object]. rewrite Hprev.
  rewrite set_last by assumption. now rewrite set_absent.
Qed.

Lemma into_array_holes (m : JsVal -> JsVal -> JsVal) (n : nat)
  (l acc : list JsVal) (j : nat) :
  into_array m (repeat JUndefined n ++ l) j acc = into_array m l (j + n) acc.
Proof.
  revert j. induction n as [|n IH]; intros j.
  - simpl. f_equal. lia.
  - cbn [repeat app into_array is_undefined]. rewrite IH. f_equal. lia.
Qed.

Lemma assign_index_end (items : list JsVal) (x : JsVal) :
  assign_index items (List.length items) x = items ++ [x].
Proof. induction items as [|a items IH]; simpl; auto. now rewrite IH. Qed.

Lemma merge_key_index_first (root : string) (val : JsVal) (acc : JsObject) :
  safe_root root = true -> has acc root = false ->
  merge_key (JObj acc) (index_key root 0, val) = JObj (acc ++ [(root, JArr [val])]).
Proof.
  intros Hr Hacc. unfold merge_key. cbn [fst snd].
  rewrite parseKeys_index by (auto; lia).
  rewrite merge_into_object. cbn [into_object repeat app]. rewrite Hacc.
  now rewrite set_absent.
Qed.

Lemma merge_key_index_next (root : string) (val : JsVal) (acc : JsObject)
  (items : list JsVal) :
  safe_root root = true -> has acc root = false ->
  (List.length items <= 20)%nat -> is_undefined val = false ->
  merge_key (JObj (acc ++ [(root, JArr items)])) (index_key root (List.length items), val) =
  JObj (acc ++ [(root, JArr (items ++ [val]))]).
Proof.
  intros Hr Hacc Hlen Hval. unfold merge_key. cbn [fst snd].
  rewrite parseKeys_index by assumption.
  rewrite merge_into_object. cbn [into_object].
  rewrite has_last, get_last by assumption.
  rewrite merge_into_array, into_array_holes.
  cbn [into_array Nat.add]. rewrite Hval.
  assert (Hnth : nth_error items (List.length items) = None)
    by (apply nth_error_None; lia).
  rewrite Hnth, assign_index_end.
  now rewrite set_last.
Qed.

End MergeFacts.

Section FoldFacts.
Import Js Url Qs Wire.
Local Open Scope list_scope.

Lemma pair_entry_eq (k s : string) : pair_entry (k, s) = (k, JStr s).
Proof. reflexivity. Qed.

Lemma nodup_keys_fresh (prev rest : JsObject) (k : string) (x : JsVal) :
  nodup_keys (prev ++ (k, x) :: rest) = true -> has prev k = false.
Proof.
  intros H. apply nodup_keys_app in H as (_ & _ & H).
  destruct (has prev k) eqn:E; auto.
  specialize (H k E). simpl in H. rewrite String.eqb_refl in H. discriminate.
Qed.

Lemma fold_properties (root : string) (props prev acc : JsObject) :
  safe_root root = true -> has acc root = false ->
  forallb (fun kv => safe_key (fst kv) && is_string (snd kv)) props = true ->
  nodup_keys (prev ++ props) = true ->
  fold_left merge_key
    (map pair_entry
       (map (fun kv => (child_key root (fst kv), ToString (snd kv))) props))
    (JObj (acc ++ [(root, JObj prev)]))
  = JObj (acc ++ [(root, JObj (prev ++ props))]).
Proof.
  intros Hr Hacc. revert prev.
  induction props as [|[k x] props IH]; intros prev Hall Hnd.
  - simpl. now rewrite app_nil_r.
  - cbn [forallb fst snd] in Hall. apply andb_prop in Hall as [Hkx Hall].
    apply andb_prop in Hkx as [Hk Hx]. apply is_string_inv in Hx as [s ->].
    cbn [map fold_left fst snd ToString]. rewrite pair_entry_eq.
    rewrite merge_key_property_next; auto.
    + rewrite IH; auto.
      * now rewrite <- app_assoc.
      * now rewrite <- app_assoc.
    + eapply nodup_keys_fresh; eauto.
Qed.

Lemma fold_items (root : string) (items prev : list JsVal) (acc : JsObject) :
  safe_root root = true -> has acc root = false ->
  forallb is_string items = true ->
  (List.length prev + List.length items <= 21)%nat ->
  fold_left merge_key
    (map pair_entry (indexed_pairs root items (List.length prev)))
    (JObj (acc ++ [(root, JArr prev)]))
  = JObj (acc ++ [(root, JArr (prev ++ items))]).
Proof.
  intros Hr Hacc. revert prev.
  induction items as [|x items IH]; intros prev Hall Hlen.
  - simpl. now rewrite app_nil_r.
  - cbn [forallb] in Hall. apply andb_prop in Hall as [Hx Hall].
    apply is_string_inv in Hx as [s ->].
    cbn [indexed_pairs map fold_left fst snd ToString]. rewrite pair_entry_eq.
    cbn [List.length] in Hlen.
    rewrite merge_key_index_next; auto; [|lia].
    replace (S (List.length prev)) with (List.length (prev ++ [JStr s]))
      by (rewrite length_app; simpl; lia).
    rewrite IH; auto.
    + now rewrite <- app_assoc.
    + rewrite length_app. simpl. lia.
Qed.

Lemma read_back_strings (items : list JsVal) :
  forallb is_string items = true -> map read_back items = items.
Proof.
  induction items as [|x items IH]; simpl; auto.
  intros H. apply andb_prop in H as [Hx H]. apply is_string_inv in Hx as [s ->].
  simpl. now rewrite IH.
Qed.

(** The parameters of one value merge into its read-back form. *)
Lemma fold_value (root : string) (v : JsVal) (acc : JsObject) :
  safe_root root = true -> wire_value_ok v = true -> has acc root = false ->
  fold_left merge_key (map pair_entry (value_pairs root v)) (JObj acc)
  = JObj (acc ++ [(root, read_back v)]).
Proof.
  intros Hr Hv Hacc.
  destruct v as [| |b|n|s|items|props]; try discriminate Hv.
  - cbn [value_pairs map fold_left]. unfold pair_entry. cbn [fst snd].
    now rewrite merge_key_scalar.
  - cbn [value_pairs map fold_left]. unfold pair_entry. cbn [fst snd].
    now rewrite merge_key_scalar.
  - cbn [value_pairs map fold_left]. unfold pair_entry. cbn [fst snd ToString].
    now rewrite merge_key_scalar.
  - cbn [wire_value_ok] in Hv. apply andb_prop in Hv as [Hv Hall].
    apply andb_prop in Hv as [Hne Hlen]. apply Nat.leb_le in Hlen.
    destruct items as [|x items]; [discriminate|].
    cbn [forallb] in Hall. apply andb_prop in Hall as [Hx Hall].
    apply is_string_inv in Hx as [s ->].
    cbn [value_pairs indexed_pairs map fold_left read_back fst snd ToString].
    rewrite pair_entry_eq.
    rewrite merge_key_index_first by assumption.
    change 1%nat with (List.length [JStr s]).
    rewrite fold_items; auto.
  - cbn [wire_value_ok] in Hv. apply andb_prop in Hv as [Hv Hnd].
    apply andb_prop in Hv as [Hne Hall].
    destruct props as [|[k x] props]; [discriminate|].
    cbn [forallb fst snd] in Hall. apply andb_prop in Hall as [Hkx Hall].
    apply andb_prop in Hkx as [Hk Hx]. apply is_string_inv in Hx as [s ->].
    cbn [value_pairs map fold_left read_back fst snd ToString].
    rewrite pair_entry_eq.
    rewrite merge_key_property_first by assumption.
    rewrite (fold_properties root props [(k, JStr s)] acc); auto.
Qed.

Lemma fold_object (o acc : JsObject) :
  forallb (fun kv => safe_root (fst kv) && wire_value_ok (snd kv)) o = true ->
  nodup_keys (acc ++ o) = true ->
  fold_left merge_key (map pair_entry (object_pairs o)) (JObj acc)
  = JObj (acc ++ read_back_object o).
Proof.
  revert acc. induction o as [|[root v] o IH]; intros acc Hall Hnd.
  - simpl. now rewrite app_nil_r.
  - cbn [forallb fst snd] in Hall. apply andb_prop in Hall as [Hrv Hall].
    apply andb_prop in Hrv as [Hr Hv].
    unfold object_pairs. cbn [flat_map fst snd]. fold (object_pairs o).
    rewrite map_app, fold_left_app.
    assert (Hfresh : has acc root = false) by (eapply nodup_keys_fresh; eauto).
    rewrite fold_value by assumption.
    assert (Hnd' : nodup_keys ((acc ++ [(root, read_back v)]) ++ o) = true).
    { rewrite <- app_assoc. cbn [app].
      apply nodup_keys_app in Hnd as (H1 & H2 & H3).
      apply nodup_keys_app. repeat split; auto. }
    rewrite (IH _ Hall Hnd').
    cbn [read_back_object map fst snd]. now rewrite <- app_assoc.
Qed.

End FoldFacts.

Section FlatKeyFacts.
Import Js Url Qs Wire.
Local Open Scope list_scope.

Lemma lacks_sep_inj (c : ascii) (a b x y : string) :
  lacks c a = true -> lacks c b = true ->
  (a ++ String c x)%string = (b ++ String c y)%string -> a = b /\ x = y.
Proof.
  revert b. induction a as [|p a IH]; intros [|q b] Ha Hb H; simpl in *.
  - injection H as ->. auto.
  - injection H as <- _. apply andb_prop in Hb as [Hb _].
    rewrite Ascii.eqb_refl in Hb. discriminate.
  - injection H as -> _. apply andb_prop in Ha as [Ha _].
    rewrite Ascii.eqb_refl in Ha. discriminate.
  - injection H as -> H. apply andb_prop in Ha as [_ Ha].
    apply andb_prop in Hb as [_ Hb].
    destruct (IH b Ha Hb H) as [-> ->]. auto.
Qed.

Lemma child_key_inj (root k k' : string) : child_key root k = child_key root k' -> k = k'.
Proof.
  unfold child_key. intros H. apply string_app_inv_head in H.
  simpl in H. injection H as H.
  revert k' H. induction k as [|c k IH]; intros [|c' k'] H; simpl in H; auto.
  - injection H as <- H. destruct k'; discriminate.
  - injection H as -> H. destruct k; discriminate.
  - injection H as -> H. f_equal. auto.
Qed.

Lemma child_key_has_bracket (root k : string) : lacks "[" (child_key root k) = false.
Proof.
  unfold child_key. rewrite lacks_app.
  change ("[" ++ k ++ "]")%string with (String "[" (k ++ "]")).
  rewrite lacks_cons. simpl. apply andb_false_r.
Qed.

Lemma under_same_root (r1 r2 key : string) :
  lacks "[" r1 = true -> lacks "[" r2 = true ->
  under r1 key -> under r2 key -> r1 = r2.
Proof.
  intros H1 H2 [E1|[k1 E1]] [E2|[k2 E2]]; subst.
  - reflexivity.
  - rewrite child_key_has_bracket in H1. discriminate.
  - rewrite child_key_has_bracket in H2. discriminate.
  - unfold child_key in E2.
    change ("[" ++ k1 ++ "]")%string with (String "[" (k1 ++ "]")) in E2.
    change ("[" ++ k2 ++ "]")%string with (String "[" (k2 ++ "]")) in E2.
    now destruct (lacks_sep_inj _ _ _ _ _ H1 H2 E2).
Qed.

Lemma has_indexed_under (root : string) (items : list JsVal) (i : nat) (key : string) :
  has (map pair_entry (indexed_pairs root items i)) key = true -> under root key.
Proof.
  revert i. induction items as [|x items IH]; intros i; simpl; [discriminate|].
  intros H. apply orb_true_iff in H as [H|H].
  - apply String.eqb_eq in H. subst. right. eexists. reflexivity.
  - eapply IH; eauto.
Qed.

Lemma has_value_under (root : string) (v : JsVal) (key : string) :
  has (map pair_entry (value_pairs root v)) key = true -> under root key.
Proof.
  destruct v as [| |b|n|s|items|props]; simpl;
    try (rewrite orb_false_r; intros H; apply String.eqb_eq in H; subst; now left).
  - apply has_indexed_under.
  - induction props as [|[k x] props IH]; simpl; [discriminate|].
    intros H. apply orb_true_iff in H as [H|H]; auto.
    apply String.eqb_eq in H. subst. right. eexists. reflexivity.
Qed.

Lemma has_object_under (o : JsObject) (key : string) :
  has (map pair_entry (object_pairs o)) key = true ->
  exists root, has o root = true /\ under root key.
Proof.
  induction o as [|[root v] o IH]; [discriminate|].
  unfold object_pairs. cbn [flat_map fst snd]. fold (object_pairs o).
  rewrite map_app, has_app. intros H. apply orb_true_iff in H as [H|H].
  - exists root. split; [|eapply has_value_under; eauto].
    simpl. now rewrite String.eqb_refl.
  - destruct (IH H) as (r & Hr & Hu). exists r. split; auto.
    simpl. rewrite Hr. apply orb_true_r.
Qed.

Lemma has_indexed_above (root : string) (items : list JsVal) (i j : nat) :
  (i < j)%nat ->
  has (map pair_entry (indexed_pairs root items j)) (index_key root i) = false.
Proof.
  revert j. induction items as [|x items IH]; intros j Hij; [reflexivity|].
  cbn [indexed_pairs map has pair_entry fst snd].
  rewrite IH by lia. rewrite orb_false_r.
  apply String.eqb_neq. intros H. unfold index_key in H.
  apply child_key_inj in H. apply Number_toString_inj in H; lia.
Qed.

Lemma nodup_indexed (root : string) (items : list JsVal) (i : nat) :
  nodup_keys (map pair_entry (indexed_pairs root items i)) = true.
Proof.
  revert i. induction items as [|x items IH]; intros i; [reflexivity|].
  cbn [indexed_pairs map nodup_keys pair_entry fst snd].
  rewrite has_indexed_above by lia. now rewrite IH.
Qed.

Lemma has_child_pairs (root : string) (props : JsObject) (k : string) :
  has (map pair_entry
         (map (fun kv => (child_key root (fst kv), ToString (snd kv))) props))
      (child_key root k)
  = has props k.
Proof.
  induction props as [|[k' x] props IH]; [reflexivity|].
  cbn [map has pair_entry fst snd]. rewrite IH. f_equal.
  destruct (k' =? k)%string eqn:E.
  - apply String.eqb_eq in E. subst. apply String.eqb_refl.
  - apply String.eqb_neq. intros H. apply child_key_inj in H.
    apply String.eqb_neq in E. contradiction.
Qed.

Lemma nodup_value_pairs (root : string) (v : JsVal) :
  wire_value_ok v = true ->
  nodup_keys (map pair_entry (value_pairs root v)) = true.
Proof.
  destruct v as [| |b|n|s|items|props]; intros H; try discriminate H;
    try reflexivity.
  - apply nodup_indexed.
  - cbn [wire_value_ok] in H. apply andb_prop in H as [_ H].
    cbn [value_pairs]. induction props as [|[k x] props IH]; [reflexivity|].
    cbn [nodup_keys] in H. apply andb_prop in H as [Hk H].
    cbn [map nodup_keys pair_entry fst snd].
    rewrite has_child_pairs, Hk. simpl. now apply IH.
Qed.

Lemma nodup_object_pairs (o : JsObject) :
  forallb (fun kv => safe_root (fst kv) && wire_value_ok (snd kv)) o = true ->
  nodup_keys o = true ->
  nodup_keys (map pair_entry (object_pairs o)) = true.
Proof.
  induction o as [|[root v] o IH]; intros Hall Hnd; [reflexivity|].
  cbn [forallb fst snd] in Hall. apply andb_prop in Hall as [Hrv Hall].
  apply andb_prop in Hrv as [Hr Hv].
  cbn [nodup_keys] in Hnd. apply andb_prop in Hnd as [Hfresh Hnd].
  apply negb_true_iff in Hfresh.
  unfold object_pairs. cbn [flat_map fst snd]. fold (object_pairs o).
  rewrite map_app. apply nodup_keys_app. repeat split.
  - now apply nodup_value_pairs.
  - now apply IH.
  - intros key Hkey. apply has_value_under in Hkey.
    destruct (has (map pair_entry (object_pairs o)) key) eqn:E; auto.
    apply has_object_under in E as (r & Hr' & Hu).
    assert (Hsafe : safe_root r = true).
    { clear - Hall Hr'. induction o as [|[r' v'] o IH]; [discriminate|].
      cbn [forallb fst snd] in Hall. apply andb_prop in Hall as [H1 H2].
      simpl in Hr'. apply orb_true_iff in Hr' as [E|E]; auto.
      apply String.eqb_eq in E. subst. now apply andb_prop in H1 as [H1 _]. }
    apply safe_root_inv in Hr as (_ & Hl1 & _ & _).
    apply safe_root_inv in Hsafe as (_ & Hl2 & _ & _).
    assert (root = r) by (eapply under_same_root; eauto).
    subst. congruence.
Qed.

Lemma length_value_pairs (root : string) (v : JsVal) :
  List.length (value_pairs root v) = leaves v.
Proof.
  destruct v as [| |b|n|s|items|props]; try reflexivity.
  - cbn [value_pairs leaves]. generalize 0%nat.
    induction items as [|x items IH]; intros i; simpl; auto.
  - cbn [value_pairs leaves]. now rewrite length_map.
Qed.

Lemma length_object_pairs (o : JsObject) :
  List.length (object_pairs o) = parameter_count o.
Proof.
  induction o as [|[root v] o IH]; [reflexivity|].
  unfold object_pairs. cbn [flat_map fst snd]. fold (object_pairs o).
  rewrite length_app, length_value_pairs, IH. reflexivity.
Qed.

Lemma value_pairs_nonempty (root : string) (v : JsVal) :
  wire_value_ok v = true -> value_pairs root v <> [].
Proof.
  destruct v as [| |b|n|s|items|props]; intros H; try discriminate.
  - destruct items; discriminate.
  - destruct props; discriminate.
Qed.

End FlatKeyFacts.

Section QsRoundTrip.
Import Js Url Qs Wire.
Local Open Scope list_scope.

Lemma compact_strings (items : list JsVal) :
  forallb is_string items = true ->
  compact_items (fun x => compact x) items = items.
Proof.
  induction items as [|x items IH]; [reflexivity|].
  cbn [forallb]. intros H. apply andb_prop in H as [Hx H].
  apply is_string_inv in Hx as [s ->]. cbn [compact_items is_undefined compact].
  now rewrite IH.
Qed.

Lemma compact_string_properties (props : JsObject) :
  forallb (fun kv => is_string (snd kv)) props = true ->
  compact_properties (fun x => compact x) props = props.
Proof.
  induction props as [|[k x] props IH]; [reflexivity|].
  cbn [forallb snd]. intros H. apply andb_prop in H as [Hx H].
  apply is_string_inv in Hx as [s ->]. cbn [compact_properties compact].
  now rewrite IH.
Qed.

Lemma compact_read_back (v : JsVal) :
  wire_value_ok v = true -> compact (read_back v) = read_back v.
Proof.
  destruct v as [| |b|n|s|items|props]; intros H; try discriminate H;
    try reflexivity.
  - cbn [wire_value_ok] in H. apply andb_prop in H as [_ H].
    cbn [read_back compact]. now rewrite compact_strings.
  - cbn [wire_value_ok] in H. apply andb_prop in H as [H _].
    apply andb_prop in H as [_ H].
    cbn [read_back compact]. rewrite compact_string_properties; auto.
    eapply forallb_weaken; [|exact H].
    intros kv Hkv. now apply andb_prop in Hkv as [_ Hkv].
Qed.

Lemma compact_read_back_object (o : JsObject) :
  forallb (fun kv => safe_root (fst kv) && wire_value_ok (snd kv)) o = true ->
  compact_properties (fun x => compact x) (read_back_object o) = read_back_object o.
Proof.
  induction o as [|[root v] o IH]; [reflexivity|].
  cbn [forallb fst snd]. intros H. apply andb_prop in H as [Hrv H].
  apply andb_prop in Hrv as [_ Hv].
  cbn [read_back_object map compact_properties fst snd].
  rewrite compact_read_back by assumption. f_equal. now apply IH.
Qed.

(** [qs.parse] reads back what [qs.stringify] wrote: each primitive as its
    string, arrays and objects of strings as they were. *)
Theorem qs_parse_stringify (o : JsObject) :
  wire_ok o = true -> parse (stringify o) = read_back_object o.
Proof.
  unfold wire_ok. intros H. apply andb_prop in H as [H Hcount].
  apply andb_prop in H as [Hall Hnd]. apply Nat.leb_le in Hcount.
  rewrite stringify_pairs by assumption.
  destruct o as [|[root v] o]; [reflexivity|].
  assert (Hne : object_pairs ((root, v) :: o) <> []).
  { unfold object_pairs. cbn [flat_map fst snd].
    cbn [forallb fst snd] in Hall. apply andb_prop in Hall as [Hrv _].
    apply andb_prop in Hrv as [_ Hv].
    pose proof (value_pairs_nonempty root v Hv).
    destruct (value_pairs root v); [contradiction | discriminate]. }
  unfold parse. rewrite join_pairs_nonempty by assumption.
  rewrite parseValues_pairs.
  - rewrite (fold_object _ []) by assumption.
    cbn [app compact]. now rewrite compact_read_back_object.
  - assumption.
  - now rewrite length_object_pairs.
  - now apply nodup_object_pairs.
Qed.

End QsRoundTrip.

(* ===================================================================== *)
(** * Dates and numbers survive their text form *)
(* ===================================================================== *)

Section CalendarFacts.
Import Js.

Ltac euclid := Z.div_mod_to_equations; lia.

Lemma month_of_day (doy : Z) :
  0 <= doy <= 365 ->
  let mp := (5 * doy + 2) / 153 in
  let d := doy - (153 * mp + 2) / 5 + 1 in
  let m := if mp <? 10 then mp + 3 else mp - 9 in
  1 <= d /\ 1 <= m <= 12 /\
  d <= (if m =? 2 then (if doy =? 365 then 29 else 28)
        else if (m =? 4) || (m =? 6) || (m =? 9) || (m =? 11) then 30 else 31).
Proof.
  intros H. cbv zeta.
  assert (Hmp : 0 <= (5 * doy + 2) / 153 <= 11) by euclid.
  set (mp := (5 * doy + 2) / 153) in *.
  assert (E : 153 * mp <= 5 * doy + 2 < 153 * mp + 153) by (subst mp; euclid).
  clearbody mp.
  assert (C : mp = 0 \/ mp = 1 \/ mp = 2 \/ mp = 3 \/ mp = 4 \/ mp = 5 \/ mp = 6
              \/ mp = 7 \/ mp = 8 \/ mp = 9 \/ mp = 10 \/ mp = 11) by lia.
  destruct (Z.eqb_spec doy 365) as [E5|E5];
    repeat (destruct C as [C|C]; [subst mp; cbn; lia|]); subst mp; cbn; lia.
Qed.

Lemma year_of_era (doe era : Z) :
  0 <= doe <= 146096 ->
  let yoe := (doe - doe / 1460 + doe / 36524 - doe / 146096) / 365 in
  let doy := doe - (365 * yoe + yoe / 4 - yoe / 100) in
  0 <= yoe <= 399 /\ 0 <= doy <= 365 /\
  (doy = 365 -> is_leap (yoe + era * 400 + 1) = true).
Proof.
  intros H. cbv zeta. split; [|split].
  - euclid.
  - euclid.
  - intros E. unfold is_leap.
    set (yoe := (doe - doe / 1460 + doe / 36524 - doe / 146096) / 365) in *.
    assert (B : 0 <= yoe <= 399) by (subst yoe; euclid).
    assert (L : (yoe + 1) mod 4 = 0 /\ ((yoe + 1) mod 100 <> 0 \/ yoe = 399)).
    { subst yoe. euclid. }
    clearbody yoe. clear E H.
    replace ((yoe + era * 400 + 1) mod 4) with ((yoe + 1) mod 4) by euclid.
    replace ((yoe + era * 400 + 1) mod 100) with ((yoe + 1) mod 100) by euclid.
    replace ((yoe + era * 400 + 1) mod 400) with ((yoe + 1) mod 400) by euclid.
    destruct L as [L4 [L100|L399]].
    + rewrite L4. apply Z.eqb_neq in L100. rewrite L100. reflexivity.
    + subst yoe. reflexivity.
Qed.

(** [days_from_civil] undoes [civil_from_days]. *)
Lemma days_from_civil_from_days (days : Z) :
  let '(y, m, d) := civil_from_days days in days_from_civil y m d = days.
Proof.
  unfold civil_from_days, days_from_civil. cbv zeta.
  repeat match goal with |- context [if ?c then _ else _] => destruct c eqn:? end;
  repeat match goal with
  | H : (_ <? _) = true |- _ => apply Z.ltb_lt in H
  | H : (_ <? _) = false |- _ => apply Z.ltb_ge in H
  | H : (_ <=? _) = true |- _ => apply Z.leb_le in H
  | H : (_ <=? _) = false |- _ => apply Z.leb_gt in H
  end; euclid.
Qed.

(** [civil_from_days] yields a date of the calendar. *)
Lemma civil_from_days_valid (days : Z) :
  let '(y, m, d) := civil_from_days days in
  1 <= m <= 12 /\ 1 <= d <= days_in_month y m.
Proof.
  unfold civil_from_days. cbv zeta.
  set (era := (days + 719468) / 146097).
  set (doe := days + 719468 - era * 146097).
  assert (Hdoe : 0 <= doe <= 146096) by (subst doe era; euclid).
  destruct (year_of_era doe era Hdoe) as (Hyoe & Hdoy & Hleap).
  set (yoe := (doe - doe / 1460 + doe / 36524 - doe / 146096) / 365) in *.
  set (doy := doe - (365 * yoe + yoe / 4 - yoe / 100)) in *.
  destruct (month_of_day doy Hdoy) as (Hd & Hm & Hmax).
  set (mp := (5 * doy + 2) / 153) in *.
  set (m := if mp <? 10 then mp + 3 else mp - 9) in *.
  set (d := doy - (153 * mp + 2) / 5 + 1) in *.
  clearbody d m doy yoe doe era.
  split; [assumption|]. split; [assumption|].
  unfold days_in_month.
  destruct (Z.eqb_spec m 2) as [E2|E2].
  - replace (m <=? 2) with true by (symmetry; apply Z.leb_le; lia).
    destruct (Z.eqb_spec doy 365) as [E5|E5].
    + now rewrite (Hleap E5).
    + destruct (is_leap _); lia.
  - destruct (m <=? 2); assumption.
Qed.

(** The years of valid time values have at most six digits. *)
Lemma civil_from_days_year (days : Z) :
  - 100000000 <= days <= 100000000 ->
  let '(y, _, _) := civil_from_days days in - 999999 <= y <= 999999.
Proof.
  intros H. unfold civil_from_days. cbv zeta.
  set (era := (days + 719468) / 146097).
  set (doe := days + 719468 - era * 146097).
  assert (Hera : - 700 <= era <= 700) by (subst era; euclid).
  assert (Hdoe : 0 <= doe <= 146096) by (subst doe era; euclid).
  destruct (year_of_era doe era Hdoe) as (Hyoe & _ & _).
  set (yoe := (doe - doe / 1460 + doe / 36524 - doe / 146096) / 365) in *.
  clearbody yoe doe era.
  destruct (_ <=? 2); lia.
Qed.

End CalendarFacts.

Section DigitFacts.
Import Js.

Lemma read_digits_snoc (w : nat) (s : string) (acc : Z) :
  read_digits (S w) s acc
  = match read_digits w s acc with
    | Some (v, String a rest) =>
        if is_digit a then Some (v * 10 + Z.of_nat (nat_of_ascii a - 48), rest)
        else None
    | _ => None
    end.
Proof.
  revert s acc. induction w as [|w IH]; intros s acc.
  - destruct s as [|a rest]; reflexivity.
  - change (read_digits (S (S w)) s acc)
      with (match s with
            | String a rest =>
                if is_digit a
                then read_digits (S w) rest (acc * 10 + Z.of_nat (nat_of_ascii a - 48))
                else None
            | EmptyString => None
            end).
    destruct s as [|a rest]; [reflexivity|].
    cbn [read_digits]. destruct (is_digit a); [|reflexivity].
    apply IH.
Qed.

Lemma digit_char (k : Z) :
  0 <= k < 10 ->
  is_digit (ascii_of_nat (48 + Z.to_nat k)) = true
  /\ Z.of_nat (nat_of_ascii (ascii_of_nat (48 + Z.to_nat k)) - 48) = k.
Proof.
  intros H.
  assert (C : k = 0 \/ k = 1 \/ k = 2 \/ k = 3 \/ k = 4 \/ k = 5 \/ k = 6
              \/ k = 7 \/ k = 8 \/ k = 9) by lia.
  repeat (destruct C as [C|C]; [subst k; split; reflexivity|]).
  subst k; split; reflexivity.
Qed.

Lemma pad_digits_succ (w : nat) (n : Z) :
  pad_digits (S w) n
  = (pad_digits w (n / 10) ++ String (ascii_of_nat (48 + Z.to_nat (n mod 10))) "")%string.
Proof. reflexivity. Qed.

(** Reading [w] digits takes back what [pad_digits w] wrote. *)
Lemma read_digits_pad (w : nat) (n : Z) (rest : string) (acc : Z) :
  0 <= n < 10 ^ Z.of_nat w ->
  read_digits w (pad_digits w n ++ rest) acc = Some (acc * 10 ^ Z.of_nat w + n, rest).
Proof.
  revert n rest acc. induction w as [|w IH]; intros n rest acc H.
  - cbn in *. f_equal. f_equal. lia.
  - rewrite Nat2Z.inj_succ, Z.pow_succ_r in * by lia.
    rewrite read_digits_snoc, pad_digits_succ, string_app_assoc.
    cbn [append]. rewrite IH by (Z.div_mod_to_equations; lia).
    destruct (digit_char (n mod 10)) as [Hd Hv]; [Z.div_mod_to_equations; lia|].
    rewrite Hd, Hv. f_equal. f_equal.
    pose proof (Z.div_mod n 10). lia.
Qed.

Lemma read_char_same (c : ascii) (s : string) : read_char c (String c s) = Some s.
Proof. unfold read_char. now rewrite Ascii.eqb_refl. Qed.

Lemma read_year_plain (s : string) (r : Z * string) :
  read_digits 4 s 0 = Some r -> read_year s = Some r.
Proof.
  destruct s as [|a rest]; [discriminate|].
  intros H. rewrite <- H.
  assert (D : is_digit a = true).
  { cbn [read_digits] in H. destruct (is_digit a); [reflexivity | discriminate]. }
  clear H. unfold read_year.
  destruct a as [[] [] [] [] [] [] [] []]; try discriminate D; reflexivity.
Qed.

End DigitFacts.

Section DateFacts.
Import Js.

Ltac euclid := Z.div_mod_to_equations; lia.

(** [Date.parse(t.toISOString())] is [t], for every valid time value. *)
Lemma parse_iso_utc_toISOString (t : Z) :
  valid_time t -> parse_iso_utc (toISOString t) = Some t.
Proof.
  unfold valid_time, toISOString, msPerDay. intros Ht.
  pose proof (days_from_civil_from_days (t / 86400000)) as Hinv.
  pose proof (civil_from_days_valid (t / 86400000)) as Hval.
  pose proof (civil_from_days_year (t / 86400000)) as Hyear.
  destruct (civil_from_days (t / 86400000)) as [[y m] d].
  destruct Hval as ((Hm1 & Hm2) & Hd1 & Hd2).
  assert (Hy : - 999999 <= y <= 999999) by (apply Hyear; euclid).
  clear Hyear.
  set (ms := t mod 86400000).
  assert (Hms : 0 <= ms < 86400000) by (subst ms; euclid).
  assert (Hdim : days_in_month y m <= 31).
  { unfold days_in_month. repeat destruct (_ : bool); lia. }
  set (rest := ("-" ++ pad_digits 2 m ++ "-" ++ pad_digits 2 d ++ "T"
    ++ pad_digits 2 (ms / 3600000) ++ ":"
    ++ pad_digits 2 (ms / 60000 mod 60) ++ ":"
    ++ pad_digits 2 (ms / 1000 mod 60) ++ "."
    ++ pad_digits 3 (ms mod 1000) ++ "Z")%string).
  assert (Hread : forall r,
    read_year ((if ((0 <=? y) && (y <=? 9999))%Z then pad_digits 4 y
                else if (y <? 0)%Z then "-" ++ pad_digits 6 (- y)%Z
                else "+" ++ pad_digits 6 y) ++ r)%string = Some (y, r)).
  { intros r. destruct ((0 <=? y) && (y <=? 9999)) eqn:E4.
    - apply andb_prop in E4 as [E0 E9].
      apply Z.leb_le in E0. apply Z.leb_le in E9.
      apply read_year_plain. rewrite read_digits_pad by (cbn; lia).
      f_equal.
    - destruct (Z.ltb_spec y 0) as [Hneg|Hpos].
      + cbn [append read_year]. rewrite read_digits_pad by (cbn; lia).
        cbn [Z.mul Z.add].
        destruct (Z.eqb_spec (- y) 0); [lia|]. f_equal. f_equal. lia.
      + cbn [append read_year]. rewrite read_digits_pad by (cbn; lia).
        reflexivity. }
  unfold parse_iso_utc, msPerDay. rewrite Hread. subst rest.
  cbn [append]. rewrite read_char_same.
  rewrite read_digits_pad by (cbn; lia). cbn [append Z.mul Z.add].
  rewrite read_char_same.
  rewrite read_digits_pad by (cbn; lia). cbn [append Z.mul Z.add].
  rewrite read_char_same.
  rewrite read_digits_pad by (cbn; euclid). cbn [append Z.mul Z.add].
  rewrite read_char_same.
  rewrite read_digits_pad by (cbn; euclid). cbn [append Z.mul Z.add].
  rewrite read_char_same.
  rewrite read_digits_pad by (cbn; euclid). cbn [append Z.mul Z.add].
  rewrite read_char_same.
  rewrite read_digits_pad by (cbn; euclid). cbn [append Z.mul Z.add].
  replace ((1 <=? m) && (m <=? 12) && (1 <=? d) && (d <=? days_in_month y m)
           && (ms / 3600000 <=? 23) && (ms / 60000 mod 60 <=? 59)
           && (ms / 1000 mod 60 <=? 59)) with true.
  2:{ symmetry. repeat (apply andb_true_intro; split); apply Z.leb_le;
      try lia; euclid. }
  rewrite Hinv.
  replace (t / 86400000 * 86400000 + ms / 3600000 * 3600000
           + ms / 60000 mod 60 * 60000 + ms / 1000 mod 60 * 1000 + ms mod 1000)
    with t by (subst ms; euclid).
  unfold valid_timeb.
  replace (_ && _) with true; [reflexivity|].
  symmetry. apply andb_true_intro. split; apply Z.leb_le; lia.
Qed.

End DateFacts.

Section NumberTextFacts.
Import Js.

Lemma all_chars_forallb (P : ascii -> bool) (s : string) :
  all_chars P s = forallb P (list_ascii_of_string s).
Proof. induction s as [|c s IH]; [reflexivity|]. cbn. now rewrite IH. Qed.

Lemma all_chars_rev (P : ascii -> bool) (s : string) :
  all_chars P (string_rev s) = all_chars P s.
Proof.
  unfold string_rev. rewrite !all_chars_forallb, list_ascii_of_string_of_list_ascii.
  generalize (list_ascii_of_string s). intros l.
  destruct (forallb P l) eqn:E.
  - apply forallb_forall. intros x Hx. apply in_rev in Hx.
    rewrite forallb_forall in E. auto.
  - destruct (forallb P (rev l)) eqn:E'; [|reflexivity].
    rewrite <- E. symmetry. apply forallb_forall. intros x Hx.
    rewrite forallb_forall in E'. apply E'. now apply in_rev in Hx.
Qed.

Lemma string_rev_involutive (s : string) : string_rev (string_rev s) = s.
Proof.
  unfold string_rev.
  now rewrite list_ascii_of_string_of_list_ascii, rev_involutive,
    string_of_list_ascii_of_string.
Qed.

Lemma digit_not_space (c : ascii) : is_digit c = true -> is_space c = false.
Proof.
  destruct c as [[] [] [] [] [] [] [] []]; intros H; try discriminate H; reflexivity.
Qed.

Lemma trim_start_digits (s : string) : all_chars is_digit s = true -> trim_start s = s.
Proof.
  destruct s as [|c s]; [reflexivity|]. cbn. intros H.
  apply andb_prop in H as [H _]. now rewrite (digit_not_space c H).
Qed.

Lemma trim_digits (s : string) : all_chars is_digit s = true -> trim s = s.
Proof.
  intros H. unfold trim. rewrite (trim_start_digits s H).
  rewrite trim_start_digits by now rewrite all_chars_rev.
  apply string_rev_involutive.
Qed.

Lemma span_digits_all (s : string) :
  all_chars is_digit s = true -> span_digits s = (s, "").
Proof.
  induction s as [|c s IH]; [reflexivity|]. cbn. intros H.
  apply andb_prop in H as [Hc Hs]. now rewrite Hc, IH.
Qed.

Lemma string_of_uint_digits (u : Decimal.uint) :
  all_chars is_digit (DecimalString.NilEmpty.string_of_uint u) = true.
Proof. induction u; cbn; auto. Qed.

Lemma Number_toString_digits (n : Z) :
  0 <= n -> all_chars is_digit (Number_toString n) = true.
Proof.
  intros H. destruct n as [|p|p]; [reflexivity| |lia].
  apply string_of_uint_digits.
Qed.

Lemma non_decimal_literal_digits (s : string) :
  all_chars is_digit s = true -> non_decimal_literal s = None.
Proof.
  destruct s as [|a [|x rest]]; intros H; try reflexivity.
  - unfold non_decimal_literal. destruct a as [[] [] [] [] [] [] [] []]; reflexivity.
  - cbn [all_chars] in H. apply andb_prop in H as [_ H].
    apply andb_prop in H as [Hx _].
    unfold non_decimal_literal.
    destruct a as [[] [] [] [] [] [] [] []]; try reflexivity.
    destruct x as [[] [] [] [] [] [] [] []]; try discriminate Hx; reflexivity.
Qed.

Lemma unsigned_decimal_digits (s : string) :
  all_chars is_digit s = true -> s <> ""%string ->
  unsigned_decimal false s = NInt (digits_value s).
Proof.
  intros H Hne. unfold unsigned_decimal.
  replace (s =? "Infinity")%string with false.
  2:{ destruct s as [|a rest]; [contradiction|].
      cbn [all_chars] in H. apply andb_prop in H as [Ha _].
      destruct a as [[] [] [] [] [] [] [] []]; try discriminate Ha; reflexivity. }
  rewrite (span_digits_all s H).
  destruct s as [|a rest]; [contradiction|].
  cbn [exponent_part String.length Z.of_nat Z.sub Z.opp Z.add].
  rewrite string_app_nil_r. unfold scaled. cbn [Z.leb Z.compare Z.pow Z.pow_pos].
  f_equal. change (10 ^ 0) with 1. lia.
Qed.

(** [Number(String(n))] is [n], for a non-negative integer. *)
Lemma StringToNumber_toString (n : Z) :
  0 <= n -> StringToNumber (Number_toString n) = NInt n.
Proof.
  intros Hn. pose proof (Number_toString_digits n Hn) as Hd.
  pose proof (digits_value_toString n Hn) as Hv.
  unfold StringToNumber. rewrite (trim_digits _ Hd).
  destruct (Number_toString n) as [|a rest] eqn:E.
  - destruct n as [|p|p]; [discriminate E| |lia].
    (* a positive number has a digit *)
    exfalso. cbn in Hv. discriminate Hv.
  - rewrite (non_decimal_literal_digits _ Hd).
    rewrite (unsigned_decimal_digits _ Hd) by discriminate.
    rewrite Hv.
    cbn [all_chars] in Hd. apply andb_prop in Hd as [Ha _].
    destruct a as [[] [] [] [] [] [] [] []]; try discriminate Ha; reflexivity.
Qed.

End NumberTextFacts.

(* ===================================================================== *)
(** * The serializer's output, and what the parser makes of it *)
(* ===================================================================== *)

Section FlatFacts.
Import Js Url Qs Zod Codec Wire Flat.
Local Open Scope list_scope.

Lemma defined_entries_cons (k : string) (keys : list string) (val : string -> JsVal) :
  defined_entries (k :: keys) val
  = (if is_undefined (val k) then [] else [(k, val k)]) ++ defined_entries keys val.
Proof. reflexivity. Qed.

Lemma has_defined_entries (keys : list string) (val : string -> JsVal) (k : string) :
  has (defined_entries keys val) k = true -> In k keys.
Proof.
  induction keys as [|k0 keys IH]; [discriminate|].
  rewrite defined_entries_cons, has_app. intros H.
  apply orb_true_iff in H as [H|H]; [|right; auto].
  destruct (is_undefined (val k0)); [discriminate|].
  simpl in H. rewrite orb_false_r in H. apply String.eqb_eq in H. now left.
Qed.

Lemma fold_set_entries (val : string -> JsVal) (keys : list string) (acc : JsObject) :
  NoDup keys -> (forall k, In k keys -> has acc k = false) ->
  fold_left (fun acc k => set_if_defined acc k (val k)) keys acc
  = acc ++ defined_entries keys val.
Proof.
  revert acc. induction keys as [|k keys IH]; intros acc Hnd Hfresh.
  - cbn. now rewrite app_nil_r.
  - inversion Hnd as [|? ? Hk Hnd']; subst.
    cbn [fold_left]. rewrite defined_entries_cons. unfold set_if_defined at 2.
    destruct (is_undefined (val k)).
    + apply IH; auto. intros k' Hk'. apply Hfresh. now right.
    + rewrite set_absent by (apply Hfresh; now left).
      rewrite IH; auto.
      * now rewrite <- app_assoc.
      * intros k' Hk'. rewrite has_app, Hfresh by now right.
        simpl. rewrite orb_false_r. apply String.eqb_neq. intros ->. contradiction.
Qed.

Lemma get_defined_entries (keys : list string) (val : string -> JsVal) (k : string) :
  In k keys -> get (defined_entries keys val) k = val k.
Proof.
  induction keys as [|k0 keys IH]; [contradiction|].
  intros Hin. rewrite defined_entries_cons.
  destruct (String.eqb_spec k0 k) as [->|Hne].
  - destruct (is_undefined (val k)) eqn:E.
    + cbn [app]. destruct (in_dec string_dec k keys) as [Hk|Hk]; auto.
      rewrite get_absent.
      * destruct (val k); try discriminate E; reflexivity.
      * destruct (has (defined_entries keys val) k) eqn:Hh; auto.
        apply has_defined_entries in Hh. contradiction.
    + cbn. now rewrite String.eqb_refl.
  - destruct Hin as [->|Hin]; [contradiction|].
    destruct (is_undefined (val k0)); cbn; auto.
    apply String.eqb_neq in Hne. now rewrite Hne, IH.
Qed.

Lemma nodup_defined_entries (keys : list string) (val : string -> JsVal) :
  NoDup keys -> nodup_keys (defined_entries keys val) = true.
Proof.
  induction keys as [|k keys IH]; intros Hnd; [reflexivity|].
  inversion Hnd as [|? ? Hk Hnd']; subst.
  rewrite defined_entries_cons.
  destruct (is_undefined (val k)); cbn; auto.
  rewrite IH by assumption. rewrite andb_true_r. apply negb_true_iff.
  destruct (has (defined_entries keys val) k) eqn:Hh; auto.
  apply has_defined_entries in Hh. contradiction.
Qed.

Lemma forallb_defined_entries (Q : string * JsVal -> bool) (keys : list string)
  (val : string -> JsVal) :
  (forall k, In k keys -> is_undefined (val k) || Q (k, val k) = true) ->
  forallb Q (defined_entries keys val) = true.
Proof.
  induction keys as [|k keys IH]; intros H; [reflexivity|].
  rewrite defined_entries_cons, forallb_app. apply andb_true_intro. split.
  - pose proof (H k (or_introl eq_refl)) as Hk.
    destruct (is_undefined (val k)); [reflexivity|]. cbn in *. now rewrite Hk.
  - apply IH. intros k' Hk'. apply H. now right.
Qed.

Lemma map_defined_entries (g : JsVal -> JsVal) (keys : list string)
  (val : string -> JsVal) :
  (forall v, is_undefined (g v) = is_undefined v) ->
  map (fun kv => (fst kv, g (snd kv))) (defined_entries keys val)
  = defined_entries keys (fun k => g (val k)).
Proof.
  intros Hg. induction keys as [|k keys IH]; [reflexivity|].
  rewrite !defined_entries_cons, map_app, IH, Hg.
  now destruct (is_undefined (val k)).
Qed.

Lemma FLAT_KEYS_NoDup : NoDup FLAT_KEYS.
Proof.
  repeat (constructor; [cbn; intuition discriminate|]). constructor.
Qed.

Lemma In_FLAT_KEYS (k : string) : In k FILTER_KEYS -> In k FLAT_KEYS.
Proof. intros H. unfold FLAT_KEYS. apply in_or_app. right. apply in_or_app. now left. Qed.

Lemma fold_left_fixed {A B} (f : A -> B -> A) (l : list B) (a : A) :
  (forall a b, In b l -> f a b = a) -> fold_left f l a = a.
Proof.
  revert a. induction l as [|b l IH]; intros a H; [reflexivity|].
  cbn. rewrite H by now left. apply IH. intros a' b' Hb'. apply H. now right.
Qed.

(** [prepareForSerialization] writes, in the order of [FLAT_KEYS], the keys
    whose value is defined. *)
Lemma prepareForSerialization_entries (args : TracesPaginatedArg) :
  prepareForSerialization args = defined_entries FLAT_KEYS (flat_value args).
Proof.
  rewrite <- (app_nil_l (defined_entries _ _)).
  rewrite <- fold_set_entries by (auto using FLAT_KEYS_NoDup).
  destruct args as [fo po oo].
  set (F := fun (acc : JsObject) (k : string) =>
              set_if_defined acc k
                (flat_value {| filters := fo; pagination := po; orderBy := oo |} k)).
  assert (Sorder : forall r,
    match oo with
    | Some o =>
        set r "orderBy"
          (JObj ((match field o with
                  | Some x => [("field", JStr (TracesOrderByField_text x))]
                  | None => []
                  end)
                 ++ (match direction o with
                     | Some x => [("direction", JStr (SortDirection_text x))]
                     | None => []
                     end)))
    | None => r
    end = F r "orderBy").
  { intros r. unfold F. destruct oo; reflexivity. }
  unfold prepareForSerialization. cbv zeta. cbn [filters pagination orderBy].
  rewrite Sorder.
  change (set_if_defined
            (set_if_defined [] "page"
               match po with Some p => opt_js JNum (page p) | None => JUndefined end)
            "perPage"
            match po with Some p => opt_js JNum (perPage p) | None => JUndefined end)
    with (F (F [] "page") "perPage").
  unfold FLAT_KEYS. rewrite !fold_left_app. cbn [fold_left]. f_equal.
  destruct fo as [f|].
  - subst F. set (F := fun (acc : JsObject) (k : string) =>
              set_if_defined acc k
                (flat_value {| filters := Some f; pagination := po; orderBy := oo |} k)).
    assert (Sstarted : forall r,
      match startedAt f with
      | Some dr => set r "startedAt" (dateRange_object dr)
      | None => r
      end = F r "startedAt").
    { intros r. unfold F. destruct (startedAt f) eqn:E; cbn; rewrite E; reflexivity. }
    assert (Sended : forall r,
      match endedAt f with
      | Some dr => set r "endedAt" (dateRange_object dr)
      | None => r
      end = F r "endedAt").
    { intros r. unfold F. destruct (endedAt f) eqn:E; cbn; rewrite E; reflexivity. }
    assert (Stags : forall r,
      match tags f with
      | Some (t :: ts) => set r "tags" (JArr (map JStr (t :: ts)))
      | _ => r
      end = F r "tags").
    { intros r. unfold F. destruct (tags f) as [[|]|] eqn:E; cbn; rewrite E; reflexivity. }
    assert (Smeta : forall r,
      match metadata f with
      | Some (kv :: m) => set r "metadata" (JObj (kv :: m))
      | _ => r
      end = F r "metadata").
    { intros r. unfold F. destruct (metadata f) as [[|]|] eqn:E; cbn; rewrite E; reflexivity. }
    assert (Sscope : forall r,
      match scope f with
      | Some (kv :: m) => set r "scope" (JObj (kv :: m))
      | _ => r
      end = F r "scope").
    { intros r. unfold F. destruct (scope f) as [[|]|] eqn:E; cbn; rewrite E; reflexivity. }
    assert (Sversion : forall r,
      match versionInfo f with
      | Some (kv :: m) => set r "versionInfo" (JObj (kv :: m))
      | _ => r
      end = F r "versionInfo").
    { intros r. unfold F. destruct (versionInfo f) as [[|]|] eqn:E; cbn; rewrite E;
        reflexivity. }
    cbv beta iota.
    rewrite Sversion, Sscope, Smeta, Stags, Sended, Sstarted.
    unfold FILTER_KEYS. rewrite fold_left_app.
    cbn [fold_left NESTED_FILTER_KEYS]. reflexivity.
  - unfold F. symmetry. apply fold_left_fixed.
    intros a k Hk. cbn in Hk.
    repeat (destruct Hk as [<-|Hk]; [reflexivity|]). contradiction.
Qed.

End FlatFacts.

Section WireFacts.
Import Js Url Qs Zod Codec Wire Flat.
Local Open Scope list_scope.

Variable SpanType_values : list string.

Lemma safe_root_FLAT_KEYS (k : string) : In k FLAT_KEYS -> safe_root k = true.
Proof.
  assert (H : forallb safe_root FLAT_KEYS = true) by (vm_compute; reflexivity).
  rewrite forallb_forall in H. apply H.
Qed.

Lemma forallb_is_string_map (l : list string) : forallb is_string (map JStr l) = true.
Proof. induction l; cbn; auto. Qed.

Lemma tags_ok_wire (l : list string) :
  tags_ok l = true -> wire_value_ok (JArr (map JStr l)) = true.
Proof.
  unfold tags_ok, arrayLimit. intros H. apply andb_prop in H as [Hne Hlen].
  apply Z.leb_le in Hlen. cbn [wire_value_ok].
  rewrite forallb_is_string_map, length_map, andb_true_r.
  apply andb_true_intro. split.
  - destruct l; [discriminate | reflexivity].
  - apply Nat.leb_le. lia.
Qed.

Ltac by_cases :=
  repeat (match goal with
          | |- context [opt_js _ ?o] => destruct o
          | |- context [match ?o with _ => _ end] => destruct o
          end; cbn [opt_js]);
  reflexivity.

Ltac evaluate_key :=
  cbn [flat_value filter_value scalar_filter String.eqb Ascii.eqb Bool.eqb
       filters pagination orderBy].

Lemma filter_value_wire (f : TracesFilter) (k : string) :
  filter_ok SpanType_values f = true -> In k FILTER_KEYS ->
  is_undefined (filter_value f k) || wire_value_ok (filter_value f k) = true.
Proof.
  unfold filter_ok. intros H Hk.
  apply andb_prop in H as [H Hversion]. apply andb_prop in H as [H Hscope].
  apply andb_prop in H as [H Hmeta]. apply andb_prop in H as [H Htags].
  apply andb_prop in H as [H Hspan]. apply andb_prop in H as [H Hended].
  apply andb_prop in H as [H Hstarted].
  unfold FILTER_KEYS in Hk. apply in_app_or in Hk as [Hk|Hk].
  - cbn in Hk.
    repeat (destruct Hk as [<-|Hk]; [evaluate_key; by_cases|]). contradiction.
  - cbn in Hk. destruct Hk as [<-|[<-|[<-|[<-|[<-|[<-|[]]]]]]]; evaluate_key.
    + destruct (startedAt f) as [[s e]|]; [|reflexivity].
      cbn in Hstarted. unfold dateRange_ok in Hstarted. cbn in Hstarted.
      destruct s, e; try reflexivity; discriminate Hstarted.
    + destruct (endedAt f) as [[s e]|]; [|reflexivity].
      cbn in Hended. unfold dateRange_ok in Hended. cbn in Hended.
      destruct s, e; try reflexivity; discriminate Hended.
    + destruct (tags f) as [[|t ts]|]; try reflexivity.
      cbn [holds] in Htags. unfold nonempty_tags.
      now rewrite (tags_ok_wire _ Htags).
    + destruct (metadata f) as [[|kv m]|]; try reflexivity.
      cbn [holds] in Hmeta. unfold record_ok in Hmeta. unfold nonempty_object.
      now rewrite Hmeta.
    + destruct (scope f) as [[|kv m]|]; try reflexivity.
      cbn [holds] in Hscope. unfold record_ok in Hscope. unfold nonempty_object.
      now rewrite Hscope.
    + destruct (versionInfo f) as [[|kv m]|]; try reflexivity.
      cbn [holds] in Hversion. unfold record_ok in Hversion. unfold nonempty_object.
      now rewrite Hversion.
Qed.

Lemma flat_value_wire (args : TracesPaginatedArg) (k : string) :
  round_trips SpanType_values args = true -> In k FLAT_KEYS ->
  is_undefined (flat_value args k) || wire_value_ok (flat_value args k) = true.
Proof.
  unfold round_trips. intros H Hk.
  apply andb_prop in H as [H _]. apply andb_prop in H as [H Horder].
  apply andb_prop in H as [Hpage Hfilter].
  destruct args as [fo po oo]. cbn [filters pagination orderBy] in *.
  unfold FLAT_KEYS in Hk. apply in_app_or in Hk as [Hk|Hk].
  - cbn in Hk. destruct Hk as [<-|[<-|[]]]; evaluate_key; by_cases.
  - apply in_app_or in Hk as [Hk|Hk].
    + assert (E : flat_value {| filters := fo; pagination := po; orderBy := oo |} k
                  = match fo with Some f => filter_value f k | None => JUndefined end).
      { cbn in Hk.
        repeat (destruct Hk as [<-|Hk]; [reflexivity|]). contradiction. }
      rewrite E. destruct fo as [f|]; [|reflexivity].
      now apply filter_value_wire.
    + cbn in Hk. destruct Hk as [<-|[]]. evaluate_key.
      destruct oo as [[fl dr]|]; [|reflexivity].
      cbn in Horder. unfold orderBy_ok in Horder. cbn in Horder.
      destruct fl as [[]|], dr as [[]|]; try reflexivity; discriminate Horder.
Qed.

(** Under [round_trips], what the serializer hands to [qs.stringify] is
    what [qs] carries faithfully. *)
Lemma prepareForSerialization_wire (args : TracesPaginatedArg) :
  round_trips SpanType_values args = true ->
  wire_ok (prepareForSerialization args) = true.
Proof.
  intros H. unfold wire_ok. apply andb_true_intro. split.
  - rewrite prepareForSerialization_entries. apply andb_true_intro. split.
    + apply forallb_defined_entries. intros k Hk. cbn [fst snd].
      rewrite (safe_root_FLAT_KEYS k Hk). cbn [andb].
      now apply flat_value_wire.
    + apply nodup_defined_entries, FLAT_KEYS_NoDup.
  - unfold round_trips in H. now apply andb_prop in H as [_ H].
Qed.

Lemma is_undefined_read_back (v : JsVal) : is_undefined (read_back v) = is_undefined v.
Proof. destruct v; reflexivity. Qed.

(** What [qs.parse] holds under a top-level key after the round trip. *)
Lemma get_read_back_prepared (args : TracesPaginatedArg) (k : string) :
  In k FLAT_KEYS ->
  get (read_back_object (prepareForSerialization args)) k
  = read_back (flat_value args k).
Proof.
  intros Hk. rewrite prepareForSerialization_entries. unfold read_back_object.
  rewrite map_defined_entries by apply is_undefined_read_back.
  now rewrite get_defined_entries.
Qed.

End WireFacts.

Section RestructureFacts.
Import Js Url Qs Zod Codec Wire Flat.
Local Open Scope list_scope.

Lemma is_undefined_inv (v : JsVal) : is_undefined v = true -> v = JUndefined.
Proof. destruct v; try discriminate; reflexivity. Qed.

Lemma get_set_same (o : JsObject) (k : string) (v : JsVal) : get (set o k v) k = v.
Proof.
  induction o as [|[k' w] o IH]; cbn.
  - now rewrite String.eqb_refl.
  - destruct (k' =? k)%string eqn:E; cbn; now rewrite E.
Qed.

Lemma get_set_other (o : JsObject) (k k' : string) (v : JsVal) :
  k <> k' -> get (set o k v) k' = get o k'.
Proof.
  intros Hne. induction o as [|[k0 w] o IH]; cbn.
  - apply String.eqb_neq in Hne. now rewrite Hne.
  - destruct (k0 =? k)%string eqn:E; cbn.
    + apply String.eqb_eq in E. subst k0.
      apply String.eqb_neq in Hne. now rewrite Hne.
    + now rewrite IH.
Qed.

Lemma get_fold_copy (parsed : JsObject) (keys : list string) (acc : JsObject)
  (k : string) :
  get (fold_left (copy_defined parsed) keys acc) k
  = if existsb (String.eqb k) keys && negb (is_undefined (get parsed k))
    then get parsed k else get acc k.
Proof.
  revert acc. induction keys as [|k0 keys IH]; intros acc; [reflexivity|].
  cbn [fold_left existsb]. rewrite IH. unfold copy_defined.
  destruct (String.eqb_spec k k0) as [->|Hne].
  - cbn [orb]. destruct (is_undefined (get parsed k0)) eqn:E.
    + now rewrite andb_false_r.
    + rewrite andb_true_r. cbn [negb].
      destruct (existsb _ keys); cbn [andb]; [reflexivity|].
      now rewrite get_set_same.
  - cbn [orb]. destruct (existsb _ keys && _); [reflexivity|].
    destruct (is_undefined (get parsed k0)); [reflexivity|].
    rewrite get_set_other; auto.
Qed.

(** The filter object of step 3 holds, under each filter key, what the
    parsed query holds. *)
Lemma get_filters (parsed : JsObject) (k : string) :
  In k FILTER_KEYS ->
  get (fold_left (copy_defined parsed) FILTER_KEYS []) k = get parsed k.
Proof.
  intros Hk. rewrite get_fold_copy.
  replace (existsb (String.eqb k) FILTER_KEYS) with true.
  2:{ symmetry. apply existsb_exists. exists k. split; auto. apply String.eqb_refl. }
  cbn [andb get]. destruct (is_undefined (get parsed k)) eqn:E; [|reflexivity].
  cbn. symmetry. now apply is_undefined_inv.
Qed.

Lemma fold_copy_nothing (parsed : JsObject) (keys : list string) (acc : JsObject) :
  (forall k, In k keys -> get parsed k = JUndefined) ->
  fold_left (copy_defined parsed) keys acc = acc.
Proof.
  intros H. apply fold_left_fixed. intros a k Hk.
  unfold copy_defined. now rewrite (H k Hk).
Qed.

Lemma fold_copy_something (parsed : JsObject) (keys : list string) (k : string) :
  In k keys -> is_undefined (get parsed k) = false ->
  fold_left (copy_defined parsed) keys [] <> [].
Proof.
  intros Hk Hdef E.
  pose proof (get_fold_copy parsed keys [] k) as G. rewrite E in G.
  replace (existsb (String.eqb k) keys) with true in G.
  2:{ symmetry. apply existsb_exists. exists k. split; auto. apply String.eqb_refl. }
  rewrite Hdef in G. cbn in G. rewrite <- G in Hdef. discriminate.
Qed.

(** What step 3 hands to the schema. *)
Lemma restructure_gets (parsed : JsObject) :
  let filters_ := fold_left (copy_defined parsed) FILTER_KEYS [] in
  get (restructure parsed) "pagination"
  = (if negb (is_undefined (get parsed "page"))
        || negb (is_undefined (get parsed "perPage"))
     then JObj (copy_defined parsed (copy_defined parsed [] "page") "perPage")
     else JUndefined)
  /\ get (restructure parsed) "filters"
     = match filters_ with [] => JUndefined | _ => JObj filters_ end
  /\ get (restructure parsed) "orderBy" = get parsed "orderBy".
Proof.
  unfold restructure. cbv zeta.
  rewrite <- (fold_left_app (copy_defined parsed) SCALAR_FILTER_KEYS
                ["startedAt"; "endedAt"; "tags"; "metadata"; "scope"; "versionInfo"]).
  change (SCALAR_FILTER_KEYS
          ++ ["startedAt"; "endedAt"; "tags"; "metadata"; "scope"; "versionInfo"])
    with FILTER_KEYS.
  generalize (fold_left (copy_defined parsed) FILTER_KEYS []). intros fs.
  generalize (JObj (copy_defined parsed (copy_defined parsed [] "page") "perPage")).
  intros pg.
  unfold copy_defined at 1. unfold copy_defined at 1. unfold copy_defined at 1.
  destruct (negb (is_undefined (get parsed "page"))
            || negb (is_undefined (get parsed "perPage")));
    destruct fs as [|e fs];
    destruct (is_undefined (get parsed "orderBy")) eqn:E;
    try apply is_undefined_inv in E; try rewrite E;
    repeat split; reflexivity.
Qed.

End RestructureFacts.

(* ===================================================================== *)
(** * The schema accepts what was written, field by field *)
(* ===================================================================== *)

Section SchemaFacts.
Import Js Url Qs Zod Codec Wire Flat.
Local Open Scope list_scope.

Variable SpanType_values : list string.
Variable Date_parse_other : string -> option Z.

Lemma shape_key_OK {A B} (fs : Shape (A -> B)) (key : string) (schema : ZodType A)
  (p : list string) (data : JsObject) (f : A -> B) (a : A) :
  fs p data = OK f -> schema (p ++ [key]) (get data key) = OK a ->
  shape_key fs key schema p data = OK (f a).
Proof. intros H1 H2. unfold shape_key. now rewrite H1, H2. Qed.

Lemma z_optional_OK {A} (schema : ZodType A) (p : list string) (v : JsVal) (a : A) :
  schema p v = OK a -> is_undefined v = false -> z_optional schema p v = OK (Some a).
Proof. intros H Hv. unfold z_optional. destruct v; try discriminate Hv; now rewrite H. Qed.

Lemma string_reads (p : list string) (o : option string) :
  z_optional z_string p (read_back (opt_js JStr o)) = OK o.
Proof. destruct o; reflexivity. Qed.

Lemma entityType_reads (p : list string) (o : option SpanEntityType) :
  z_optional spanEntityTypeSchema p
    (read_back (opt_js (fun e => JStr (SpanEntityType_text e)) o)) = OK o.
Proof. destruct o as [[]|]; reflexivity. Qed.

Lemma status_reads (p : list string) (o : option SpanStatus) :
  z_optional spanStatusSchema p
    (read_back (opt_js (fun s => JStr (SpanStatus_text s)) o)) = OK o.
Proof. destruct o as [[]|]; reflexivity. Qed.

Lemma spanType_reads (p : list string) (o : option string) :
  holds (fun s => existsb (String.eqb s) SpanType_values) o = true ->
  z_optional (spanTypeSchema SpanType_values) p (read_back (opt_js JStr o)) = OK o.
Proof.
  destruct o as [s|]; [|reflexivity]. cbn. intros H.
  unfold spanTypeSchema, z_nativeEnum. now rewrite H.
Qed.

Lemma hasChildError_reads (p : list string) (o : option bool) :
  z_preprocess hasChildError_preprocess (z_optional z_boolean) p
    (read_back (opt_js JBool o)) = OK o.
Proof. destruct o as [[]|]; reflexivity. Qed.

Lemma date_reads (p : list string) (t : Z) :
  valid_timeb t = true ->
  z_coerce_date (Date_parse Date_parse_other) p (JStr (toISOString t)) = OK t.
Proof.
  intros H. unfold z_coerce_date, Date_of, Date_parse.
  rewrite parse_iso_utc_toISOString; [reflexivity|].
  unfold valid_timeb in H. apply andb_prop in H as [H1 H2].
  apply Z.leb_le in H1. apply Z.leb_le in H2. unfold valid_time. lia.
Qed.

Lemma optional_date_reads (p : list string) (o : option Z) :
  holds valid_timeb o = true ->
  z_optional (z_coerce_date (Date_parse Date_parse_other)) p
    (opt_js (fun t => JStr (toISOString t)) o) = OK o.
Proof.
  destruct o as [t|]; [|reflexivity]. cbn [holds opt_js]. intros H.
  apply z_optional_OK; [|reflexivity]. now apply date_reads.
Qed.

Lemma dateRange_reads (p : list string) (o : option DateRange) :
  holds dateRange_ok o = true ->
  z_optional (dateRangeSchema Date_parse_other) p (read_back (opt_js dateRange_object o))
  = OK o.
Proof.
  destruct o as [[s e]|]; [|reflexivity]. cbn [holds opt_js].
  unfold dateRange_ok. cbn [start end_]. intros H.
  apply andb_prop in H as [H He]. apply andb_prop in H as [_ Hs].
  apply z_optional_OK; [|reflexivity].
  unfold dateRangeSchema, dateRange_object, z_object. cbn [read_back start end_].
  refine (shape_key_OK _ _ _ _ _ _ _ _ _).
  - refine (shape_key_OK _ _ _ _ _ _ _ _ _); [reflexivity|].
    replace (get _ "start") with (opt_js (fun t => JStr (toISOString t)) s)
      by (destruct s, e; reflexivity).
    now apply optional_date_reads.
  - replace (get _ "end") with (opt_js (fun t => JStr (toISOString t)) e)
      by (destruct s, e; reflexivity).
    now apply optional_date_reads.
Qed.

Lemma parse_items_strings (p : list string) (l : list string) (i : nat) :
  parse_items z_string p (map JStr l) i = OK l.
Proof.
  revert i. induction l as [|s l IH]; intros i; [reflexivity|].
  cbn [map parse_items]. rewrite IH. reflexivity.
Qed.

Lemma tags_reads (p : list string) (o : option (list string)) :
  holds tags_ok o = true ->
  z_preprocess tags_preprocess (z_optional (z_array z_string)) p
    (read_back (nonempty_tags o)) = OK o.
Proof.
  destruct o as [[|t ts]|]; [discriminate| |reflexivity]. intros _.
  unfold z_preprocess. cbn [nonempty_tags read_back tags_preprocess].
  apply z_optional_OK; [|reflexivity]. apply parse_items_strings.
Qed.

Lemma filter_safe_keys (m : JsObject) :
  forallb (fun kv => safe_key (fst kv) && is_string (snd kv)) m = true ->
  filter (fun kv => negb (fst kv =? "__proto__")%string) m = m.
Proof.
  induction m as [|[k v] m IH]; [reflexivity|].
  cbn [forallb filter fst snd]. intros H.
  apply andb_prop in H as [Hk Hm]. apply andb_prop in Hk as [Hk _].
  rewrite (IH Hm).
  destruct (String.eqb_spec k "__proto__") as [->|]; [|reflexivity].
  vm_compute in Hk. discriminate Hk.
Qed.

Lemma record_reads (p : list string) (o : option JsObject) :
  holds record_ok o = true ->
  z_optional z_record_unknown p (read_back (nonempty_object o)) = OK o.
Proof.
  destruct o as [[|kv m]|]; [discriminate| |reflexivity].
  cbn [holds nonempty_object read_back]. unfold record_ok, wire_value_ok.
  intros H. apply andb_prop in H as [H _]. apply andb_prop in H as [_ H].
  apply z_optional_OK; [|reflexivity].
  unfold z_record_unknown. now rewrite (filter_safe_keys _ H).
Qed.

Lemma number_reads (p : list string) (lo : Z) (o : option Z) :
  0 <= lo ->
  holds (fun n => (lo <=? n) && (n <=? MAX_SAFE_INTEGER)) o = true ->
  z_optional (z_coerce_number [check_int; check_min lo]) p (read_back (opt_js JNum o))
  = OK o.
Proof.
  intros Hlo. destruct o as [n|]; [|reflexivity]. cbn [holds opt_js read_back].
  intros H. apply andb_prop in H as [H _]. apply Z.leb_le in H.
  apply z_optional_OK; [|reflexivity].
  unfold z_coerce_number. cbn [ToNumber ToString].
  rewrite StringToNumber_toString by lia.
  unfold number_checks. cbn [flat_map check_issues number_is_int number_lt app].
  replace (n <? lo) with false by (symmetry; apply Z.ltb_ge; lia).
  reflexivity.
Qed.

Lemma orderBy_reads (p : list string) (o : option TracesOrderBy) :
  z_optional tracesOrderBySchema p (read_back (opt_js orderBy_object o)) = OK o.
Proof. destruct o as [[[[]|] [[]|]]|]; reflexivity. Qed.

End SchemaFacts.

(* ===================================================================== *)
(** * [parseTracesQueryParams] after [serializeTracesParams] *)
(* ===================================================================== *)

Section CodecRoundTrip.
Import Js Url Qs Zod Codec Wire Flat.
Local Open Scope list_scope.

Variable SpanType_values : list string.
Variable Date_parse_other : string -> option Z.

Ltac in_keys := cbn; repeat first [left; reflexivity | right].

Ltac evaluate_key :=
  cbn [flat_value filter_value scalar_filter String.eqb Ascii.eqb Bool.eqb
       filters pagination orderBy].

Lemma pagination_reads (parsed : JsObject) (po : option PaginationArgs)
  (p : list string) :
  get parsed "page"
    = read_back (match po with Some a => opt_js JNum (page a) | None => JUndefined end) ->
  get parsed "perPage"
    = read_back (match po with Some a => opt_js JNum (perPage a) | None => JUndefined end) ->
  holds pagination_ok po = true ->
  z_optional paginationArgsSchema p
    (if negb (is_undefined (get parsed "page"))
        || negb (is_undefined (get parsed "perPage"))
     then JObj (copy_defined parsed (copy_defined parsed [] "page") "perPage")
     else JUndefined)
  = OK po.
Proof.
  intros E1 E2 H. unfold copy_defined. rewrite E1, E2. clear E1 E2.
  destruct po as [[pg pp]|]; [|reflexivity].
  cbn [holds page perPage] in *. unfold pagination_ok in H. cbn [page perPage] in H.
  apply andb_prop in H as [H Hpp]. apply andb_prop in H as [Hsome Hpg].
  rewrite !is_undefined_read_back.
  replace (negb (is_undefined (opt_js JNum pg)) || negb (is_undefined (opt_js JNum pp)))
    with true by (destruct pg, pp; try reflexivity; discriminate Hsome).
  apply z_optional_OK; [|reflexivity].
  unfold paginationArgsSchema, z_object.
  refine (shape_key_OK _ _ _ _ _ _ _ _ _).
  - refine (shape_key_OK _ _ _ _ _ _ _ _ _); [reflexivity|].
    replace (get _ "page") with (read_back (opt_js JNum pg))
      by (destruct pg, pp; reflexivity).
    apply number_reads; [lia | exact Hpg].
  - replace (get _ "perPage") with (read_back (opt_js JNum pp))
      by (destruct pg, pp; reflexivity).
    apply number_reads; [lia | exact Hpp].
Qed.

Lemma filters_read (parsed : JsObject) (f : TracesFilter) (p : list string) :
  (forall k, In k FILTER_KEYS -> get parsed k = read_back (filter_value f k)) ->
  filter_ok SpanType_values f = true ->
  tracesFilterSchema SpanType_values Date_parse_other p
    (JObj (fold_left (copy_defined parsed) FILTER_KEYS []))
  = OK f.
Proof.
  intros Hget H. unfold filter_ok in H.
  apply andb_prop in H as [H Hversion]. apply andb_prop in H as [H Hscope].
  apply andb_prop in H as [H Hmeta]. apply andb_prop in H as [H Htags].
  apply andb_prop in H as [H Hspan]. apply andb_prop in H as [H Hended].
  apply andb_prop in H as [_ Hstarted].
  assert (G : forall k, In k FILTER_KEYS ->
            get (fold_left (copy_defined parsed) FILTER_KEYS []) k
            = read_back (filter_value f k)).
  { intros k Hk. rewrite get_filters by assumption. now apply Hget. }
  clear Hget. revert G. generalize (fold_left (copy_defined parsed) FILTER_KEYS []).
  intros data G.
  destruct f. cbn [startedAt endedAt spanType tags metadata scope versionInfo] in *.
  unfold tracesFilterSchema, z_object.
  repeat (refine (shape_key_OK _ _ _ _ _ _ _ _ _);
          [| rewrite G by in_keys; evaluate_key;
             cbn [startedAt endedAt spanType entityType entityId entityName userId
                  organizationId resourceId runId sessionId threadId requestId
                  environment source serviceName deploymentId metadata tags scope
                  versionInfo status hasChildError];
             first [ apply string_reads
                   | apply entityType_reads
                   | apply status_reads
                   | apply hasChildError_reads
                   | apply spanType_reads; assumption
                   | apply dateRange_reads; assumption
                   | apply tags_reads; assumption
                   | apply record_reads; assumption ] ]).
  reflexivity.
Qed.

Lemma optional_filters_read (parsed : JsObject) (fo : option TracesFilter)
  (p : list string) :
  (forall k, In k FILTER_KEYS ->
     get parsed k
     = read_back (match fo with Some f => filter_value f k | None => JUndefined end)) ->
  holds (filter_ok SpanType_values) fo = true ->
  z_optional (tracesFilterSchema SpanType_values Date_parse_other) p
    (match fold_left (copy_defined parsed) FILTER_KEYS [] with
     | [] => JUndefined
     | _ => JObj (fold_left (copy_defined parsed) FILTER_KEYS [])
     end)
  = OK fo.
Proof.
  intros Hget H. destruct fo as [f|].
  - cbn [holds] in H.
    assert (Hne : fold_left (copy_defined parsed) FILTER_KEYS [] <> []).
    { pose proof H as H'. unfold filter_ok in H'.
      repeat (apply andb_prop in H' as [H' _]).
      apply existsb_exists in H' as (k & Hk & Hdef).
      apply (fold_copy_something parsed FILTER_KEYS k Hk).
      rewrite (Hget k Hk), is_undefined_read_back.
      now apply negb_true_iff. }
    pose proof (filters_read parsed f p Hget H) as R.
    destruct (fold_left (copy_defined parsed) FILTER_KEYS []) as [|e fs];
      [contradiction|].
    apply z_optional_OK; [exact R | reflexivity].
  - rewrite fold_copy_nothing; [reflexivity|].
    intros k Hk. now rewrite (Hget k Hk).
Qed.

(** Steps 3 and 4 on what [qs.parse] makes of a serialized query. *)
Lemma validate_read_back (args : TracesPaginatedArg) :
  round_trips SpanType_values args = true ->
  validate SpanType_values Date_parse_other
    (restructure (read_back_object (prepareForSerialization args)))
  = ParseResult args.
Proof.
  intros H. pose proof H as H'. unfold round_trips in H'.
  apply andb_prop in H' as [H' _]. apply andb_prop in H' as [H' Horder].
  apply andb_prop in H' as [Hpage Hfilter].
  set (parsed := read_back_object (prepareForSerialization args)).
  destruct (restructure_gets parsed) as (Gp & Gf & Go).
  assert (R : tracesPaginatedArgSchema SpanType_values Date_parse_other []
                (JObj (restructure parsed)) = OK args).
  { destruct args as [fo po oo]. cbn [filters pagination orderBy] in *.
    unfold tracesPaginatedArgSchema, z_object.
    refine (shape_key_OK _ _ _ _ _ _ _ _ _);
      [refine (shape_key_OK _ _ _ _ _ _ _ _ _);
         [refine (shape_key_OK _ _ _ _ _ _ _ _ _); [reflexivity|] |] |].
    - rewrite Gf. apply optional_filters_read; [|assumption].
      intros k Hk. subst parsed.
      rewrite get_read_back_prepared by now apply In_FLAT_KEYS.
      f_equal. cbn in Hk.
      repeat (destruct Hk as [<-|Hk]; [reflexivity|]). contradiction.
    - rewrite Gp. apply pagination_reads; [| |assumption].
      + subst parsed. rewrite get_read_back_prepared by in_keys. reflexivity.
      + subst parsed. rewrite get_read_back_prepared by in_keys. reflexivity.
    - rewrite Go. subst parsed. rewrite get_read_back_prepared by in_keys.
      evaluate_key. apply orderBy_reads. }
  unfold validate. cbv zeta. now rewrite R.
Qed.

(** C1 (amended).  [parseTracesQueryParams(serializeTracesParams(x))]
    succeeds and returns [x] for every [x] that [round_trips]: pagination,
    date ranges and [orderBy] that hold at least one field, safe integers
    and valid dates the schema accepts, a [spanType] of the enum, between
    one and twenty-one tags, non-empty [metadata], [scope] and
    [versionInfo] maps of strings under distinct plain keys, a filter with
    at least one field written, and at most a thousand parameters in all. *)
Theorem parse_serialize_round_trip (x : TracesPaginatedArg) :
  round_trips SpanType_values x = true ->
  parseTracesQueryParams SpanType_values Date_parse_other
    (InString (serializeTracesParams x))
  = ParseResult x.
Proof.
  intros H. unfold parseTracesQueryParams, serializeTracesParams.
  cbn [queryString_of].
  rewrite qs_parse_stringify by now apply (prepareForSerialization_wire SpanType_values).
  now apply validate_read_back.
Qed.

End CodecRoundTrip.

Lemma parse_serialize_round_trip_witness :
  Flat.round_trips ["agent_run"] FlatSamples.full_query = true
  /\ Codec.parseTracesQueryParams ["agent_run"] (fun _ => None)
       (Codec.InString (Codec.serializeTracesParams FlatSamples.full_query))
     = Codec.ParseResult FlatSamples.full_query.
Proof.
  split; [vm_compute; reflexivity|].
  apply (parse_serialize_round_trip ["agent_run"] (fun _ => None) FlatSamples.full_query).
  vm_compute. reflexivity.
Defined.

(** Against C1 as stated: a metadata map holding a number is schema-valid
    and is written in full, yet comes back holding a string. *)
Lemma metadata_number_comes_back_as_string :
  Codec.parseTracesQueryParams [] (fun _ => None)
    (Codec.InString
       (Codec.serializeTracesParams (FlatSamples.with_metadata [("x", Js.JNum 1)])))
  = Codec.ParseResult (FlatSamples.with_metadata [("x", Js.JStr "1")])
  /\ (FlatSamples.with_metadata [("x", Js.JStr "1")]
      = FlatSamples.with_metadata [("x", Js.JNum 1)] -> False).
Proof.
  split; [vm_compute; reflexivity | discriminate].
Qed.

(* ===================================================================== *)
(** * Every rejected field is reported *)
(* ===================================================================== *)

Create HintDb schemas.

Section SchemaReports.
Import Js Zod Codec Fields.
Local Open Scope list_scope.

Lemma here {A} (p : list string) (msg : string) :
  exists i rest, In i (issues (@INVALID A p msg)) /\ path i = p ++ rest.
Proof. eexists. exists []. split; [left; reflexivity|]. cbn. now rewrite app_nil_r. Qed.

Lemma z_string_well_behaved : well_behaved z_string.
Proof.
  split.
  - intros p q v. destruct v; reflexivity.
  - intros p v H. destruct v; try discriminate H; apply here.
Qed.

Lemma z_boolean_well_behaved : well_behaved z_boolean.
Proof.
  split.
  - intros p q v. destruct v; reflexivity.
  - intros p v H. destruct v; try discriminate H; apply here.
Qed.

Lemma z_enum_well_behaved {A} (table : list (string * A)) : well_behaved (z_enum table).
Proof.
  split.
  - intros p q v. destruct v; try reflexivity. cbn. now destruct (enum_lookup table s).
  - intros p v H. destruct v; try apply here.
    cbn in *. destruct (enum_lookup table s); [discriminate H | apply here].
Qed.

Lemma z_nativeEnum_well_behaved (values : list string) : well_behaved (z_nativeEnum values).
Proof.
  split.
  - intros p q v. destruct v; try reflexivity. cbn. now destruct (existsb _ values).
  - intros p v H. destruct v; try apply here.
    cbn in *. destruct (existsb _ values); [discriminate H | apply here].
Qed.

Lemma z_coerce_number_well_behaved (checks : list NumberCheck) :
  well_behaved (z_coerce_number (check_int :: checks)).
Proof.
  split.
  - intros p q v. unfold z_coerce_number, number_checks.
    destruct (ToNumber v) as [z| | |]; try reflexivity.
    cbn [output flat_map check_issues number_is_int app].
    assert (E : forall r, flat_map (check_issues r (NInt z)) checks = []
                          <-> flat_map (check_issues p (NInt z)) checks = []).
    { intros r. induction checks as [|c cs IH]; [tauto|].
      cbn [flat_map]. destruct c as [|value]; cbn [check_issues number_is_int app];
        [exact IH|].
      cbn [number_lt]. destruct (z <? value); cbn [app]; [|exact IH].
      split; discriminate. }
    destruct (flat_map (check_issues p (NInt z)) checks) eqn:Ep;
      destruct (flat_map (check_issues q (NInt z)) checks) eqn:Eq; try reflexivity.
    + pose proof (proj2 (E q) eq_refl) as X. rewrite Eq in X. discriminate X.
    + pose proof (proj1 (E q) Eq) as X. discriminate X.
  - intros p v H. unfold z_coerce_number, number_checks in *.
    destruct (ToNumber v) as [z| | |]; try apply here.
    + cbn [output issues flat_map check_issues number_is_int app] in *.
      destruct (flat_map (check_issues p (NInt z)) checks) as [|i l] eqn:E;
        [discriminate H|].
      exists i, []. split; [now left|].
      clear H. revert i l E. induction checks as [|c cs IH]; intros i l E;
        [discriminate E|].
      cbn [flat_map] in E. destruct c as [|value]; cbn [check_issues number_is_int] in E.
      * cbn [app] in E. eauto.
      * destruct (number_lt (NInt z) value); cbn [app] in E; [|eauto].
        injection E as <- _. cbn. now rewrite app_nil_r.
    + cbn [issues flat_map check_issues number_is_int app].
      eexists. exists []. split; [left; reflexivity|]. cbn. now rewrite app_nil_r.
    + cbn [issues flat_map check_issues number_is_int app].
      eexists. exists []. split; [left; reflexivity|]. cbn. now rewrite app_nil_r.
Qed.

Lemma z_coerce_date_well_behaved (parse : string -> option Z) :
  well_behaved (z_coerce_date parse).
Proof.
  split.
  - intros p q v. unfold z_coerce_date. now destruct (Date_of parse v).
  - intros p v H. unfold z_coerce_date in *.
    destruct (Date_of parse v); [discriminate H | apply here].
Qed.

Lemma z_record_unknown_well_behaved : well_behaved z_record_unknown.
Proof.
  split.
  - intros p q v. destruct v; reflexivity.
  - intros p v H. destruct v; try discriminate H; apply here.
Qed.

Lemma z_optional_well_behaved {A} (schema : ZodType A) :
  well_behaved schema -> well_behaved (z_optional schema).
Proof.
  intros [Hp Hr]. split.
  - intros p q v. destruct v; try reflexivity; cbn; now rewrite (Hp p q).
  - intros p v H. destruct v; try discriminate H; cbn in *;
      apply Hr; destruct (output (schema p _)); try discriminate H; reflexivity.
Qed.

Lemma z_preprocess_well_behaved {A} (f : JsVal -> JsVal) (schema : ZodType A) :
  well_behaved schema -> well_behaved (z_preprocess f schema).
Proof.
  intros [Hp Hr]. split.
  - intros p q v. apply Hp.
  - intros p v H. apply Hr, H.
Qed.

Lemma parse_items_output {A} (schema : ZodType A) (p q : list string)
  (items : list JsVal) (i : nat) :
  path_independent schema ->
  output (parse_items schema p items i) = output (parse_items schema q items i).
Proof.
  intros Hp. revert i. induction items as [|x items IH]; intros i; [reflexivity|].
  cbn [parse_items output].
  now rewrite (Hp (p ++ [Number_toString (Z.of_nat i)]) (q ++ [Number_toString (Z.of_nat i)])),
    IH.
Qed.

Lemma parse_items_reports {A} (schema : ZodType A) (p : list string)
  (items : list JsVal) (i : nat) :
  reports schema ->
  output (parse_items schema p items i) = None ->
  exists x rest, In x (issues (parse_items schema p items i)) /\ path x = p ++ rest.
Proof.
  intros Hr. revert i. induction items as [|x items IH]; intros i H; [discriminate H|].
  cbn [parse_items output issues] in *.
  destruct (output (schema (p ++ [Number_toString (Z.of_nat i)]) x)) eqn:E.
  - destruct (output (parse_items schema p items (S i))) eqn:E'; [discriminate H|].
    destruct (IH (S i) E') as (y & rest & Hin & Hpath).
    exists y, rest. split; [apply in_or_app; now right | assumption].
  - destruct (Hr _ _ E) as (y & rest & Hin & Hpath).
    exists y, ([Number_toString (Z.of_nat i)] ++ rest).
    split; [apply in_or_app; now left|]. now rewrite app_assoc.
Qed.

Lemma z_array_well_behaved {A} (schema : ZodType A) :
  well_behaved schema -> well_behaved (z_array schema).
Proof.
  intros [Hp Hr]. split.
  - intros p q v. destruct v; try reflexivity. now apply parse_items_output.
  - intros p v H. destruct v; try apply here. now apply parse_items_reports.
Qed.

Lemma shape_pure_well_behaved {A} (a : A) : shape_well_behaved (shape_pure a).
Proof. split; [reflexivity | discriminate]. Qed.

Lemma shape_key_well_behaved {A B} (fs : Shape (A -> B)) (key : string)
  (schema : ZodType A) :
  shape_well_behaved fs -> well_behaved schema ->
  shape_well_behaved (shape_key fs key schema).
Proof.
  intros [Fp Fr] [Hp Hr]. split.
  - intros p q data. unfold shape_key. cbn [output].
    now rewrite (Fp p q), (Hp (p ++ [key]) (q ++ [key])).
  - intros p data H. unfold shape_key in *. cbn [output issues] in *.
    destruct (output (fs p data)) eqn:E.
    + destruct (output (schema (p ++ [key]) (get data key))) eqn:E';
        [discriminate H|].
      destruct (Hr _ _ E') as (i & rest & Hin & Hpath).
      exists i, ([key] ++ rest). split; [apply in_or_app; now right|].
      now rewrite app_assoc.
    + destruct (Fr _ _ E) as (i & rest & Hin & Hpath).
      exists i, rest. split; [apply in_or_app; now left | assumption].
Qed.

Lemma z_object_well_behaved {A} (shape : Shape A) :
  shape_well_behaved shape -> well_behaved (z_object shape).
Proof.
  intros [Fp Fr]. split.
  - intros p q v. destruct v; try reflexivity. apply Fp.
  - intros p v H. destruct v; try apply here. now apply Fr.
Qed.

End SchemaReports.

#[export] Hint Resolve z_string_well_behaved z_boolean_well_behaved
  z_enum_well_behaved z_nativeEnum_well_behaved z_coerce_number_well_behaved
  z_coerce_date_well_behaved z_record_unknown_well_behaved z_optional_well_behaved
  z_preprocess_well_behaved z_array_well_behaved shape_pure_well_behaved
  shape_key_well_behaved z_object_well_behaved : schemas.

Section ErrorsComplete.
Import Js Qs Zod Codec Fields.
Local Open Scope list_scope.

Variable SpanType_values : list string.
Variable Date_parse_other : string -> option Z.


Lemma issues_shape_key {A B} (fs : Shape (A -> B)) (key : string) (schema : ZodType A)
  (p : list string) (data : JsObject) :
  issues (shape_key fs key schema p data)
  = issues (fs p data) ++ issues (schema (p ++ [key]) (get data key)).
Proof. reflexivity. Qed.

Lemma issues_z_object {A} (shape : Shape A) (p : list string) (data : JsObject) :
  issues (z_object shape p (JObj data)) = issues (shape p data).
Proof. reflexivity. Qed.

Ltac pick :=
  first [ match goal with H : ?P |- ?P => exact H end
        | apply in_or_app; right; match goal with H : ?P |- ?P => exact H end
        | apply in_or_app; left; pick ].

Ltac in_shape H :=
  unfold tracesPaginatedArgSchema, tracesFilterSchema, paginationArgsSchema,
    dateRangeSchema, tracesOrderBySchema in H |- *;
  rewrite ?issues_z_object; rewrite !issues_shape_key;
  cbn [app]; cbn [app] in H; pick.

Lemma optional_object_issues {A} (schema : ZodType A) (p : list string)
  (props : JsObject) :
  issues (z_optional schema p (JObj props)) = issues (schema p (JObj props)).
Proof. reflexivity. Qed.

(** An issue makes [safeParse] fail, and is among the errors returned. *)
Lemma validate_errors (r : JsObject) (i : ZodIssue) :
  In i (issues (tracesPaginatedArgSchema SpanType_values Date_parse_other [] (JObj r))) ->
  exists errs, validate SpanType_values Date_parse_other r = ParseErrorResult errs
               /\ In (error_of_issue i) errs.
Proof.
  intros H. unfold validate. cbv zeta.
  destruct (issues (tracesPaginatedArgSchema SpanType_values Date_parse_other [] (JObj r))) as [|j l] eqn:E; [contradiction|].
  exists (map error_of_issue (j :: l)). split.
  - now destruct (output _).
  - now apply in_map.
Qed.

Lemma under_filters (r props : JsObject) (i : ZodIssue) :
  get r "filters" = JObj props ->
  In i (issues (tracesFilterSchema SpanType_values Date_parse_other ["filters"] (JObj props))) ->
  In i (issues (tracesPaginatedArgSchema SpanType_values Date_parse_other [] (JObj r))).
Proof.
  intros E H. rewrite <- optional_object_issues, <- E in H. in_shape H.
Qed.

Lemma under_pagination (r props : JsObject) (i : ZodIssue) :
  get r "pagination" = JObj props ->
  In i (issues (paginationArgsSchema ["pagination"] (JObj props))) ->
  In i (issues (tracesPaginatedArgSchema SpanType_values Date_parse_other [] (JObj r))).
Proof.
  intros E H. rewrite <- optional_object_issues, <- E in H. in_shape H.
Qed.

Lemma under_orderBy (r props : JsObject) (i : ZodIssue) :
  get r "orderBy" = JObj props ->
  In i (issues (tracesOrderBySchema ["orderBy"] (JObj props))) ->
  In i (issues (tracesPaginatedArgSchema SpanType_values Date_parse_other [] (JObj r))).
Proof.
  intros E H. rewrite <- optional_object_issues, <- E in H. in_shape H.
Qed.

Lemma under_startedAt (f props : JsObject) (i : ZodIssue) :
  get f "startedAt" = JObj props ->
  In i (issues (dateRangeSchema Date_parse_other ["filters"; "startedAt"] (JObj props))) ->
  In i (issues (tracesFilterSchema SpanType_values Date_parse_other ["filters"] (JObj f))).
Proof.
  intros E H. rewrite <- optional_object_issues, <- E in H. in_shape H.
Qed.

Lemma under_endedAt (f props : JsObject) (i : ZodIssue) :
  get f "endedAt" = JObj props ->
  In i (issues (dateRangeSchema Date_parse_other ["filters"; "endedAt"] (JObj props))) ->
  In i (issues (tracesFilterSchema SpanType_values Date_parse_other ["filters"] (JObj f))).
Proof.
  intros E H. rewrite <- optional_object_issues, <- E in H. in_shape H.
Qed.

End ErrorsComplete.


(* ===================================================================== *)
(** * Validation collects the errors of every field *)
(* ===================================================================== *)

Section Relocation.
Import Js Zod Codec Fields Violations.
Local Open Scope list_scope.

Lemma at_path_nil (p : list string) (msg : string) :
  at_path p {| path := []; message := msg |} = {| path := p; message := msg |}.
Proof. unfold at_path. cbn. now rewrite app_nil_r. Qed.

Lemma INVALID_relocates {A} (p : list string) (msg : string) :
  issues (@INVALID A p msg) = map (at_path p) (issues (@INVALID A [] msg)).
Proof. cbn. now rewrite at_path_nil. Qed.

Lemma z_string_relocates : relocatable_at z_string.
Proof. intros p v. destruct v; try apply INVALID_relocates; reflexivity. Qed.

Lemma z_boolean_relocates : relocatable_at z_boolean.
Proof. intros p v. destruct v; try apply INVALID_relocates; reflexivity. Qed.

Lemma z_record_unknown_relocates : relocatable_at z_record_unknown.
Proof. intros p v. destruct v; try apply INVALID_relocates; reflexivity. Qed.

Lemma z_enum_relocates {A} (table : list (string * A)) : relocatable_at (z_enum table).
Proof.
  intros p v. destruct v; try apply INVALID_relocates.
  unfold z_enum. destruct (enum_lookup table s); [reflexivity | apply INVALID_relocates].
Qed.

Lemma z_nativeEnum_relocates (values : list string) : relocatable_at (z_nativeEnum values).
Proof.
  intros p v. destruct v; try apply INVALID_relocates.
  unfold z_nativeEnum. destruct (existsb _ values); [reflexivity | apply INVALID_relocates].
Qed.

Lemma check_issues_relocates (p : list string) (n : JsNumber) (c : NumberCheck) :
  check_issues p n c = map (at_path p) (check_issues [] n c).
Proof.
  destruct c; cbn.
  - destruct (number_is_int n); cbn; now rewrite ?at_path_nil.
  - destruct (number_lt n value); cbn; now rewrite ?at_path_nil.
Qed.

Lemma map_flat_map {A B C} (f : B -> C) (g : A -> list B) (l : list A) :
  map f (flat_map g l) = flat_map (fun x => map f (g x)) l.
Proof.
  induction l as [|x l IH]; [reflexivity|]. cbn. now rewrite map_app, IH.
Qed.

Lemma number_checks_relocates (checks : list NumberCheck) (p : list string)
  (n : JsNumber) :
  issues (number_checks checks p n)
  = map (at_path p) (issues (number_checks checks [] n)).
Proof.
  assert (H : flat_map (check_issues p n) checks
              = map (at_path p) (flat_map (check_issues [] n) checks)).
  { rewrite map_flat_map. apply flat_map_ext. intros c. apply check_issues_relocates. }
  destruct n; cbn [number_checks issues]; try exact H. apply INVALID_relocates.
Qed.

Lemma z_coerce_number_relocates (checks : list NumberCheck) :
  relocatable_at (z_coerce_number checks).
Proof. intros p v. apply number_checks_relocates. Qed.

Lemma z_coerce_date_relocates (parse : string -> option Z) :
  relocatable_at (z_coerce_date parse).
Proof.
  intros p v. unfold z_coerce_date.
  destruct (Date_of parse v); [reflexivity | apply INVALID_relocates].
Qed.

Lemma z_optional_relocates {A} (schema : ZodType A) :
  relocatable_at schema -> relocatable_at (z_optional schema).
Proof. intros H p v. destruct v; try apply H; reflexivity. Qed.

Lemma z_preprocess_relocates {A} (f : JsVal -> JsVal) (schema : ZodType A) :
  relocatable_at schema -> relocatable_at (z_preprocess f schema).
Proof. intros H p v. apply H. Qed.

(** ** The elements of an array *)

Lemma parse_items_issues {A} (schema : ZodType A) (p : list string)
  (items : list JsVal) (from : nat) :
  issues (parse_items schema p items from)
  = flat_map (fun ix => issues (schema (p ++ [Number_toString (Z.of_nat (fst ix))])
                                       (snd ix)))
             (indexed from items).
Proof.
  revert from. induction items as [|x items IH]; intros from; [reflexivity|].
  cbn [parse_items issues]. rewrite IH. reflexivity.
Qed.

Lemma tags_relocate (p : list string) (v : JsVal) :
  issues (z_preprocess tags_preprocess (z_optional (z_array z_string)) p v)
  = map (at_path p) (tags_issues v).
Proof.
  unfold z_preprocess, tags_issues.
  destruct (tags_preprocess v) as [| | | | |items|props];
    try (cbn; now rewrite at_path_nil); try reflexivity.
  cbn [z_optional z_array issues]. rewrite parse_items_issues, map_flat_map.
  apply flat_map_ext. intros [i x]. cbn [fst snd].
  destruct x; cbn; unfold at_path; cbn; reflexivity.
Qed.

End Relocation.

Section Collection.
Import Js Zod Codec Fields Violations.
Local Open Scope list_scope.

Lemma issues_under_app (a b : list Constraint) (p : list string) (v : JsVal) :
  issues_under (a ++ b) p v = issues_under a p v ++ issues_under b p v.
Proof. unfold issues_under. apply flat_map_app. Qed.

Lemma issues_under_cons (c : Constraint) (cs : list Constraint) (p : list string)
  (v : JsVal) :
  issues_under (c :: cs) p v = issues_under [c] p v ++ issues_under cs p v.
Proof. unfold issues_under. cbn [flat_map]. now rewrite app_nil_r. Qed.

(** The fields of an object held under [key] are looked at in the object
    found there. *)
Lemma issues_under_key (key : string) (cs : list Constraint) (p : list string)
  (data : JsObject) :
  issues_under (under key cs) p (JObj data)
  = issues_under cs (p ++ [key]) (get data key).
Proof.
  unfold issues_under, under. induction cs as [|c cs IH]; [reflexivity|].
  cbn [map flat_map c_path c_issues value_at]. rewrite IH.
  replace (p ++ key :: c_path c) with ((p ++ [key]) ++ c_path c)
    by now rewrite <- app_assoc.
  reflexivity.
Qed.

Lemma issues_under_whole (p : list string) (v : JsVal) :
  issues_under [whole] p v = map (at_path p) (object_issues v).
Proof.
  unfold issues_under. cbn. now rewrite !app_nil_r.
Qed.

Lemma issues_under_leaf {A} (key : string) (schema : ZodType A) (p : list string)
  (data : JsObject) :
  relocatable_at schema ->
  issues_under [leaf key schema] p (JObj data)
  = issues (schema (p ++ [key]) (get data key)).
Proof.
  intros H. unfold issues_under. cbn. now rewrite app_nil_r, <- H.
Qed.

Lemma issues_under_tags (p : list string) (data : JsObject) :
  issues_under [{| c_path := ["tags"]; c_issues := tags_issues |}] p (JObj data)
  = issues (z_preprocess tags_preprocess (z_optional (z_array z_string))
              (p ++ ["tags"]) (get data "tags")).
Proof.
  unfold issues_under. cbn. now rewrite app_nil_r, tags_relocate.
Qed.

(** Nothing under a value that is not an object can be reached. *)
Lemma issues_under_unreached (cs : list Constraint) (p : list string) (v : JsVal) :
  (forall data, v <> JObj data) ->
  Forall (fun c => c_path c <> []) cs ->
  issues_under cs p v = [].
Proof.
  intros Hv Hcs. unfold issues_under. induction Hcs as [|c cs Hc _ IH]; [reflexivity|].
  cbn [flat_map]. rewrite IH.
  destruct (c_path c) as [|k q] eqn:E; [contradiction|].
  destruct v; try reflexivity. now destruct (Hv props).
Qed.

End Collection.

Section FieldErrors.
Import Js Qs Zod Codec Fields Violations.
Local Open Scope list_scope.

Variable SpanType_values : list string.
Variable Date_parse_other : string -> option Z.

Ltac relocates :=
  unfold optional_date, tracesOrderByFieldSchema, sortDirectionSchema,
    spanEntityTypeSchema, spanStatusSchema, spanTypeSchema;
  repeat first
    [ simple apply z_record_unknown_relocates
    | simple apply z_string_relocates | simple apply z_boolean_relocates
    | simple apply z_enum_relocates | simple apply z_nativeEnum_relocates
    | simple apply z_coerce_number_relocates
    | simple apply z_coerce_date_relocates
    | simple apply z_optional_relocates | simple apply z_preprocess_relocates ].

Ltac not_an_object :=
  rewrite issues_under_cons, issues_under_whole, issues_under_unreached;
  [ cbn; now rewrite ?app_nil_r, ?at_path_nil
  | intros data; discriminate
  | repeat (apply Forall_cons; [cbn; discriminate|]); apply Forall_nil ].

Ltac leaves :=
  repeat (rewrite issues_under_cons;
          first [ rewrite issues_under_tags
                | rewrite issues_under_leaf by relocates ]).

Lemma range_issues (p : list string) (v : JsVal) :
  issues (z_optional (dateRangeSchema Date_parse_other) p v)
  = issues_under (RANGE Date_parse_other) p v.
Proof.
  unfold RANGE. destruct v as [| | | | | |data]; try not_an_object.
  cbn [z_optional issues]. unfold dateRangeSchema.
  rewrite issues_z_object, !issues_shape_key.
  rewrite issues_under_cons, issues_under_whole. leaves.
  cbn. now rewrite ?app_nil_r.
Qed.

Lemma pagination_issues (p : list string) (v : JsVal) :
  issues (z_optional paginationArgsSchema p v) = issues_under PAGINATION p v.
Proof.
  unfold PAGINATION. destruct v as [| | | | | |data]; try not_an_object.
  cbn [z_optional issues]. unfold paginationArgsSchema.
  rewrite issues_z_object, !issues_shape_key.
  rewrite issues_under_cons, issues_under_whole. leaves.
  cbn. now rewrite ?app_nil_r.
Qed.

Lemma orderBy_issues (p : list string) (v : JsVal) :
  issues (z_optional tracesOrderBySchema p v) = issues_under ORDER_BY p v.
Proof.
  unfold ORDER_BY. destruct v as [| | | | | |data]; try not_an_object.
  cbn [z_optional issues]. unfold tracesOrderBySchema.
  rewrite issues_z_object, !issues_shape_key.
  rewrite issues_under_cons, issues_under_whole. leaves.
  cbn. now rewrite ?app_nil_r.
Qed.

Lemma filters_issues (p : list string) (v : JsVal) :
  issues (z_optional (tracesFilterSchema SpanType_values Date_parse_other) p v)
  = issues_under (FILTERS SpanType_values Date_parse_other) p v.
Proof.
  unfold FILTERS. destruct v as [| | | | | |data].
  1-6: rewrite issues_under_cons, issues_under_whole, issues_under_unreached;
    [ cbn; now rewrite ?app_nil_r, ?at_path_nil
    | intros data; discriminate
    | unfold under, RANGE, FILTER_LEAVES; cbn [map app];
      repeat (apply Forall_cons; [cbn; discriminate|]); apply Forall_nil ].
  cbn [z_optional issues]. unfold tracesFilterSchema.
  rewrite issues_z_object, !issues_shape_key.
  rewrite issues_under_cons, issues_under_whole, !issues_under_app.
  rewrite !issues_under_key, <- !range_issues.
  unfold FILTER_LEAVES. leaves.
  cbn [object_issues map shape_pure OK issues issues_under flat_map app].
  now rewrite <- ?app_assoc, ?app_nil_r.
Qed.

(** What [safeParse] finds is what the fields raise, each by itself. *)
Lemma schema_issues (r : JsObject) :
  issues (tracesPaginatedArgSchema SpanType_values Date_parse_other [] (JObj r))
  = issues_under (CONSTRAINTS SpanType_values Date_parse_other) [] (JObj r).
Proof.
  unfold CONSTRAINTS, tracesPaginatedArgSchema.
  rewrite issues_z_object, !issues_shape_key.
  rewrite !issues_under_app, !issues_under_key.
  rewrite <- filters_issues, <- pagination_issues, <- orderBy_issues.
  cbn [shape_pure OK issues app]. now rewrite <- ?app_assoc.
Qed.

Lemma schema_rejection_has_issue (r : JsObject) :
  output (tracesPaginatedArgSchema SpanType_values Date_parse_other [] (JObj r)) = None ->
  issues (tracesPaginatedArgSchema SpanType_values Date_parse_other [] (JObj r)) <> [].
Proof.
  intros H.
  assert (W : well_behaved (tracesPaginatedArgSchema SpanType_values Date_parse_other)).
  { unfold tracesPaginatedArgSchema, tracesFilterSchema,
      paginationArgsSchema, dateRangeSchema, tracesOrderBySchema,
      tracesOrderByFieldSchema, sortDirectionSchema, spanEntityTypeSchema,
      spanStatusSchema, spanTypeSchema;
    repeat first
      [ simple apply z_record_unknown_well_behaved
      | simple apply z_string_well_behaved | simple apply z_boolean_well_behaved
      | simple apply z_enum_well_behaved | simple apply z_nativeEnum_well_behaved
      | simple apply z_coerce_number_well_behaved
      | simple apply z_coerce_date_well_behaved
      | simple apply z_optional_well_behaved | simple apply z_preprocess_well_behaved
      | simple apply z_array_well_behaved | simple apply z_object_well_behaved
      | simple apply shape_key_well_behaved | simple apply shape_pure_well_behaved ]. }
  destruct (proj2 W [] (JObj r) H) as (i & rest & Hi & _).
  intros E. rewrite E in Hi. contradiction.
Qed.


End FieldErrors.

Section FieldErrorExamples.
Import Js Codec Violations ViolationSamples.
Local Open Scope list_scope.

(** Four fields are wrong in [four_violations], two of them elements of the
    same list: all four are reported. *)
Example four_violations_reported :
  parseTracesQueryParams [] (fun _ => None) four_violations
  = ParseErrorResult
      [ {| ve_field := "filters.endedAt.end"; ve_message := "Invalid date" |};
        {| ve_field := "filters.tags.0";
           ve_message := "Expected string, received object" |};
        {| ve_field := "filters.tags.1";
           ve_message := "Expected string, received object" |};
        {| ve_field := "pagination.page";
           ve_message := "Expected number, received nan" |} ].
Proof. vm_compute. reflexivity. Qed.

(** The paths of the fields, as the schema orders them. *)
Example constraint_paths :
  map c_path (CONSTRAINTS [] (fun _ => None))
  = [ ["filters"]; ["filters"; "startedAt"];
      ["filters"; "startedAt"; "start"]; ["filters"; "startedAt"; "end"];
      ["filters"; "endedAt"]; ["filters"; "endedAt"; "start"];
      ["filters"; "endedAt"; "end"]; ["filters"; "spanType"];
      ["filters"; "entityType"]; ["filters"; "entityId"];
      ["filters"; "entityName"]; ["filters"; "userId"];
      ["filters"; "organizationId"]; ["filters"; "resourceId"];
      ["filters"; "runId"]; ["filters"; "sessionId"];
      ["filters"; "threadId"]; ["filters"; "requestId"];
      ["filters"; "environment"]; ["filters"; "source"];
      ["filters"; "serviceName"]; ["filters"; "deploymentId"];
      ["filters"; "metadata"]; ["filters"; "tags"];
      ["filters"; "scope"]; ["filters"; "versionInfo"];
      ["filters"; "status"]; ["filters"; "hasChildError"];
      ["pagination"]; ["pagination"; "page"]; ["pagination"; "perPage"];
      ["orderBy"]; ["orderBy"; "field"]; ["orderBy"; "direction"] ].
Proof. reflexivity. Qed.

End FieldErrorExamples.

(* ===================================================================== *)
(** * Laws of the in-memory store *)
(* ===================================================================== *)

Section CollectionFacts.
Import Store StoreView.
Local Open Scope list_scope.

Lemma Map_get_In (c : InMemoryObservability) (id : string) (r : SpanRecord) :
  Map_get c id = Some r -> In (id, r) c.
Proof.
  induction c as [|[k v] c IH]; [discriminate|]. cbn.
  destruct (String.eqb_spec k id) as [->|Hne].
  - intros H. injection H as ->. now left.
  - intros H. right. auto.
Qed.

Lemma In_Map_get (c : InMemoryObservability) (id : string) (r : SpanRecord) :
  NoDup (map fst c) -> In (id, r) c -> Map_get c id = Some r.
Proof.
  induction c as [|[k v] c IH]; [contradiction|]. cbn [map fst].
  intros Hnd Hin. inversion Hnd as [|? ? Hk Hnd']; subst. cbn.
  destruct Hin as [E|Hin].
  - injection E as -> ->. now rewrite String.eqb_refl.
  - destruct (String.eqb_spec k id) as [->|Hne]; [|auto].
    exfalso. apply Hk. now apply (in_map fst) in Hin.
Qed.

Lemma Map_get_None (c : InMemoryObservability) (id : string) :
  Map_get c id = None -> ~ In id (map fst c).
Proof.
  induction c as [|[k v] c IH]; [auto|]. cbn.
  destruct (String.eqb_spec k id) as [->|Hne]; [discriminate|].
  intros H [E|Hin]; [contradiction | now apply IH].
Qed.

Lemma keys_Map_set_present (c : InMemoryObservability) (id : string) (r : SpanRecord) :
  In id (map fst c) -> map fst (Map_set c id r) = map fst c.
Proof.
  induction c as [|[k v] c IH]; [contradiction|]. cbn.
  destruct (String.eqb_spec k id) as [->|Hne]; [reflexivity|].
  intros [E|Hin]; [contradiction|]. cbn. now rewrite IH.
Qed.

Lemma Map_set_absent (c : InMemoryObservability) (id : string) (r : SpanRecord) :
  ~ In id (map fst c) -> Map_set c id r = c ++ [(id, r)].
Proof.
  induction c as [|[k v] c IH]; [reflexivity|]. cbn.
  destruct (String.eqb_spec k id) as [->|Hne].
  - intros H. exfalso. apply H. now left.
  - intros H. rewrite IH; [reflexivity|]. intros Hin. apply H. now right.
Qed.

Lemma In_Map_set (c : InMemoryObservability) (id : string) (r : SpanRecord)
  (k : string) (v : SpanRecord) :
  In (k, v) (Map_set c id r) -> (k = id /\ v = r) \/ In (k, v) c.
Proof.
  induction c as [|[k0 v0] c IH]; cbn.
  - intros [E|[]]. injection E as <- <-. now left.
  - destruct (String.eqb_spec k0 id) as [->|Hne]; cbn.
    + intros [E|Hin]; [injection E as <- <-; now left | right; now right].
    + intros [E|Hin]; [right; now left|].
      destruct (IH Hin) as [H|H]; [now left | right; now right].
Qed.

Lemma NoDup_Map_set (c : InMemoryObservability) (id : string) (r : SpanRecord) :
  NoDup (map fst c) -> NoDup (map fst (Map_set c id r)).
Proof.
  intros Hnd. destruct (in_dec string_dec id (map fst c)) as [Hin|Hout].
  - now rewrite keys_Map_set_present.
  - rewrite Map_set_absent, map_app by assumption. cbn.
    apply NoDup_app; [assumption | repeat constructor; auto |].
    intros x Hx [<-|[]]. contradiction.
Qed.

Lemma Map_delete_filter (c : InMemoryObservability) (id : string) :
  NoDup (map fst c) ->
  Map_delete c id = filter (fun kv => negb (fst kv =? id)%string) c.
Proof.
  induction c as [|[k v] c IH]; [reflexivity|]. cbn [map fst].
  intros Hnd. inversion Hnd as [|? ? Hk Hnd']; subst. cbn.
  destruct (String.eqb_spec k id) as [->|Hne]; cbn.
  - symmetry. apply forallb_filter_id. apply forallb_forall.
    intros [k' v'] Hin. cbn. apply negb_true_iff, String.eqb_neq. intros ->.
    apply Hk. now apply (in_map fst) in Hin.
  - now rewrite IH.
Qed.

Lemma NoDup_keys_filter (P : string * SpanRecord -> bool) (c : InMemoryObservability) :
  NoDup (map fst c) -> NoDup (map fst (filter P c)).
Proof.
  induction c as [|[k v] c IH]; [auto|]. cbn [map fst].
  intros Hnd. inversion Hnd as [|? ? Hk Hnd']; subst. cbn.
  destruct (P (k, v)); [|auto]. cbn. constructor; [|auto].
  intros Hin. apply Hk. apply in_map_iff in Hin as ([k' v'] & E & Hin).
  cbn in E. subst k'. apply filter_In in Hin as [Hin _].
  now apply (in_map fst) in Hin.
Qed.

Lemma well_keyed_filter (P : string * SpanRecord -> bool) (c : InMemoryObservability) :
  well_keyed c -> well_keyed (filter P c).
Proof.
  intros [Hnd Hk]. split; [now apply NoDup_keys_filter|].
  intros k r Hin. apply filter_In in Hin as [Hin _]. auto.
Qed.

Lemma same_key_same_record (c : InMemoryObservability) (k : string) (a b : SpanRecord) :
  NoDup (map fst c) -> In (k, a) c -> In (k, b) c -> a = b.
Proof.
  intros Hnd Ha Hb. apply (In_Map_get c k a Hnd) in Ha.
  apply (In_Map_get c k b Hnd) in Hb. congruence.
Qed.

End CollectionFacts.

Section StoreLaws.
Import Store StoreView.
Local Open Scope list_scope.

(** ** The keys of the collection *)

Lemma well_keyed_Map_set (c : InMemoryObservability) (r : SpanRecord) :
  well_keyed c -> well_keyed (Map_set c (generateId (traceId r) (spanId r)) r).
Proof.
  intros [Hnd Hk]. split; [now apply NoDup_Map_set|].
  intros k v Hin. apply In_Map_set in Hin as [[-> ->]|Hin]; auto.
Qed.

Lemma well_keyed_Map_delete (c : InMemoryObservability) (id : string) :
  well_keyed c -> well_keyed (Map_delete c id).
Proof.
  intros H. rewrite Map_delete_filter by apply H. now apply well_keyed_filter.
Qed.

Lemma createSpan_well_keyed (now : Date) (span : CreateSpanRecord)
  (c : InMemoryObservability) :
  well_keyed c -> well_keyed (snd (createSpan now span c)).
Proof.
  intros H. unfold createSpan, validateCreateSpan, bind.
  destruct (truthy_str (c_spanId span)); cbn; [|assumption].
  destruct (truthy_str (c_traceId span)); cbn; [|assumption].
  apply (well_keyed_Map_set c
           {| traceId := id_text (c_traceId span); spanId := id_text (c_spanId span);
              data := c_data span; createdAt := now; updatedAt := Some now |} H).
Qed.

Lemma updateSpan_well_keyed (now : Date) (params : UpdateParams)
  (c : InMemoryObservability) :
  well_keyed c -> well_keyed (snd (updateSpan now params c)).
Proof.
  intros H. unfold updateSpan, bind, read_collection.
  destruct (Map_get c _) as [span|] eqn:E; cbn; [|assumption].
  pose proof (proj2 H _ _ (Map_get_In _ _ _ E)) as Hid. rewrite Hid.
  apply (well_keyed_Map_set c
           {| traceId := traceId span; spanId := spanId span;
              data := merge_updates (data span) (p_updates params);
              createdAt := createdAt span; updatedAt := Some now |} H).
Qed.

Lemma batchCreateSpans_well_keyed (records : list (Date * CreateSpanRecord))
  (c : InMemoryObservability) :
  well_keyed c -> well_keyed (snd (batchCreateSpans records c)).
Proof.
  revert c. induction records as [|[now r] rest IH]; intros c H; [exact H|].
  cbn [batchCreateSpans]. unfold bind.
  pose proof (createSpan_well_keyed now r c H) as H'.
  destruct (createSpan now r c) as [[[]|e] c']; cbn in *; auto.
Qed.

Lemma batchUpdateSpans_well_keyed (records : list (Date * UpdateParams))
  (c : InMemoryObservability) :
  well_keyed c -> well_keyed (snd (batchUpdateSpans records c)).
Proof.
  revert c. induction records as [|[now r] rest IH]; intros c H; [exact H|].
  cbn [batchUpdateSpans]. unfold bind.
  pose proof (updateSpan_well_keyed now r c H) as H'.
  destruct (updateSpan now r c) as [[[]|e] c']; cbn in *; auto.
Qed.

Lemma delete_spans_well_keyed (spans : list SpanRecord) (c : InMemoryObservability) :
  well_keyed c -> well_keyed (delete_spans spans c).
Proof.
  unfold delete_spans. revert c.
  induction spans as [|s spans IH]; intros c H; [exact H|].
  cbn [fold_left]. apply IH. now apply well_keyed_Map_delete.
Qed.

Lemma batchDeleteTraces_well_keyed (traceIds : list string) (c : InMemoryObservability) :
  well_keyed c -> well_keyed (snd (batchDeleteTraces traceIds c)).
Proof.
  revert c. induction traceIds as [|t rest IH]; intros c H; [exact H|].
  cbn [batchDeleteTraces]. unfold bind, read_collection, write_collection.
  apply IH. now apply delete_spans_well_keyed.
Qed.

(** From the empty collection, whatever is called and whether or not a
    call throws, every record stays filed under the id generated from its
    own [traceId] and [spanId], and no id is held twice. *)
Theorem store_stays_well_keyed (ops : list Op) : well_keyed (run_ops ops []).
Proof.
  assert (G : forall c, well_keyed c -> well_keyed (run_ops ops c)).
  { unfold run_ops. induction ops as [|op ops IH]; intros c H; [exact H|].
    cbn [fold_left]. apply IH. destruct op; cbn [run_op].
    - now apply createSpan_well_keyed.
    - now apply batchCreateSpans_well_keyed.
    - now apply updateSpan_well_keyed.
    - now apply batchUpdateSpans_well_keyed.
    - now apply batchDeleteTraces_well_keyed. }
  apply G. split; [constructor | intros k r []].
Qed.

Lemma generateId_separates (t1 s1 t2 s2 : string) :
  Js.lacks "-" t1 = true -> Js.lacks "-" t2 = true ->
  generateId t1 s1 = generateId t2 s2 -> t1 = t2 /\ s1 = s2.
Proof.
  intros H1 H2 E. unfold generateId in E.
  change ("-" ++ s1)%string with (String "-" s1) in E.
  change ("-" ++ s2)%string with (String "-" s2) in E.
  exact (lacks_sep_inj _ _ _ _ _ H1 H2 E).
Qed.

(** [generateId] tells two pairs apart when their trace ids hold no
    hyphen. *)
Theorem generateId_injective (t1 s1 t2 s2 : string) :
  Js.lacks "-" t1 = true -> Js.lacks "-" t2 = true ->
  generateId t1 s1 = generateId t2 s2 -> t1 = t2 /\ s1 = s2.
Proof. apply generateId_separates. Qed.

Lemma generateId_injective_witness :
  Js.lacks "-" "4bf92f35" = true /\ Js.lacks "-" "4bf92f35" = true
  /\ generateId "4bf92f35" "a-1" = generateId "4bf92f35" "a-1"
  /\ "4bf92f35" = "4bf92f35" /\ "a-1" = "a-1".
Proof.
  split; [reflexivity|]. split; [reflexivity|]. split; [reflexivity|].
  apply (generateId_injective "4bf92f35" "a-1" "4bf92f35" "a-1"); reflexivity.
Defined.

(** ** [updateSpan] *)

Lemma In_values (c : InMemoryObservability) (r : SpanRecord) :
  In r (Map_values c) -> exists k, In (k, r) c.
Proof.
  unfold Map_values. intros H. apply in_map_iff in H as ([k v] & E & Hin).
  cbn in E. subst v. now exists k.
Qed.

(** In a collection whose trace ids hold no hyphen, [updateSpan] on a pair
    that is not stored throws [OBSERVABILITY_UPDATE_SPAN_NOT_FOUND] and
    leaves the collection as it was. *)
Theorem updateSpan_unknown_pair_fails (now : Date) (params : UpdateParams)
  (c : InMemoryObservability) :
  well_keyed c ->
  (forall r, In r (Map_values c) -> Js.lacks "-" (traceId r) = true) ->
  Js.lacks "-" (p_traceId params) = true ->
  ~ holds_pair c (p_traceId params) (p_spanId params) ->
  updateSpan now params c = (Thrown update_span_not_found, c).
Proof.
  intros [Hnd Hk] Hfree Hp Habsent. unfold updateSpan, bind, read_collection.
  destruct (Map_get c _) as [span|] eqn:E; [|reflexivity].
  exfalso. apply Habsent. apply Map_get_In in E.
  assert (Hin : In span (Map_values c)).
  { unfold Map_values. apply in_map_iff. now exists (generateId (p_traceId params)
                                                       (p_spanId params), span). }
  pose proof (Hk _ _ E) as Hid.
  destruct (generateId_separates _ _ _ _ Hp (Hfree _ Hin) Hid) as [Ht Hs].
  exists span. auto.
Qed.


End StoreLaws.

Section StoreLawWitnesses.
Import Store StoreView StoreSamples StoreLawSamples.
Local Open Scope list_scope.

Lemma three_spans_well_keyed : well_keyed three_spans.
Proof.
  split.
  - repeat (constructor; [cbn; intuition discriminate|]). constructor.
  - intros k r H. cbn in H.
    repeat (destruct H as [H|H]; [injection H as <- <-; reflexivity|]).
    contradiction.
Qed.

Lemma updateSpan_unknown_pair_fails_witness :
  Js.lacks "-" (p_traceId (update_of "t1" "s9")) = true
  /\ updateSpan 2000 (update_of "t1" "s9") three_spans
     = (Thrown update_span_not_found, three_spans).
Proof.
  split; [reflexivity|].
  apply (updateSpan_unknown_pair_fails 2000 (update_of "t1" "s9") three_spans).
  - exact three_spans_well_keyed.
  - intros r H. cbn in H.
    repeat (destruct H as [<-|H]; [reflexivity|]). contradiction.
  - reflexivity.
  - intros (r & H & Ht & Hs). cbn in H.
    repeat (destruct H as [<-|H]; [discriminate Hs|]). contradiction.
Defined.


End StoreLawWitnesses.

Section TraceLaws.
Import Store StoreView.
Local Open Scope list_scope.

(** ** [getTrace] *)

Lemma insert_by_startedAt_perm (s : SpanRecord) (l : list SpanRecord) :
  Permutation (insert_by_startedAt s l) (s :: l).
Proof.
  induction l as [|x l IH]; [reflexivity|]. cbn.
  destruct (startedAt (data x) <=? startedAt (data s)); [|reflexivity].
  rewrite IH. apply perm_swap.
Qed.

Lemma sort_by_startedAt_perm (l : list SpanRecord) :
  Permutation (sort_by_startedAt l) l.
Proof.
  unfold sort_by_startedAt. rewrite (Permutation_rev l) at 2.
  induction (rev l) as [|x m IH]; [reflexivity|].
  cbn. rewrite insert_by_startedAt_perm. now constructor.
Qed.

Lemma insert_by_startedAt_sorted (s : SpanRecord) (l : list SpanRecord) :
  StronglySorted by_startedAt l -> StronglySorted by_startedAt (insert_by_startedAt s l).
Proof.
  induction l as [|x l IH]; intros H.
  - cbn. repeat constructor.
  - inversion H as [|? ? Hl Hx]; subst. cbn.
    destruct (Z.leb_spec (startedAt (data x)) (startedAt (data s))) as [Hle|Hgt].
    + constructor; [auto|].
      apply (Permutation_Forall (Permutation_sym (insert_by_startedAt_perm s l))).
      constructor; assumption.
    + constructor; [assumption|]. constructor; [unfold by_startedAt; lia|].
      eapply Forall_impl; [|exact Hx]. unfold by_startedAt. intros a Ha. lia.
Qed.

Lemma sort_by_startedAt_sorted (l : list SpanRecord) :
  StronglySorted by_startedAt (sort_by_startedAt l).
Proof.
  unfold sort_by_startedAt. induction (rev l) as [|x m IH]; [constructor|].
  cbn. now apply insert_by_startedAt_sorted.
Qed.

Lemma getTrace_answer (traceId_ : string) (c : InMemoryObservability) :
  snd (getTrace traceId_ c) = c
  /\ match fst (getTrace traceId_ c) with
     | Returned None => spans_of traceId_ c = []
     | Returned (Some trace) =>
         spans_of traceId_ c <> []
         /\ tr_traceId trace = traceId_
         /\ Permutation (tr_spans trace) (spans_of traceId_ c)
         /\ StronglySorted by_startedAt (tr_spans trace)
     | Thrown _ => False
     end.
Proof.
  unfold getTrace, bind, read_collection, spans_of.
  destruct (filter _ (Map_values c)) as [|x l] eqn:E; cbn -[sort_by_startedAt].
  - auto.
  - repeat split.
    + discriminate.
    + apply sort_by_startedAt_perm.
    + apply sort_by_startedAt_sorted.
Qed.

(** [getTrace] answers [null] exactly when the collection holds no span of
    the trace; otherwise it answers the spans of the trace, all of them and
    no other, earliest [startedAt] first.  It never changes the collection. *)
Theorem getTrace_spans (traceId_ : string) (c : InMemoryObservability) :
  snd (getTrace traceId_ c) = c
  /\ match fst (getTrace traceId_ c) with
     | Returned None => spans_of traceId_ c = []
     | Returned (Some trace) =>
         spans_of traceId_ c <> []
         /\ tr_traceId trace = traceId_
         /\ Permutation (tr_spans trace) (spans_of traceId_ c)
         /\ StronglySorted by_startedAt (tr_spans trace)
     | Thrown _ => False
     end.
Proof. apply getTrace_answer. Qed.

(** A span [createSpan] accepted is found by [getTrace] of its trace, with
    both timestamps set to the time of the call. *)
Theorem createSpan_then_getTrace (now : Date) (span : CreateSpanRecord)
  (c : InMemoryObservability) (t s : string) :
  c_traceId span = Some t -> c_spanId span = Some s -> t <> ""%string -> s <> ""%string ->
  exists trace,
    fst (getTrace t (snd (createSpan now span c))) = Returned (Some trace)
    /\ In {| traceId := t; spanId := s; data := c_data span;
             createdAt := now; updatedAt := Some now |} (tr_spans trace).
Proof.
  intros Ht Hs Hnt Hns. rewrite (createSpan_valid now span c t s Ht Hs Hnt Hns).
  cbn [snd].
  match goal with |- context [Map_set c _ ?r0] => set (r := r0) end.
  assert (Hrt : traceId r = t) by reflexivity.
  assert (Hin : In r (spans_of t (Map_set c (generateId t s) r))).
  { unfold spans_of. apply filter_In. split.
    - unfold Map_values. apply in_map_iff. exists (generateId t s, r). split; auto.
      apply Map_get_In, Map_get_set_same.
    - rewrite Hrt. apply String.eqb_refl. }
  pose proof (getTrace_answer t (Map_set c (generateId t s) r)) as [_ G].
  destruct (fst (getTrace t (Map_set c (generateId t s) r))) as [[trace|]|e].
  - exists trace. split; [reflexivity|].
    destruct G as (_ & _ & Hperm & _).
    exact (Permutation_in _ (Permutation_sym Hperm) Hin).
  - rewrite G in Hin. contradiction.
  - contradiction.
Qed.

(** ** [batchDeleteTraces] *)

Lemma filter_filter {A} (P Q : A -> bool) (l : list A) :
  filter Q (filter P l) = filter (fun x => P x && Q x) l.
Proof.
  induction l as [|x l IH]; [reflexivity|]. cbn.
  destruct (P x); cbn; [destruct (Q x)|]; now rewrite IH.
Qed.

Lemma delete_spans_filter (spans : list SpanRecord) (c : InMemoryObservability) :
  NoDup (map fst c) ->
  delete_spans spans c
  = filter (fun kv => negb (existsb (fun s => (fst kv =? generateId (traceId s) (spanId s))%string)
                              spans)) c.
Proof.
  unfold delete_spans. revert c. induction spans as [|s spans IH]; intros c Hnd.
  - cbn. symmetry. apply forallb_filter_id. now apply forallb_forall.
  - cbn [fold_left]. rewrite Map_delete_filter by assumption.
    rewrite IH by now apply NoDup_keys_filter.
    rewrite filter_filter. apply filter_ext. intros kv. cbn [existsb].
    now rewrite negb_orb.
Qed.

Lemma delete_trace (traceId_ : string) (c : InMemoryObservability) :
  well_keyed c ->
  delete_spans (spans_of traceId_ c) c
  = filter (fun kv => negb (traceId (snd kv) =? traceId_)%string) c.
Proof.
  intros [Hnd Hk]. rewrite delete_spans_filter by assumption.
  apply filter_ext_in. intros [k r] Hin. cbn [fst snd]. f_equal.
  destruct (String.eqb_spec (traceId r) traceId_) as [E|E].
  - apply existsb_exists. exists r. split.
    + unfold spans_of. apply filter_In. split.
      * unfold Map_values. apply in_map_iff. now exists (k, r).
      * now apply String.eqb_eq.
    + rewrite (Hk _ _ Hin). apply String.eqb_refl.
  - destruct (existsb _ (spans_of traceId_ c)) eqn:X; [|reflexivity].
    exfalso. apply existsb_exists in X as (s & Hs & Hid).
    apply String.eqb_eq in Hid. unfold spans_of in Hs.
    apply filter_In in Hs as [Hs Ht]. apply String.eqb_eq in Ht.
    apply In_values in Hs as (k' & Hs).
    pose proof (Hk _ _ Hs) as Hk'. rewrite <- Hid in Hk'. subst k'.
    pose proof (same_key_same_record c k s r Hnd Hs Hin). subst s. contradiction.
Qed.

(** On a well-keyed collection [batchDeleteTraces] removes the spans of the
    listed traces, all of them and no other, and keeps the order of the
    rest; [getTrace] then answers [null] for each listed trace. *)
Theorem batchDeleteTraces_removes (traceIds : list string) (c : InMemoryObservability) :
  well_keyed c ->
  batchDeleteTraces traceIds c
  = (Returned tt, filter (fun kv => negb (in_traces traceIds (snd kv))) c)
  /\ forall t, In t traceIds ->
       fst (getTrace t (snd (batchDeleteTraces traceIds c))) = Returned None.
Proof.
  intros H.
  assert (E : batchDeleteTraces traceIds c
              = (Returned tt, filter (fun kv => negb (in_traces traceIds (snd kv))) c)).
  { revert c H. induction traceIds as [|t rest IH]; intros c H.
    - cbn. unfold ret. f_equal. symmetry. apply forallb_filter_id.
      now apply forallb_forall.
    - cbn [batchDeleteTraces]. unfold bind, read_collection, write_collection.
      fold (spans_of t c). rewrite delete_trace by assumption.
      rewrite IH by now apply well_keyed_filter.
      f_equal. rewrite filter_filter. apply filter_ext. intros kv.
      unfold in_traces. cbn [existsb]. now rewrite negb_orb. }
  split; [exact E|].
  intros t Ht. rewrite E. cbn [snd].
  pose proof (getTrace_answer t (filter (fun kv => negb (in_traces traceIds (snd kv))) c))
    as [_ G].
  assert (Hnone : spans_of t (filter (fun kv => negb (in_traces traceIds (snd kv))) c) = []).
  { unfold spans_of, Map_values.
    destruct (filter _ (map snd _)) as [|x l] eqn:X; [reflexivity|].
    exfalso. assert (Hx : In x (x :: l)) by now left. rewrite <- X in Hx.
    apply filter_In in Hx as [Hx Hxt]. apply String.eqb_eq in Hxt.
    apply in_map_iff in Hx as ([k v] & Ev & Hx). cbn in Ev. subst v.
    apply filter_In in Hx as [_ Hx]. cbn in Hx. apply negb_true_iff in Hx.
    unfold in_traces in Hx.
    assert (Y : existsb (String.eqb (traceId x)) traceIds = true).
    { apply existsb_exists. exists t. split; [assumption|]. now apply String.eqb_eq. }
    congruence. }
  destruct (fst (getTrace t _)) as [[trace|]|e]; [|reflexivity|contradiction].
  destruct G as (G & _). contradiction.
Qed.

(** ** [batchCreateSpans] *)

Lemma createSpan_invalid (now : Date) (span : CreateSpanRecord)
  (c : InMemoryObservability) :
  valid_ids span = false -> createSpan now span c = (Thrown (create_error span), c).
Proof.
  unfold valid_ids, create_error, createSpan, validateCreateSpan, bind.
  destruct (truthy_str (c_spanId span)); cbn; [|reflexivity].
  destruct (truthy_str (c_traceId span)); cbn; [discriminate | reflexivity].
Qed.

Lemma createSpan_returns (now : Date) (span : CreateSpanRecord)
  (c : InMemoryObservability) :
  valid_ids span = true -> fst (createSpan now span c) = Returned tt.
Proof.
  unfold valid_ids, createSpan, validateCreateSpan, bind.
  destruct (truthy_str (c_spanId span)); cbn; [|discriminate].
  destruct (truthy_str (c_traceId span)); cbn; [reflexivity | discriminate].
Qed.

(** [batchCreateSpans] is not all-or-nothing: it stops at the first record
    [validateCreateSpan] refuses and throws that record's error; the records
    before it stay created, the records after it are not looked at. *)
Theorem batchCreateSpans_stops_at_first_invalid
  (before after : list (Date * CreateSpanRecord)) (now : Date)
  (bad : CreateSpanRecord) (c : InMemoryObservability) :
  Forall (fun r => valid_ids (snd r) = true) before ->
  valid_ids bad = false ->
  fst (batchCreateSpans before c) = Returned tt
  /\ batchCreateSpans (before ++ (now, bad) :: after) c
     = (Thrown (create_error bad), snd (batchCreateSpans before c)).
Proof.
  intros Hvalid Hbad. revert c.
  induction before as [|[n r] before IH]; intros c.
  - split; [reflexivity|]. cbn [app batchCreateSpans]. unfold bind.
    now rewrite createSpan_invalid.
  - inversion Hvalid as [|? ? Hr Hrest]; subst. cbn [snd] in Hr.
    cbn [app batchCreateSpans]. unfold bind.
    pose proof (createSpan_returns n r c Hr) as Hret.
    destruct (createSpan n r c) as [[[]|e] c']; cbn in Hret; [|discriminate].
    apply IH, Hrest.
Qed.

(** ** [getTracesPaginated] *)

Lemma slice_page {A} (l : list A) (page_ perPage_ : Z) :
  0 <= page_ -> 0 <= perPage_ ->
  slice l (page_ * perPage_) (page_ * perPage_ + perPage_)
  = firstn (Z.to_nat perPage_) (skipn (Z.to_nat (page_ * perPage_)) l).
Proof.
  intros Hp Hn. unfold slice, slice_index.
  assert (Hs : 0 <= page_ * perPage_) by nia.
  generalize dependent (page_ * perPage_). intros start Hs.
  replace (start <? 0) with false by (symmetry; apply Z.ltb_ge; lia).
  replace (start + perPage_ <? 0) with false by (symmetry; apply Z.ltb_ge; lia).
  pose proof (length_skipn (Z.to_nat start) l) as Hlen.
  destruct (Z.le_gt_cases (Z.of_nat (List.length l)) start) as [Hout|Hin].
  - assert (X : (List.length l <= Z.to_nat start)%nat) by lia.
    rewrite (skipn_all2 l X).
    assert (Y : (List.length l
                 <= Z.to_nat (Z.min start (Z.of_nat (List.length l))))%nat) by lia.
    rewrite (skipn_all2 l Y). now rewrite !firstn_nil.
  - rewrite (Z.min_l start) by lia.
    destruct (Z.le_gt_cases (start + perPage_) (Z.of_nat (List.length l)))
      as [Hfull|Hshort].
    + rewrite (Z.min_l (start + perPage_)) by lia. f_equal. lia.
    + rewrite (Z.min_r (start + perPage_)) by lia.
      rewrite !firstn_all2; [reflexivity | |]; lia.
Qed.


End TraceLaws.

Section TraceLawWitnesses.
Import Store StoreView StoreSamples StoreLawSamples.
Local Open Scope list_scope.

(** What [getTracesPaginated] returns was stored, is a root span, passes
    the filters and started within the date range, both bounds included;
    the collection is left as it was. *)
Theorem returned_spans_are_matching_roots (arg : TracesPaginatedArg)
  (c c' : InMemoryObservability) (info : PaginationInfo) (spans : list SpanRecord)
  (s : SpanRecord) :
  getTracesPaginated arg c = (Returned (info, spans), c') ->
  In s spans ->
  c' = c
  /\ In s (Map_values c)
  /\ parentSpanId (data s) = None
  /\ span_passes_filter (filters arg) s = true
  /\ within (opt_field (pagination arg) dateRange) s.
Proof.
  intros H Hin.
  destruct (returned_span_passes arg c c' info spans s H Hin) as (Hpass & Hroot & Hst).
  rewrite getTracesPaginated_eq in H. injection H as _ Hs Hc.
  repeat split; auto. subst spans.
  apply slice_incl in Hin. unfold matching_root_spans, filterSpansByDate in Hin.
  apply filter_In in Hin as [_ Hdate]. unfold within.
  destruct (pagination arg) as [p|]; cbn [opt_field] in *; [|exact I].
  destruct (dateRange p) as [r|]; cbn [opt_field] in *; [|exact I].
  destruct (dr_start r) as [d1|]; destruct (dr_end r) as [d2|]; split; try exact I;
    repeat match type of Hdate with
           | context [?a <? ?b] => destruct (Z.ltb_spec a b); try discriminate Hdate
           end; lia.
Qed.

Lemma returned_spans_are_matching_roots_witness :
  getTracesPaginated (first_page 10) three_spans
  = (Returned ({| total := 2; pi_page := 0; pi_perPage := 10; hasMore := false |},
               [root_span "t1" "s1" blank_data; root_span "t2" "s1" blank_data]),
     three_spans)
  /\ In (root_span "t2" "s1" blank_data)
       [root_span "t1" "s1" blank_data; root_span "t2" "s1" blank_data]
  /\ parentSpanId (data (root_span "t2" "s1" blank_data)) = None.
Proof.
  assert (E : getTracesPaginated (first_page 10) three_spans
    = (Returned ({| total := 2; pi_page := 0; pi_perPage := 10; hasMore := false |},
                 [root_span "t1" "s1" blank_data; root_span "t2" "s1" blank_data]),
       three_spans)) by reflexivity.
  assert (Hin : In (root_span "t2" "s1" blank_data)
       [root_span "t1" "s1" blank_data; root_span "t2" "s1" blank_data])
    by (right; left; reflexivity).
  split; [exact E|]. split; [exact Hin|].
  exact (proj1 (proj2 (proj2
    (returned_spans_are_matching_roots _ _ _ _ _ _ E Hin)))).
Defined.

Lemma createSpan_then_getTrace_witness :
  exists trace,
    fst (getTrace "t1" (snd (createSpan 2000 (new_span (Some "t1") (Some "s3"))
                               three_spans)))
    = Returned (Some trace)
    /\ In {| traceId := "t1"; spanId := "s3"; data := blank_data;
             createdAt := 2000; updatedAt := Some 2000 |} (tr_spans trace).
Proof.
  apply (createSpan_then_getTrace 2000 (new_span (Some "t1") (Some "s3")) three_spans
           "t1" "s3"); try reflexivity; discriminate.
Defined.

Lemma batchDeleteTraces_removes_witness :
  batchDeleteTraces ["t1"] three_spans
  = (Returned tt, [stored (root_span "t2" "s1" blank_data)])
  /\ fst (getTrace "t1" (snd (batchDeleteTraces ["t1"] three_spans))) = Returned None.
Proof.
  destruct (batchDeleteTraces_removes ["t1"] three_spans three_spans_well_keyed)
    as [E G].
  split; [exact E|]. apply G. now left.
Defined.

Lemma batchCreateSpans_stops_at_first_invalid_witness :
  valid_ids (new_span (Some "t3") None) = false
  /\ batchCreateSpans
       ([(2000, new_span (Some "t3") (Some "s1"))]
        ++ (2001, new_span (Some "t3") None)
           :: [(2002, new_span (Some "t3") (Some "s2"))]) []
     = (Thrown span_id_required,
        [(generateId "t3" "s1",
          {| traceId := "t3"; spanId := "s1"; data := blank_data;
             createdAt := 2000; updatedAt := Some 2000 |})]).
Proof.
  split; [reflexivity|].
  refine (proj2 (batchCreateSpans_stops_at_first_invalid
                   [(2000, new_span (Some "t3") (Some "s1"))]
                   [(2002, new_span (Some "t3") (Some "s2"))]
                   2001 (new_span (Some "t3") None) [] _ _)).
  - repeat constructor.
  - reflexivity.
Defined.


End TraceLawWitnesses.

(* ===================================================================== *)
(** * More laws of the traces query codec *)
(* ===================================================================== *)

Section CodecLaws.
Import Js Url Qs Zod Codec Wire Flat Fields.
Local Open Scope list_scope.

Variable SpanType_values : list string.
Variable Date_parse_other : string -> option Z.

Ltac pick :=
  first [ match goal with H : ?P |- ?P => exact H end
        | apply in_or_app; right; match goal with H : ?P |- ?P => exact H end
        | apply in_or_app; left; pick ].

Ltac in_shape H :=
  unfold tracesPaginatedArgSchema, tracesFilterSchema, paginationArgsSchema,
    dateRangeSchema, tracesOrderBySchema in H |- *;
  rewrite ?issues_z_object; rewrite !issues_shape_key;
  cbn [app]; cbn [app] in H; pick.

(** ** Malformed values are reported *)

Lemma hasChildError_preprocess_other (s : string) :
  s <> "true"%string -> s <> "false"%string ->
  hasChildError_preprocess (JStr s) = JStr s.
Proof.
  intros Ht Hf. unfold hasChildError_preprocess.
  repeat (match goal with
          | x : string |- _ => destruct x as [|[[] [] [] [] [] [] [] []] x]
          end;
          try reflexivity;
          try (exfalso; apply Ht; reflexivity);
          try (exfalso; apply Hf; reflexivity)).
Qed.

Lemma malformed_boolean_errors (r f : JsObject) (s : string) :
  get r "filters" = JObj f -> get f "hasChildError" = JStr s ->
  s <> "true"%string -> s <> "false"%string ->
  exists errs,
    validate SpanType_values Date_parse_other r = ParseErrorResult errs
    /\ In {| ve_field := "filters.hasChildError";
             ve_message := "Expected boolean, received string" |} errs.
Proof.
  intros Hf Hs Ht Hfa.
  set (i := {| path := ["filters"; "hasChildError"];
               message := "Expected boolean, received string" |}).
  assert (Hi : In i (issues (z_preprocess hasChildError_preprocess
                               (z_optional z_boolean) ["filters"; "hasChildError"]
                               (get f "hasChildError")))).
  { rewrite Hs. unfold z_preprocess.
    rewrite hasChildError_preprocess_other by assumption. now left. }
  assert (Hin : In i (issues (tracesFilterSchema SpanType_values Date_parse_other
                                ["filters"] (JObj f)))) by in_shape Hi.
  destruct (validate_errors SpanType_values Date_parse_other r i
              (under_filters SpanType_values Date_parse_other r f i Hf Hin))
    as (errs & Hv & He).
  exists errs. split; [exact Hv | exact He].
Qed.

Lemma malformed_date_errors (r f d : JsObject) (range bound s : string) :
  In range ["startedAt"; "endedAt"] -> In bound ["start"; "end"] ->
  get r "filters" = JObj f -> get f range = JObj d -> get d bound = JStr s ->
  Date_parse Date_parse_other s = None ->
  exists errs,
    validate SpanType_values Date_parse_other r = ParseErrorResult errs
    /\ In {| ve_field := join "." ["filters"; range; bound];
             ve_message := "Invalid date" |} errs.
Proof.
  intros Hrange Hbound Hf Hd Hs Hbad.
  set (i := {| path := ["filters"; range; bound]; message := "Invalid date" |}).
  assert (Hi : In i (issues (z_optional (z_coerce_date (Date_parse Date_parse_other))
                               ["filters"; range; bound] (get d bound)))).
  { rewrite Hs. cbn. unfold z_coerce_date, Date_of. rewrite Hbad. now left. }
  assert (Hin : In i (issues (tracesFilterSchema SpanType_values Date_parse_other
                                ["filters"] (JObj f)))).
  { cbn in Hrange, Hbound.
    destruct Hrange as [<-|[<-|[]]]; destruct Hbound as [<-|[<-|[]]];
      first [ apply (under_startedAt SpanType_values Date_parse_other f d i Hd)
            | apply (under_endedAt SpanType_values Date_parse_other f d i Hd) ];
      in_shape Hi. }
  destruct (validate_errors SpanType_values Date_parse_other r i
              (under_filters SpanType_values Date_parse_other r f i Hf Hin))
    as (errs & Hv & He).
  exists errs. split; [exact Hv | exact He].
Qed.

(** A [hasChildError] parameter that is neither ["true"] nor ["false"] makes
    [parseTracesQueryParams] fail with an error for [filters.hasChildError]:
    the value is not dropped. *)
Theorem malformed_boolean_is_reported (input : QueryInput) (s : string) :
  value_at (JObj (restructure (Qs.parse (queryString_of input))))
    ["filters"; "hasChildError"] = Some (JStr s) ->
  s <> "true"%string -> s <> "false"%string ->
  exists errs,
    parseTracesQueryParams SpanType_values Date_parse_other input
    = ParseErrorResult errs
    /\ In {| ve_field := "filters.hasChildError";
             ve_message := "Expected boolean, received string" |} errs.
Proof.
  cbn [value_at]. intros Hval Ht Hf.
  destruct (get _ "filters") as [| | | | | |f] eqn:Ef; try discriminate Hval.
  injection Hval as Hs.
  unfold parseTracesQueryParams. cbv zeta.
  now apply (malformed_boolean_errors _ f s).
Qed.

(** A bound of [startedAt] or [endedAt] that [Date.parse] does not accept
    makes [parseTracesQueryParams] fail with the error [Invalid date] for
    that bound. *)
Theorem malformed_date_is_reported (input : QueryInput) (range bound s : string) :
  In range ["startedAt"; "endedAt"] -> In bound ["start"; "end"] ->
  value_at (JObj (restructure (Qs.parse (queryString_of input))))
    ["filters"; range; bound] = Some (JStr s) ->
  Date_parse Date_parse_other s = None ->
  exists errs,
    parseTracesQueryParams SpanType_values Date_parse_other input
    = ParseErrorResult errs
    /\ In {| ve_field := join "." ["filters"; range; bound];
             ve_message := "Invalid date" |} errs.
Proof.
  cbn [value_at]. intros Hrange Hbound Hval Hbad.
  destruct (get _ "filters") as [| | | | | |f] eqn:Ef; try discriminate Hval.
  destruct (get f range) as [| | | | | |d] eqn:Ed; try discriminate Hval.
  injection Hval as Hs.
  unfold parseTracesQueryParams. cbv zeta.
  now apply (malformed_date_errors _ f d range bound s).
Qed.

(** ** Parameters that are not the codec's *)

Lemma fold_copy_ext (p q : JsObject) (keys : list string) (acc : JsObject) :
  (forall k, In k keys -> get p k = get q k) ->
  fold_left (copy_defined p) keys acc = fold_left (copy_defined q) keys acc.
Proof.
  revert acc. induction keys as [|k keys IH]; intros acc H; [reflexivity|].
  cbn [fold_left]. unfold copy_defined at 2 4. rewrite (H k) by now left.
  apply IH. intros k' Hk'. apply H. now right.
Qed.

(** Step 3 of [parseTracesQueryParams] reads the parsed query under the
    codec's own top-level keys only: whatever else the query string holds
    is left out of what is validated, neither kept nor reported. *)
Theorem restructure_reads_known_keys (parsed parsed' : JsObject) :
  (forall k, In k FLAT_KEYS -> get parsed k = get parsed' k) ->
  restructure parsed = restructure parsed'.
Proof.
  intros H.
  assert (Hc : forall k acc, In k FLAT_KEYS ->
                 copy_defined parsed acc k = copy_defined parsed' acc k).
  { intros k acc Hk. unfold copy_defined. now rewrite (H k Hk). }
  assert (Hpage : In "page" FLAT_KEYS) by (cbn; auto 30).
  assert (HperPage : In "perPage" FLAT_KEYS) by (cbn; auto 30).
  assert (HorderBy : In "orderBy" FLAT_KEYS) by (cbn; auto 30).
  unfold restructure. cbv zeta.
  rewrite (H "page" Hpage), (H "perPage" HperPage).
  rewrite (Hc "orderBy" _ HorderBy), (Hc "perPage" _ HperPage), (Hc "page" _ Hpage).
  rewrite (fold_copy_ext parsed parsed' SCALAR_FILTER_KEYS)
    by (intros k Hk; apply H; unfold FLAT_KEYS, FILTER_KEYS;
        apply in_or_app; right; apply in_or_app; left; apply in_or_app; now left).
  rewrite (fold_copy_ext parsed parsed'
             ["startedAt"; "endedAt"; "tags"; "metadata"; "scope"; "versionInfo"])
    by (intros k Hk; apply H; unfold FLAT_KEYS, FILTER_KEYS;
        apply in_or_app; right; apply in_or_app; left; apply in_or_app; now right).
  reflexivity.
Qed.

End CodecLaws.

Section CodecSoundness.
Import Js Url Qs Zod Codec Wire Flat Fields.
Local Open Scope list_scope.

Variable SpanType_values : list string.
Variable Date_parse_other : string -> option Z.

Lemma shape_key_Some {A B} (fs : Shape (A -> B)) (key : string) (schema : ZodType A)
  (p : list string) (data : JsObject) (b : B) :
  output (shape_key fs key schema p data) = Some b ->
  exists f a, output (fs p data) = Some f
              /\ output (schema (p ++ [key]) (get data key)) = Some a
              /\ b = f a.
Proof.
  unfold shape_key. cbn [output].
  destruct (output (fs p data)) as [f|]; [|discriminate].
  destruct (output (schema _ _)) as [a|]; [|discriminate].
  intros H. injection H as <-. now exists f, a.
Qed.

Lemma z_optional_Some {A} (schema : ZodType A) (p : list string) (v : JsVal) (a : A) :
  output (z_optional schema p v) = Some (Some a) -> output (schema p v) = Some a.
Proof.
  unfold z_optional. destruct v; cbn; try discriminate;
    destruct (output (schema p _)); cbn; intros H; try discriminate H;
    now injection H as ->.
Qed.

Lemma coerce_number_Some (lo : Z) (p : list string) (v : JsVal) (n : Z) :
  output (z_coerce_number [check_int; check_min lo] p v) = Some n -> lo <= n.
Proof.
  unfold z_coerce_number, number_checks.
  destruct (ToNumber v) as [z| | |]; cbn; try discriminate.
  destruct (Z.ltb_spec z lo) as [Hlt|Hge]; cbn; [discriminate|].
  intros E. injection E as <-. assumption.
Qed.

Lemma output_z_object {A} (shape : Shape A) (p : list string) (data : JsObject) :
  output (z_object shape p (JObj data)) = output (shape p data).
Proof. reflexivity. Qed.

Lemma validate_output (r : JsObject) (d : TracesPaginatedArg) :
  validate SpanType_values Date_parse_other r = ParseResult d ->
  output (tracesPaginatedArgSchema SpanType_values Date_parse_other [] (JObj r))
  = Some d.
Proof.
  unfold validate. cbv zeta.
  destruct (output _) as [d'|]; destruct (issues _); try discriminate.
  intros H. now injection H as ->.
Qed.

Lemma top_level_pagination (r : JsObject) (d : TracesPaginatedArg) :
  output (tracesPaginatedArgSchema SpanType_values Date_parse_other [] (JObj r))
  = Some d ->
  output (z_optional paginationArgsSchema ["pagination"] (get r "pagination"))
  = Some (pagination d).
Proof.
  unfold tracesPaginatedArgSchema.
  rewrite (output_z_object _ [] r).
  intros H.
  apply shape_key_Some in H as (f3 & o & H & _ & ->).
  apply shape_key_Some in H as (f2 & pg & H & Hpg & ->).
  apply shape_key_Some in H as (f1 & fl & H & _ & ->).
  unfold shape_pure, OK in H. cbn [output] in H. injection H as <-.
  exact Hpg.
Qed.

Lemma pagination_fields (data : JsObject) (p : PaginationArgs) (path : list string) :
  output (paginationArgsSchema path (JObj data)) = Some p ->
  output (z_optional (z_coerce_number [check_int; check_min 0]) (path ++ ["page"])
            (get data "page")) = Some (page p)
  /\ output (z_optional (z_coerce_number [check_int; check_min 1]) (path ++ ["perPage"])
               (get data "perPage")) = Some (perPage p).
Proof.
  unfold paginationArgsSchema. rewrite (output_z_object _ path data).
  intros H.
  apply shape_key_Some in H as (g2 & pp & H & Hpp & ->).
  apply shape_key_Some in H as (g1 & pn & H & Hpn & ->).
  unfold shape_pure, OK in H. cbn [output] in H. injection H as <-.
  split; assumption.
Qed.

(** A successful parse never carries a negative [page] or a [perPage]
    below one. *)
Theorem parsed_pagination_is_valid (input : QueryInput) (d : TracesPaginatedArg)
  (p : PaginationArgs) :
  parseTracesQueryParams SpanType_values Date_parse_other input = ParseResult d ->
  pagination d = Some p ->
  (forall n, page p = Some n -> 0 <= n) /\ (forall n, perPage p = Some n -> 1 <= n).
Proof.
  unfold parseTracesQueryParams. cbv zeta. intros H Hp.
  apply validate_output, top_level_pagination in H. rewrite Hp in H.
  apply z_optional_Some in H.
  destruct (get _ "pagination") as [| | | | | |data]; try discriminate H.
  apply pagination_fields in H as [Hpn Hpp]. split.
  - intros n E. rewrite E in Hpn.
    apply z_optional_Some in Hpn. now apply coerce_number_Some in Hpn.
  - intros n E. rewrite E in Hpp.
    apply z_optional_Some in Hpp. now apply coerce_number_Some in Hpp.
Qed.

(** ** What the serializer writes *)

(** [prepareForSerialization] writes one entry for each of [page],
    [perPage], the scalar filters, [startedAt], [endedAt], [tags],
    [metadata], [scope], [versionInfo] and [orderBy] whose value is defined,
    in this order and nothing else; an empty list of tags and empty maps are
    left out. *)
Theorem serializer_writes_defined_keys (args : TracesPaginatedArg) :
  prepareForSerialization args = defined_entries FLAT_KEYS (flat_value args)
  /\ nodup_keys (prepareForSerialization args) = true
  /\ forall k v, In (k, v) (prepareForSerialization args) ->
       In k FLAT_KEYS /\ v = flat_value args k /\ is_undefined v = false.
Proof.
  rewrite prepareForSerialization_entries. split; [reflexivity|]. split.
  - apply nodup_defined_entries, FLAT_KEYS_NoDup.
  - intros k v Hin. unfold defined_entries in Hin.
    apply in_flat_map in Hin as (k' & Hk' & Hin).
    destruct (is_undefined (flat_value args k')) eqn:E; [contradiction|].
    destruct Hin as [Hin|[]]. injection Hin as <- <-. auto.
Qed.

(** ** The path the client requests *)

Lemma lacks_serialized (args : TracesPaginatedArg) (c : ascii) :
  wire_ok (prepareForSerialization args) = true ->
  emitted c = false -> Ascii.eqb c "=" = false -> Ascii.eqb c "&" = false ->
  lacks c (serializeTracesParams args) = true.
Proof.
  intros Hw Hc Heq Hamp. unfold serializeTracesParams.
  unfold wire_ok in Hw. apply andb_prop in Hw as [Hw _].
  apply andb_prop in Hw as [Hw _]. rewrite stringify_pairs by assumption.
  apply lacks_join.
  - unfold lacks. cbn [all_chars]. rewrite Ascii.eqb_sym, Hamp. reflexivity.
  - apply Forall_forall. intros s Hs. apply in_map_iff in Hs as (kv & <- & _).
    now apply encode_pair_lacks.
Qed.

Lemma parse_with_prefix (s : string) :
  lacks "?" s = true -> s <> ""%string -> Qs.parse ("?" ++ s) = Qs.parse s.
Proof.
  intros Hl Hne. unfold Qs.parse.
  apply String.eqb_neq in Hne. rewrite Hne.
  change ("?" ++ s)%string with (String "?" s).
  cbn [String.eqb]. unfold parseValues.
  cbn [strip_query_prefix]. now rewrite strip_query_prefix_lacks.
Qed.

Lemma round_trip_again (args : TracesPaginatedArg) :
  round_trips SpanType_values args = true ->
  validate SpanType_values Date_parse_other
    (restructure (Qs.parse (serializeTracesParams args))) = ParseResult args.
Proof.
  intros H.
  pose proof (prepareForSerialization_wire SpanType_values args H) as Hw.
  unfold serializeTracesParams. rewrite qs_parse_stringify by assumption.
  now apply validate_read_back.
Qed.

(** For arguments that round-trip, the path [getTraces] requests is
    [/api/observability/traces] followed by nothing or by [?] and the
    serialized arguments, and what follows the path parses back to the
    arguments. *)
Theorem getTraces_path_parses_back (args : TracesPaginatedArg) :
  round_trips SpanType_values args = true ->
  exists query,
    Client.getTraces_path args = (Client.traces_path ++ query)%string
    /\ parseTracesQueryParams SpanType_values Date_parse_other (InString query)
       = ParseResult args.
Proof.
  intros H.
  pose proof (prepareForSerialization_wire SpanType_values args H) as Hw.
  pose proof (round_trip_again args H) as R.
  pose proof (lacks_serialized args "?" Hw eq_refl eq_refl eq_refl) as Hl.
  unfold Client.getTraces_path. cbv zeta.
  generalize dependent (serializeTracesParams args). intros s R Hl.
  destruct (String.eqb_spec s "") as [E|E].
  - exists ""%string. split; [reflexivity|]. subst s. exact R.
  - exists ("?" ++ s)%string. split; [reflexivity|].
    unfold parseTracesQueryParams. cbn [queryString_of].
    rewrite parse_with_prefix; assumption.
Qed.

End CodecSoundness.

Section CodecLawWitnesses.
Import Js Url Qs Zod Codec Wire Flat Fields CodecLawSamples.
Local Open Scope list_scope.

Lemma malformed_boolean_is_reported_witness :
  exists errs,
    parseTracesQueryParams [] (fun _ => None) bad_boolean = ParseErrorResult errs
    /\ In {| ve_field := "filters.hasChildError";
             ve_message := "Expected boolean, received string" |} errs.
Proof.
  apply (malformed_boolean_is_reported [] (fun _ => None) bad_boolean "maybe");
    [vm_compute; reflexivity | discriminate | discriminate].
Defined.

Lemma malformed_date_is_reported_witness :
  exists errs,
    parseTracesQueryParams [] (fun _ => None) bad_date = ParseErrorResult errs
    /\ In {| ve_field := "filters.endedAt.start"; ve_message := "Invalid date" |} errs.
Proof.
  apply (malformed_date_is_reported [] (fun _ => None) bad_date
           "endedAt" "start" "yesterday").
  - right. left. reflexivity.
  - left. reflexivity.
  - vm_compute. reflexivity.
  - vm_compute. reflexivity.
Defined.

Lemma restructure_reads_known_keys_witness :
  restructure with_unknown = restructure without_unknown.
Proof.
  apply (restructure_reads_known_keys with_unknown without_unknown).
  intros k Hk. cbn in Hk.
  repeat (destruct Hk as [<-|Hk]; [reflexivity|]). contradiction.
Defined.

Lemma parsed_pagination_is_valid_witness :
  parseTracesQueryParams [] (fun _ => None) third_page
  = ParseResult {| filters := None;
                   pagination := Some {| page := Some 2; perPage := Some 25 |};
                   orderBy := None |}
  /\ 0 <= 2 /\ 1 <= 25.
Proof.
  assert (E : parseTracesQueryParams [] (fun _ => None) third_page
              = ParseResult {| filters := None;
                               pagination := Some {| page := Some 2; perPage := Some 25 |};
                               orderBy := None |}) by (vm_compute; reflexivity).
  split; [exact E|].
  destruct (parsed_pagination_is_valid [] (fun _ => None) third_page _ _ E eq_refl)
    as [Hpage HperPage].
  split; [apply Hpage | apply HperPage]; reflexivity.
Defined.

Lemma getTraces_path_parses_back_witness :
  round_trips ["agent_run"] FlatSamples.full_query = true
  /\ exists query,
       Client.getTraces_path FlatSamples.full_query
       = (Client.traces_path ++ query)%string
       /\ parseTracesQueryParams ["agent_run"] (fun _ => None) (InString query)
          = ParseResult FlatSamples.full_query.
Proof.
  split; [vm_compute; reflexivity|].
  apply (getTraces_path_parses_back ["agent_run"] (fun _ => None) FlatSamples.full_query).
  vm_compute. reflexivity.
Defined.

End CodecLawWitnesses.

(* ===================================================================== *)
(** * The record input: [URLSearchParams] then [qs.parse] *)
(* ===================================================================== *)

Section FormFacts.
Import Js Url Qs Codec Wire FormView.
Local Open Scope list_scope.

Lemma form_encode_cons (c : ascii) (s : string) :
  form_encode (String c s) =
  if Ascii.eqb c " " then String "+" (form_encode s)
  else if form_safe c then String c (form_encode s)
  else (hexTable c ++ form_encode s)%string.
Proof. reflexivity. Qed.

Lemma hexTable_form_emitted (c : ascii) : all_chars form_emitted (hexTable c) = true.
Proof.
  destruct c as [[] [] [] [] [] [] [] []]; reflexivity.
Qed.

Lemma form_encode_emitted (s : string) : all_chars form_emitted (form_encode s) = true.
Proof.
  induction s as [|c s IH]; [reflexivity|].
  rewrite form_encode_cons. destruct (Ascii.eqb c " ") eqn:Es.
  - cbn [all_chars]. rewrite IH. reflexivity.
  - destruct (form_safe c) eqn:E.
    + cbn [all_chars]. unfold form_emitted at 1. rewrite E. simpl. exact IH.
    + rewrite all_chars_app, hexTable_form_emitted, IH. reflexivity.
Qed.

Lemma form_encode_lacks (c : ascii) (s : string) :
  form_emitted c = false -> lacks c (form_encode s) = true.
Proof.
  intros Hc. eapply all_chars_impl; [|apply form_encode_emitted].
  intros a Ha. apply negb_true_iff. destruct (Ascii.eqb a c) eqn:E; auto.
  apply Ascii.eqb_eq in E. subst. congruence.
Qed.

Lemma decode_hexTable_any (c : ascii) (r : string) :
  decodeURIComponent (hexTable c ++ r) = option_map (String c) (decodeURIComponent r).
Proof.
  destruct c as [[] [] [] [] [] [] [] []]; reflexivity.
Qed.

Lemma plus_to_space_hexTable (c : ascii) (r : string) :
  plus_to_space (hexTable c ++ r) = (hexTable c ++ plus_to_space r)%string.
Proof.
  destruct c as [[] [] [] [] [] [] [] []]; reflexivity.
Qed.

Lemma decodeURIComponent_form_encode (s : string) :
  decodeURIComponent (plus_to_space (form_encode s)) = Some s.
Proof.
  induction s as [|c s IH]; [reflexivity|].
  rewrite form_encode_cons. destruct (Ascii.eqb c " ") eqn:Es.
  - apply Ascii.eqb_eq in Es. subst c.
    cbn [plus_to_space Ascii.eqb Bool.eqb decodeURIComponent]. cbn.
    cbn in IH. rewrite IH. reflexivity.
  - destruct (form_safe c) eqn:E.
    + cbn [plus_to_space].
      destruct (Ascii.eqb c "+") eqn:Ep.
      { apply Ascii.eqb_eq in Ep. subst c. discriminate E. }
      cbn [decodeURIComponent]. destruct (Ascii.eqb c "%") eqn:Eq.
      { apply Ascii.eqb_eq in Eq. subst c. discriminate E. }
      rewrite IH. reflexivity.
    + rewrite plus_to_space_hexTable, decode_hexTable_any, IH. reflexivity.
Qed.

(** [utils.decode] undoes the form serializer as well. *)
Lemma decode_form_encode (s : string) : decode (form_encode s) = s.
Proof. unfold decode. now rewrite decodeURIComponent_form_encode. Qed.

Lemma parse_part_form (k v : string) :
  parse_part (form_encode k ++ "=" ++ form_encode v) = (k, JStr v).
Proof.
  unfold parse_part.
  assert (Hk : forall c, form_emitted c = false -> lacks c (form_encode k) = true)
    by (intros; now apply form_encode_lacks).
  assert (Hv : forall c, form_emitted c = false -> lacks c (form_encode v) = true)
    by (intros; now apply form_encode_lacks).
  unfold indexOf. rewrite indexOf_from_lacks.
  - change ("=" ++ form_encode v)%string with (String "=" (form_encode v)).
    rewrite indexOf_from_first by (apply Hk; reflexivity).
    cbn [Nat.add]. rewrite take_app, drop_app, !decode_form_encode. reflexivity.
  - rewrite lacks_app. rewrite Hk by reflexivity. simpl. apply Hv. reflexivity.
Qed.

Lemma form_pair_lacks (c : ascii) (k v : string) :
  form_emitted c = false -> Ascii.eqb c "=" = false ->
  lacks c (form_encode k ++ "=" ++ form_encode v) = true.
Proof.
  intros Hc Heq. rewrite !lacks_app.
  rewrite !form_encode_lacks by assumption.
  assert (Hsep : lacks c "=" = true).
  { unfold lacks. cbn [all_chars]. rewrite Ascii.eqb_sym, Heq. reflexivity. }
  rewrite Hsep. reflexivity.
Qed.

Lemma collect_parts_same {A} (f g : A -> string) (ps : list A) (n : nat)
  (acc : JsObject) :
  (forall x, parse_part (f x) = parse_part (g x)) ->
  collect_parts (firstn n (map f ps)) acc = collect_parts (firstn n (map g ps)) acc.
Proof.
  intros H. revert n acc. induction ps as [|x ps IH]; intros n acc.
  - now rewrite !firstn_nil.
  - destruct n as [|n]; [reflexivity|].
    cbn [map firstn collect_parts]. rewrite H.
    destruct (parse_part (g x)) as [key val]. apply IH.
Qed.

Lemma parseValues_joined {A} (f : A -> string) (ps : list A) :
  ps <> [] ->
  (forall x, lacks "&" (f x) = true) ->
  (forall x, lacks "?" (f x) = true) ->
  parseValues (join "&" (map f ps))
  = collect_parts (firstn parameterLimit (map f ps)) [].
Proof.
  intros Hne Hamp Hq. unfold parseValues.
  rewrite strip_query_prefix_lacks.
  - change "&"%string with (String "&" "") at 1.
    rewrite split_join; [reflexivity| |].
    + destruct ps; [contradiction | discriminate].
    + apply Forall_forall. intros s Hs. apply in_map_iff in Hs as (x & <- & _). apply Hamp.
  - apply lacks_join; [reflexivity|].
    apply Forall_forall. intros s Hs. apply in_map_iff in Hs as (x & <- & _). apply Hq.
Qed.

Lemma form_joined_nonempty (ps : list (string * string)) :
  ps <> [] -> (URLSearchParams_toString ps =? "")%string = false.
Proof.
  destruct ps as [|[k v] ps]; [contradiction|]. intros _.
  apply String.eqb_neq. intros H.
  assert (Hlen : String.length (URLSearchParams_toString ((k, v) :: ps)) = 0%nat)
    by now rewrite H.
  unfold URLSearchParams_toString in Hlen.
  destruct ps as [|p ps]; cbn [map join] in Hlen;
    cbn [fst snd] in Hlen; rewrite !string_length_app in Hlen;
    simpl in Hlen; lia.
Qed.

(** [qs.parse] reads what [URLSearchParams] wrote as it reads the same
    parameters in [qs]'s own encoding. *)
Lemma parse_form_pairs (ps : list (string * string)) :
  Qs.parse (URLSearchParams_toString ps) = Qs.parse (join "&" (map encode_pair ps)).
Proof.
  destruct ps as [|p ps]; [reflexivity|].
  unfold Qs.parse.
  rewrite form_joined_nonempty, join_pairs_nonempty by discriminate.
  unfold URLSearchParams_toString.
  rewrite !parseValues_joined; try discriminate.
  - rewrite (collect_parts_same _ encode_pair); [reflexivity|].
    intros [k v]. unfold encode_pair. cbn [fst snd].
    now rewrite parse_part_form, parse_part_encoded.
  - intros kv. now apply encode_pair_lacks.
  - intros kv. now apply encode_pair_lacks.
  - intros kv. now apply form_pair_lacks.
  - intros kv. now apply form_pair_lacks.
Qed.

Lemma record_pairs_string_record (ps : list (string * string)) :
  record_pairs (string_record ps) = ps.
Proof.
  unfold record_pairs, string_record.
  induction ps as [|[k v] ps IH]; [reflexivity|].
  cbn [map flat_map fst snd app]. now rewrite IH.
Qed.

End FormFacts.

Section RecordInput.
Import Js Url Qs Zod Codec Wire Flat Fields FormView.
Local Open Scope list_scope.
Variable SpanType_values : list string.
Variable Date_parse_other : string -> option Z.

(** A record is parsed as the query string that holds its parameters in
    [qs]'s percent-encoding, one [key=value] piece per value in the order
    of the record: going through [URLSearchParams] loses nothing of the
    keys and the values, whatever characters they hold. *)
Theorem record_parses_like_its_query (r : list (string * ParamValue)) :
  parseTracesQueryParams SpanType_values Date_parse_other (InRecord r)
  = parseTracesQueryParams SpanType_values Date_parse_other
      (InString (join "&" (map encode_pair (record_pairs r)))).
Proof.
  unfold parseTracesQueryParams. cbn [queryString_of].
  now rewrite parse_form_pairs.
Qed.

(** For arguments that round-trip, the record of the decoded parameters of
    the serialized query (each flat key with its string) parses back to the
    arguments. *)
Theorem decoded_record_parses_back (args : TracesPaginatedArg) :
  round_trips SpanType_values args = true ->
  parseTracesQueryParams SpanType_values Date_parse_other
    (InRecord (string_record (object_pairs (prepareForSerialization args))))
  = ParseResult args.
Proof.
  intros H.
  pose proof (prepareForSerialization_wire SpanType_values args H) as Hw.
  unfold parseTracesQueryParams. cbn [queryString_of].
  rewrite record_pairs_string_record, parse_form_pairs.
  pose proof (round_trip_again SpanType_values Date_parse_other args H) as R.
  unfold serializeTracesParams in R.
  unfold wire_ok in Hw. apply andb_prop in Hw as [Hw' _].
  apply andb_prop in Hw' as [Hw' _].
  rewrite stringify_pairs in R by assumption. exact R.
Qed.

End RecordInput.

Section RecordInputWitnesses.
Import Js Url Qs Zod Codec Wire Flat Fields FormView CodecLawSamples.
Local Open Scope list_scope.

Lemma decoded_record_parses_back_witness :
  round_trips ["agent_run"] FlatSamples.full_query = true
  /\ parseTracesQueryParams ["agent_run"] (fun _ => None)
       (InRecord (string_record (object_pairs
                    (prepareForSerialization FlatSamples.full_query))))
     = ParseResult FlatSamples.full_query.
Proof.
  split; [vm_compute; reflexivity|].
  apply (decoded_record_parses_back ["agent_run"] (fun _ => None) FlatSamples.full_query).
  vm_compute; reflexivity.
Defined.

End RecordInputWitnesses.

(* ===================================================================== *)
(** * [batchUpdateSpans] *)
(* ===================================================================== *)

Section BatchUpdateLaws.
Import Store StoreView.
Local Open Scope list_scope.

Lemma In_keys_Map_get (c : InMemoryObservability) (id : string) :
  In id (map fst c) -> exists r, Map_get c id = Some r.
Proof.
  induction c as [|[k v] c IH]; [contradiction|]. cbn.
  destruct (String.eqb_spec k id) as [->|Hne]; [now exists v|].
  intros [H|H]; [contradiction | auto].
Qed.

Lemma updateSpan_stored (now : Date) (params : UpdateParams)
  (c : InMemoryObservability) :
  In (generateId (p_traceId params) (p_spanId params)) (map fst c) ->
  fst (updateSpan now params c) = Returned tt
  /\ map fst (snd (updateSpan now params c)) = map fst c.
Proof.
  intros Hin. destruct (In_keys_Map_get c _ Hin) as [r Hr].
  unfold updateSpan, bind, read_collection. rewrite Hr. cbn.
  split; [reflexivity|]. now apply keys_Map_set_present.
Qed.

Lemma updateSpan_not_stored (now : Date) (params : UpdateParams)
  (c : InMemoryObservability) :
  ~ In (generateId (p_traceId params) (p_spanId params)) (map fst c) ->
  updateSpan now params c = (Thrown update_span_not_found, c).
Proof.
  intros Hout. unfold updateSpan, bind, read_collection.
  destruct (Map_get c _) as [r|] eqn:E; [|reflexivity].
  exfalso. apply Hout. apply Map_get_In in E. now apply (in_map fst) in E.
Qed.

(** [batchUpdateSpans] is not all-or-nothing: it stops at the first record
    whose generated id is not a key of the collection and throws
    [OBSERVABILITY_UPDATE_SPAN_NOT_FOUND]; the updates before it stay
    applied, the records after it are not looked at, and the keys of the
    collection and their order are as they were. *)
Theorem batchUpdateSpans_stops_at_first_unknown
  (before after : list (Date * UpdateParams)) (now : Date)
  (bad : UpdateParams) (c : InMemoryObservability) :
  Forall (fun r => In (generateId (p_traceId (snd r)) (p_spanId (snd r))) (map fst c))
         before ->
  ~ In (generateId (p_traceId bad) (p_spanId bad)) (map fst c) ->
  fst (batchUpdateSpans before c) = Returned tt
  /\ map fst (snd (batchUpdateSpans before c)) = map fst c
  /\ batchUpdateSpans (before ++ (now, bad) :: after) c
     = (Thrown update_span_not_found, snd (batchUpdateSpans before c)).
Proof.
  intros Hknown Hbad. revert c Hknown Hbad.
  induction before as [|[n r] before IH]; intros c Hknown Hbad.
  - split; [reflexivity|]. split; [reflexivity|].
    cbn [app batchUpdateSpans]. unfold bind.
    now rewrite updateSpan_not_stored.
  - inversion Hknown as [|? ? Hr Hrest]; subst. cbn [snd] in Hr.
    cbn [app batchUpdateSpans]. unfold bind.
    destruct (updateSpan_stored n r c Hr) as [Hret Hkeys].
    destruct (updateSpan n r c) as [[[]|e] c']; cbn in Hret; [|discriminate].
    cbn [snd] in Hkeys.
    destruct (IH c') as (H1 & H2 & H3).
    + rewrite Hkeys. exact Hrest.
    + rewrite Hkeys. exact Hbad.
    + split; [exact H1|]. split; [congruence | exact H3].
Qed.

End BatchUpdateLaws.

Section BatchUpdateWitnesses.
Import Store StoreView StoreSamples StoreLawSamples.
Local Open Scope list_scope.

Lemma batchUpdateSpans_stops_at_first_unknown_witness :
  ~ In (generateId "t9" "s9") (map fst three_spans)
  /\ batchUpdateSpans [(2000, update_of "t1" "s2"); (2001, update_of "t9" "s9");
                       (2002, update_of "t2" "s1")] three_spans
     = (Thrown update_span_not_found,
        snd (batchUpdateSpans [(2000, update_of "t1" "s2")] three_spans)).
Proof.
  assert (Hbad : ~ In (generateId "t9" "s9") (map fst three_spans)).
  { cbn. intuition discriminate. }
  split; [exact Hbad|].
  refine (proj2 (proj2 (batchUpdateSpans_stops_at_first_unknown
            [(2000, update_of "t1" "s2")] [(2002, update_of "t2" "s1")]
            2001 (update_of "t9" "s9") three_spans _ Hbad))).
  constructor; [|constructor]. cbn. right. left. reflexivity.
Defined.

End BatchUpdateWitnesses.

(* ===================================================================== *)
(** * The legacy [transformQueryParams]: what it drops *)
(* ===================================================================== *)

Section OwnPropertyFacts.
Import Js Legacy.
Local Open Scope list_scope.

Lemma lookup_replace {A} (obj : list (string * A)) (key : string) (v w : A) :
  lookup obj key = Some w -> lookup (replace obj key v) key = Some v.
Proof.
  induction obj as [|[k x] obj IH]; [discriminate|]. cbn.
  destruct (String.eqb_spec k key) as [->|Hne]; cbn.
  - now rewrite String.eqb_refl.
  - apply String.eqb_neq in Hne. now rewrite Hne.
Qed.

Lemma lookup_insert_index {A} (obj : list (string * A)) (key : string) (n : Z) (v : A) :
  lookup obj key = None -> lookup (insert_index obj key n v) key = Some v.
Proof.
  induction obj as [|[k x] obj IH]; cbn.
  - now rewrite String.eqb_refl.
  - destruct (String.eqb_spec k key) as [->|Hne]; [discriminate|]. intros H.
    apply String.eqb_neq in Hne.
    destruct (array_index k) as [m|]; [destruct (m <? n)|]; cbn;
      rewrite ?Hne, ?String.eqb_refl; auto.
Qed.

Lemma lookup_app_new {A} (obj : list (string * A)) (key : string) (v : A) :
  lookup obj key = None -> lookup (obj ++ [(key, v)]) key = Some v.
Proof.
  induction obj as [|[k x] obj IH]; cbn.
  - now rewrite String.eqb_refl.
  - destruct (k =? key)%string; [discriminate | exact IH].
Qed.

Lemma lookup_own_set {A} (obj : list (string * A)) (key : string) (v : A) :
  lookup (own_set obj key v) key = Some v.
Proof.
  unfold own_set. destruct (lookup obj key) as [w|] eqn:E.
  - now apply (lookup_replace obj key v w).
  - destruct (array_index key); [now apply lookup_insert_index | now apply lookup_app_new].
Qed.

End OwnPropertyFacts.

Section LegacyLaws.
Import Js Legacy.
Local Open Scope list_scope.
Variable Date_parse_other : string -> option Z.


Lemma transform_entries_app (a b : list (string * Codec.ParamValue)) (acc : Acc) :
  transform_entries Date_parse_other (a ++ b) acc
  = match transform_entries Date_parse_other a acc with
    | Built acc' => transform_entries Date_parse_other b acc'
    | ThrowsTypeError => ThrowsTypeError
    | Outside => Outside
    end.
Proof.
  revert acc. induction a as [|e a IH]; intros acc; [reflexivity|].
  cbn [app transform_entries].
  destruct (transform_entry Date_parse_other acc e); auto.
Qed.

(** An entry the loop body passes over can be left out. *)
Lemma skipped_entry (e : string * Codec.ParamValue)
  (a b : list (string * Codec.ParamValue)) :
  (forall acc, transform_entry Date_parse_other acc e = Built acc) ->
  transformQueryParams Date_parse_other (a ++ e :: b)
  = transformQueryParams Date_parse_other (a ++ b).
Proof.
  intros H. unfold transformQueryParams.
  rewrite !transform_entries_app.
  destruct (transform_entries Date_parse_other a empty_acc) as [acc| |]; auto.
  cbn [transform_entries]. now rewrite H.
Qed.

(** In the legacy revision a [hasChildError] parameter that is neither
    [true] nor [false] is dropped without a trace: [transformQueryParams]
    gives what it gives for the query without the parameter, so the schema
    never sees the value. *)
Theorem legacy_malformed_boolean_is_dropped
  (a b : list (string * Codec.ParamValue)) (v : string) :
  v <> "true"%string -> v <> "false"%string ->
  transformQueryParams Date_parse_other (a ++ ("hasChildError", Codec.PString v) :: b)
  = transformQueryParams Date_parse_other (a ++ b).
Proof.
  intros Ht Hf. apply skipped_entry. intros acc.
  unfold transform_entry, first_value.
  destruct (v =? "")%string; [reflexivity|]. cbn.
  apply String.eqb_neq in Ht, Hf. now rewrite Ht, Hf.
Qed.

(** In the legacy revision a [page] or [perPage] parameter that does not
    start with a number is dropped without a trace. *)
Theorem legacy_malformed_page_is_dropped
  (a b : list (string * Codec.ParamValue)) (key v : string) :
  key = "page"%string \/ key = "perPage"%string ->
  parseInt v = NNaN ->
  transformQueryParams Date_parse_other (a ++ (key, Codec.PString v) :: b)
  = transformQueryParams Date_parse_other (a ++ b).
Proof.
  intros Hk Hv. apply skipped_entry. intros acc.
  unfold transform_entry, first_value.
  destruct (v =? "")%string; [reflexivity|].
  destruct Hk as [-> | ->]; cbn; now rewrite Hv.
Qed.

Lemma dateRange_entry (acc : Acc) (n val : string) :
  val <> ""%string ->
  transform_entry Date_parse_other acc
    (("dateRange." ++ n)%string, Codec.PString val)
  = set_dateRange Date_parse_other acc (join "." (split "." n)) val.
Proof.
  intros Hne. unfold transform_entry, first_value.
  apply String.eqb_neq in Hne. rewrite Hne. reflexivity.
Qed.

Lemma with_filters_same (acc : Acc) : with_filters acc (filters acc) = acc.
Proof. now destruct acc. Qed.

Lemma set_dateRange_invalid (acc : Acc) (k val : string) :
  Codec.Date_parse Date_parse_other val = None ->
  truthy (lookup (filters acc) "dateRange") = true ->
  set_dateRange Date_parse_other acc k val = Built acc.
Proof.
  intros Hv Ht. unfold set_dateRange. rewrite Hv, Ht.
  now rewrite with_filters_same.
Qed.

Lemma set_dateRange_truthy (acc acc' : Acc) (k val : string) :
  set_dateRange Date_parse_other acc k val = Built acc' ->
  truthy (lookup (filters acc') "dateRange") = true.
Proof.
  unfold set_dateRange.
  set (f1 := if truthy (lookup (filters acc) "dateRange") then filters acc
             else own_set (filters acc) "dateRange" (VObj [])).
  assert (H1 : truthy (lookup f1 "dateRange") = true).
  { subst f1. destruct (truthy (lookup (filters acc) "dateRange")) eqn:E; [exact E|].
    now rewrite lookup_own_set. }
  destruct (Codec.Date_parse Date_parse_other val) as [t|].
  - destruct (lookup f1 "dateRange") as [[s|n|b0|d|items|range]|] eqn:E;
      try discriminate.
    + destruct (k =? "__proto__")%string; [|discriminate].
      intros H. injection H as <-. cbn [filters with_filters]. now rewrite E.
    + destruct (k =? "__proto__")%string; [discriminate|].
      intros H. injection H as <-. cbn [filters with_filters].
      now rewrite lookup_own_set.
  - intros H. injection H as <-. exact H1.
Qed.

(** In the legacy revision a date the engine cannot read is dropped
    without an error: after a readable date of the range the parameter
    changes nothing, and alone it leaves filters with an empty
    [dateRange]. *)
Theorem legacy_malformed_date_is_dropped
  (a b : list (string * Codec.ParamValue)) (n0 n v0 v : string) (t : Z) :
  v0 <> ""%string ->
  Codec.Date_parse Date_parse_other v0 = Some t ->
  Codec.Date_parse Date_parse_other v = None ->
  transformQueryParams Date_parse_other
    (a ++ (("dateRange." ++ n0)%string, Codec.PString v0)
       :: (("dateRange." ++ n)%string, Codec.PString v) :: b)
  = transformQueryParams Date_parse_other
      (a ++ (("dateRange." ++ n0)%string, Codec.PString v0) :: b)
  /\ (v <> ""%string ->
      transformQueryParams Date_parse_other
        [(("dateRange." ++ n)%string, Codec.PString v)]
      = Built [("filters", VObj [("dateRange", VObj [])])]).
Proof.
  intros Hv0 Ht Hv. split.
  - unfold transformQueryParams. rewrite !transform_entries_app.
    destruct (transform_entries Date_parse_other a empty_acc) as [acc| |]; auto.
    cbn [transform_entries]. rewrite (dateRange_entry acc n0 v0 Hv0).
    destruct (set_dateRange Date_parse_other acc _ v0) as [acc'| |] eqn:E; auto.
    apply set_dateRange_truthy in E.
    destruct (String.eqb_spec v "") as [->|Hne].
    + reflexivity.
    + rewrite (dateRange_entry acc' n v Hne).
      now rewrite set_dateRange_invalid.
  - intros Hne. unfold transformQueryParams.
    cbn [transform_entries]. rewrite (dateRange_entry empty_acc n v Hne).
    unfold set_dateRange. rewrite Hv. reflexivity.
Qed.

End LegacyLaws.

Section LegacyLawWitnesses.
Import Js Legacy LegacySamples.
Local Open Scope list_scope.

Lemma legacy_malformed_boolean_is_dropped_witness :
  transformQueryParams (fun _ => None)
    (status_first ++ ("hasChildError", Codec.PString "maybe") :: page_last)
  = transformQueryParams (fun _ => None) (status_first ++ page_last).
Proof.
  apply (legacy_malformed_boolean_is_dropped (fun _ => None) status_first page_last
           "maybe"); discriminate.
Defined.

Lemma legacy_malformed_page_is_dropped_witness :
  parseInt "two" = NNaN
  /\ transformQueryParams (fun _ => None)
       (status_first ++ ("perPage", Codec.PString "two") :: page_last)
     = transformQueryParams (fun _ => None) (status_first ++ page_last).
Proof.
  split; [reflexivity|].
  apply (legacy_malformed_page_is_dropped (fun _ => None) status_first page_last
           "perPage" "two"); [now right | reflexivity].
Defined.

Lemma legacy_malformed_date_is_dropped_witness :
  Codec.Date_parse (fun _ => None) "2024-01-01T00:00:00.000Z" = Some 1704067200000
  /\ Codec.Date_parse (fun _ => None) "yesterday" = None
  /\ transformQueryParams (fun _ => None)
       (status_first ++ ("dateRange.start", Codec.PString "2024-01-01T00:00:00.000Z")
          :: ("dateRange.end", Codec.PString "yesterday") :: page_last)
     = transformQueryParams (fun _ => None)
         (status_first ++ ("dateRange.start", Codec.PString "2024-01-01T00:00:00.000Z")
            :: page_last).
Proof.
  split; [reflexivity|]. split; [reflexivity|].
  refine (proj1 (legacy_malformed_date_is_dropped (fun _ => None) status_first page_last
                   "start" "end" "2024-01-01T00:00:00.000Z" "yesterday"
                   1704067200000 _ eq_refl eq_refl)).
  discriminate.
Defined.

End LegacyLawWitnesses.

(* ===================================================================== *)
(** * Malformed dates and booleans *)
(* ===================================================================== *)

Section MalformedValues.
Import Js Qs Zod Codec Fields.
Local Open Scope list_scope.

Variable SpanType_values : list string.
Variable Date_parse_other : string -> option Z.


End MalformedValues.

Section MalformedValueExamples.
Import Js Qs Zod Codec Fields CodecLawSamples.
Local Open Scope list_scope.



End MalformedValueExamples.
